(** * harness: the hierarchical test-execution engine of [harness/harness.go]

    A shallow embedding of the per-unit state ([H]), of the operations that
    read and write it ([Fail], [FailNow], [SkipNow], [setRan], [Parallel],
    [Run], [report], [flushToParent], the [indenter] writer) and of the
    lifecycle driver [tRunner] with its deferred finalization.

    Modelling conventions.
    - A [*H] pointer is an index into the list of allocated units; an index
      that is out of range plays the role of the nil pointer and using it
      panics as a nil dereference does.
    - The code of one task is a function in the monad [M]: it threads the
      shared units, the trace of effects the task performs on the outside
      world (channel operations, concurrency-gate calls, task creation,
      context calls, writes to external writers) and the number of clock
      readings taken so far.
    - The other tasks are an environment [env]: whenever the modelled task
      returns from a blocking operation the shared units have been
      transformed by [env].  Mutexes are not modelled (each critical section
      of the source is executed atomically by the model).
    - Channels, the concurrency gate and the contexts live outside of the
      model: the operations on them are recorded in the trace.  So do the
      writers supplied by the suite, which are taken to accept every byte.
    - [recover()] returns nil after [runtime.Goexit], after [panic(nil)] and
      when the body has returned; the deferred function of [tRunner] cannot
      tell these apart, and neither does the model: a body that ends by
      [panic(nil)] is a body that ends by [Goexit].
    - The logging helpers ([log], [Log], [Error], ...) and the filesystem
      helpers ([OutputDir], [TempDir], [TempFile]) are not modelled. *)

From Stdlib Require Import ZArith Ascii String DecimalPos DecimalString
  DecimalN.
From stdpp Require Import base option list.

Open Scope string_scope.
Open Scope Z_scope.

Module Harness.

(** ** Data model *)

(** [suite.opts]: only the [Verbose] option is read by the engine. *)
Record Suite := { Verbose : bool }.

(** An [io.Writer] known to the engine: the [indenter] of a unit, or a
    writer supplied by the suite (a file, the standard output), identified
    by a number. *)
Inductive writer :=
| WIndenter (c : nat)
| WExternal (k : nat).

(** [context.Context] values built by [tRunner]. *)
Inductive context :=
| Background
| WithCancel (owner : nat) (from : context).

(** The struct [H].  [mu], [logger], [barrier] and [signal] carry no data of
    their own in the model: the channels of unit [c] are named by [c] in the
    events below. *)
Record H := {
  output : string;
  w : writer;
  tap : option writer;
  ctx : option context;
  ran : bool;
  failed : bool;
  skipped : bool;
  finished : bool;
  done : bool;
  hasSub : bool;
  suite : Suite;
  parent : option nat;
  level : Z;
  name : string;
  start : Z;
  duration : Z;
  sub : list nat;
  isParallel : bool
}.

(** Effects of a task on the world outside of the shared units. *)
Inductive event :=
| EvWrite (k : nat) (b : string)   (* Write(b) on the external writer k *)
| EvGo (c : nat)                   (* go tRunner(c, f) *)
| EvSend (c : nat)                 (* c.signal <- true *)
| EvRecv (c : nat)                 (* <-c.signal *)
| EvClose (c : nat)                (* close(c.barrier) *)
| EvRecvBarrier (c : nat)          (* <-c.barrier *)
| EvRelease                        (* suite.release() *)
| EvWaitParallel                   (* suite.waitParallel() *)
| EvCancel (c : nat).              (* c.cancel() *)

Record state := {
  units : list H;
  trace : list event;
  ticks : nat
}.

(** How a call ends: it returns, it panics with a value, the task exits
    through [runtime.Goexit], or it never ends (a cyclic parent chain). *)
Inductive outcome (A : Type) :=
| Ret (a : A)
| Panic (v : string)
| Goexit
| Diverge.
Arguments Ret {A} a.
Arguments Panic {A} v.
Arguments Goexit {A}.
Arguments Diverge {A}.

Definition M (A : Type) : Type := state -> outcome A * state.

Definition ret {A} (a : A) : M A := fun s => (Ret a, s).

Definition bind {A B} (m : M A) (k : A -> M B) : M B :=
  fun s =>
    match m s with
    | (Ret a, s') => k a s'
    | (Panic v, s') => (Panic v, s')
    | (Goexit, s') => (Goexit, s')
    | (Diverge, s') => (Diverge, s')
    end.

Notation "x <- m ;; k" := (bind m (fun x => k))
  (at level 100, m at next level, right associativity).
Notation "m ;;; k" := (bind m (fun _ => k))
  (at level 100, right associativity).

Definition panic {A} (v : string) : M A := fun s => (Panic v, s).
Definition goexit {A} : M A := fun s => (Goexit, s).
Definition diverge {A} : M A := fun s => (Diverge, s).

Definition nil_dereference : string :=
  "runtime error: invalid memory address or nil pointer dereference".

(** Reading the struct behind a pointer. *)
Definition get (c : nat) : M H :=
  fun s =>
    match units s !! c with
    | Some h => (Ret h, s)
    | None => (Panic nil_dereference, s)
    end.

Definition with_units (s : state) (us : list H) : state :=
  {| units := us; trace := trace s; ticks := ticks s |}.

(** Writing fields of the struct behind a pointer. *)
Definition modify (c : nat) (f : H -> H) : M unit :=
  fun s =>
    match units s !! c with
    | Some _ => (Ret tt, with_units s (alter f c (units s)))
    | None => (Panic nil_dereference, s)
    end.

(** The units allocated so far. *)
Definition heap : M (list H) := fun s => (Ret (units s), s).

(** [&H{...}]: a fresh unit, at the first free index; [mk] receives the
    new pointer. *)
Definition alloc (mk : nat -> H) : M nat :=
  fun s => (Ret (length (units s)),
            with_units s (units s ++ [mk (length (units s))])).

Definition emit (e : event) : M unit :=
  fun s => (Ret tt, {| units := units s; trace := trace s ++ [e];
                       ticks := ticks s |}).

Definition set_output (x : string) (h : H) : H :=
  {| output := x; w := w h; tap := tap h; ctx := ctx h; ran := ran h;
     failed := failed h; skipped := skipped h; finished := finished h;
     done := done h; hasSub := hasSub h; suite := suite h;
     parent := parent h; level := level h; name := name h;
     start := start h; duration := duration h; sub := sub h;
     isParallel := isParallel h |}.
Definition set_ctx (x : option context) (h : H) : H :=
  {| output := output h; w := w h; tap := tap h; ctx := x; ran := ran h;
     failed := failed h; skipped := skipped h; finished := finished h;
     done := done h; hasSub := hasSub h; suite := suite h;
     parent := parent h; level := level h; name := name h;
     start := start h; duration := duration h; sub := sub h;
     isParallel := isParallel h |}.
Definition set_ran (x : bool) (h : H) : H :=
  {| output := output h; w := w h; tap := tap h; ctx := ctx h; ran := x;
     failed := failed h; skipped := skipped h; finished := finished h;
     done := done h; hasSub := hasSub h; suite := suite h;
     parent := parent h; level := level h; name := name h;
     start := start h; duration := duration h; sub := sub h;
     isParallel := isParallel h |}.
Definition set_failed (x : bool) (h : H) : H :=
  {| output := output h; w := w h; tap := tap h; ctx := ctx h; ran := ran h;
     failed := x; skipped := skipped h; finished := finished h;
     done := done h; hasSub := hasSub h; suite := suite h;
     parent := parent h; level := level h; name := name h;
     start := start h; duration := duration h; sub := sub h;
     isParallel := isParallel h |}.
Definition set_skipped (x : bool) (h : H) : H :=
  {| output := output h; w := w h; tap := tap h; ctx := ctx h; ran := ran h;
     failed := failed h; skipped := x; finished := finished h;
     done := done h; hasSub := hasSub h; suite := suite h;
     parent := parent h; level := level h; name := name h;
     start := start h; duration := duration h; sub := sub h;
     isParallel := isParallel h |}.
Definition set_finished (x : bool) (h : H) : H :=
  {| output := output h; w := w h; tap := tap h; ctx := ctx h; ran := ran h;
     failed := failed h; skipped := skipped h; finished := x;
     done := done h; hasSub := hasSub h; suite := suite h;
     parent := parent h; level := level h; name := name h;
     start := start h; duration := duration h; sub := sub h;
     isParallel := isParallel h |}.
Definition set_done (x : bool) (h : H) : H :=
  {| output := output h; w := w h; tap := tap h; ctx := ctx h; ran := ran h;
     failed := failed h; skipped := skipped h; finished := finished h;
     done := x; hasSub := hasSub h; suite := suite h;
     parent := parent h; level := level h; name := name h;
     start := start h; duration := duration h; sub := sub h;
     isParallel := isParallel h |}.
Definition set_hasSub (x : bool) (h : H) : H :=
  {| output := output h; w := w h; tap := tap h; ctx := ctx h; ran := ran h;
     failed := failed h; skipped := skipped h; finished := finished h;
     done := done h; hasSub := x; suite := suite h;
     parent := parent h; level := level h; name := name h;
     start := start h; duration := duration h; sub := sub h;
     isParallel := isParallel h |}.
Definition set_start (x : Z) (h : H) : H :=
  {| output := output h; w := w h; tap := tap h; ctx := ctx h; ran := ran h;
     failed := failed h; skipped := skipped h; finished := finished h;
     done := done h; hasSub := hasSub h; suite := suite h;
     parent := parent h; level := level h; name := name h;
     start := x; duration := duration h; sub := sub h;
     isParallel := isParallel h |}.
Definition set_duration (x : Z) (h : H) : H :=
  {| output := output h; w := w h; tap := tap h; ctx := ctx h; ran := ran h;
     failed := failed h; skipped := skipped h; finished := finished h;
     done := done h; hasSub := hasSub h; suite := suite h;
     parent := parent h; level := level h; name := name h;
     start := start h; duration := x; sub := sub h;
     isParallel := isParallel h |}.
Definition set_sub (x : list nat) (h : H) : H :=
  {| output := output h; w := w h; tap := tap h; ctx := ctx h; ran := ran h;
     failed := failed h; skipped := skipped h; finished := finished h;
     done := done h; hasSub := hasSub h; suite := suite h;
     parent := parent h; level := level h; name := name h;
     start := start h; duration := duration h; sub := x;
     isParallel := isParallel h |}.
Definition set_isParallel (x : bool) (h : H) : H :=
  {| output := output h; w := w h; tap := tap h; ctx := ctx h; ran := ran h;
     failed := failed h; skipped := skipped h; finished := finished h;
     done := done h; hasSub := hasSub h; suite := suite h;
     parent := parent h; level := level h; name := name h;
     start := start h; duration := duration h; sub := sub h;
     isParallel := x |}.

(** ** Machine integers and time *)

(** Two's complement wrap-around of [int64] arithmetic. *)
Definition wrap64 (z : Z) : Z := (z + 2 ^ 63) mod 2 ^ 64 - 2 ^ 63.

Definition minDuration : Z := - 2 ^ 63.
Definition maxDuration : Z := 2 ^ 63 - 1.

(** [Time.Sub]: the difference in nanoseconds, saturated to the range of
    [time.Duration]. *)
Definition Sub (t u : Z) : Z :=
  if t - u <? minDuration then minDuration
  else if maxDuration <? t - u then maxDuration
  else t - u.

(** ** Formatting of durations

    [float64] values are modelled by the rationals they denote, as a
    numerator and a positive denominator; an operation on them is the exact
    operation followed by the rounding of the binary64 format (to the
    nearest value with a 53-bit significand, ties to even).  The values met
    here are far from the overflow and subnormal ranges. *)

Definition float64 : Type := Z * Z.

(** The integer nearest to [a / b], ties to even, for [0 <= a] and
    [0 < b]. *)
Definition round_half_even (a b : Z) : Z :=
  let q := a / b in
  let r := a mod b in
  if 2 * r <? b then q
  else if b <? 2 * r then q + 1
  else if Z.even q then q else q + 1.

(** Rounding of the positive rational [a / b] to binary64. *)
Definition round64_pos (a b : Z) : float64 :=
  let k := Z.log2 a - Z.log2 b in
  let below := if 0 <=? k then a <? b * 2 ^ k else a * 2 ^ (- k) <? b in
  let e := (if below then k - 1 else k) - 52 in
  if 0 <=? e then (round_half_even a (b * 2 ^ e) * 2 ^ e, 1)
  else (round_half_even (a * 2 ^ (- e)) b, 2 ^ (- e)).

Definition round64 (a b : Z) : float64 :=
  if a =? 0 then (0, 1)
  else if a <? 0 then
    let '(n, d) := round64_pos (- a) b in (- n, d)
  else round64_pos a b.

Definition Second : Z := 1000000000.

(** [Duration.Seconds]:
    [float64(d / Second) + float64(d % Second) / 1e9]. *)
Definition Seconds (d : Z) : float64 :=
  let sec := Z.quot d Second in
  let nsec := Z.rem d Second in
  let '(fn, fd) := round64 nsec Second in
  round64 (sec * fd + fn) fd.

Definition digit (u : Z) : ascii := ascii_of_nat (48 + Z.to_nat u).

Fixpoint string_of_uint (u : Decimal.uint) : string :=
  match u with
  | Decimal.Nil => ""
  | Decimal.D0 r => String "0" (string_of_uint r)
  | Decimal.D1 r => String "1" (string_of_uint r)
  | Decimal.D2 r => String "2" (string_of_uint r)
  | Decimal.D3 r => String "3" (string_of_uint r)
  | Decimal.D4 r => String "4" (string_of_uint r)
  | Decimal.D5 r => String "5" (string_of_uint r)
  | Decimal.D6 r => String "6" (string_of_uint r)
  | Decimal.D7 r => String "7" (string_of_uint r)
  | Decimal.D8 r => String "8" (string_of_uint r)
  | Decimal.D9 r => String "9" (string_of_uint r)
  end.

(** The decimal digits of a natural number ([0] prints as "0"). *)
Definition decimal (z : Z) : string :=
  string_of_uint (N.to_uint (Z.to_N z)).

(** [fmt.Sprintf("%.2f", x)]: the exact value of [x] rounded to
    hundredths, ties to even, with a minus sign for a negative [x]. *)
Definition Sprintf_2f (x : float64) : string :=
  let '(n, d) := x in
  let h := round_half_even (100 * Z.abs n) d in
  (if n <? 0 then "-" else "") ++
  decimal (h / 100) ++ "." ++
  String (digit (h mod 100 / 10)) (String (digit (h mod 10)) "").

(** [fmtDuration]: [fmt.Sprintf("%.2fs", d.Seconds())]. *)
Definition fmtDuration (d : Z) : string :=
  Sprintf_2f (Seconds d) ++ "s".

(** ** Byte strings *)

Definition newline : ascii := "010"%char.

(** [bytes.IndexByte]. *)
Fixpoint IndexByte (b : string) (c : ascii) : option nat :=
  match b with
  | EmptyString => None
  | String x r =>
      if Ascii.eqb x c then Some 0%nat else S <$> IndexByte r c
  end.

(** [strings.Replace(s, c, "", -1)] for a one-byte [c]: every occurrence of
    the byte is dropped. *)
Fixpoint Replace_all_by_empty (s : string) (c : ascii) : string :=
  match s with
  | EmptyString => EmptyString
  | String x r =>
      if Ascii.eqb x c then Replace_all_by_empty r c
      else String x (Replace_all_by_empty r c)
  end.

Definition is_empty (b : string) : bool :=
  match b with EmptyString => true | _ => false end.

(** ** Operations that do not block *)

Definition append_output (c : nat) (b : string) : M unit :=
  modify c (fun h => set_output (output h ++ b) h).

(** The body of the loop of [indenter.Write]; [n] bounds the number of
    iterations. *)
Fixpoint indenter_loop (n : nat) (c : nat) (b : string) : M unit :=
  if is_empty b then ret tt
  else
    match n with
    | O => diverge
    | S n =>
        let end_ :=
          match IndexByte b newline with
          | None => String.length b
          | Some i => S i
          end in
        let indent := "    " in
        append_output c indent;;;
        append_output c (substring 0 end_ b);;;
        indenter_loop n c (substring end_ (String.length b - end_) b)
    end.

(** [indenter.Write]: every iteration consumes at least one byte. *)
Definition indenter_Write (c : nat) (b : string) : M unit :=
  indenter_loop (String.length b) c b.

(** [wr.Write(b)] for a writer [wr].  An external writer accepts all the
    bytes. *)
Definition Write (wr : writer) (b : string) : M unit :=
  match wr with
  | WIndenter c => indenter_Write c b
  | WExternal k => emit (EvWrite k b)
  end.

Definition Failed (c : nat) : M bool := h <- get c;; ret (failed h).
Definition Skipped (c : nat) : M bool := h <- get c;; ret (skipped h).

(** [setRan]; [n] bounds the depth of the recursion. *)
Fixpoint setRan_fuel (n : nat) (c : nat) : M unit :=
  match n with
  | O => diverge
  | S n =>
      h <- get c;;
      match parent h with
      | Some p => setRan_fuel n p
      | None => ret tt
      end;;;
      modify c (set_ran true)
  end.

Definition setRan (c : nat) : M unit :=
  fun s => setRan_fuel (S (length (units s))) c s.

(** [Fail]; [n] bounds the depth of the recursion. *)
Fixpoint Fail_fuel (n : nat) (c : nat) : M unit :=
  match n with
  | O => diverge
  | S n =>
      h <- get c;;
      match parent h with
      | Some p => Fail_fuel n p
      | None => ret tt
      end;;;
      h <- get c;;
      if done h then
        panic ("Fail in goroutine after " ++ name h ++ " has completed")
      else modify c (set_failed true)
  end.

Definition Fail (c : nat) : M unit :=
  fun s => Fail_fuel (S (length (units s))) c s.

Definition FailNow (c : nat) : M unit :=
  Fail c;;;
  modify c (set_finished true);;;
  goexit.

Definition skip (c : nat) : M unit := modify c (set_skipped true).

Definition SkipNow (c : nat) : M unit :=
  skip c;;;
  modify c (set_finished true);;;
  goexit.

(** [fmt.Sprintf("--- %s: %s (%s)\n", status, name, dstr)]. *)
Definition Sprintf_status (status name dstr : string) : string :=
  "--- " ++ status ++ ": " ++ name ++ " (" ++ dstr ++ ")" ++
  String newline "".

Definition tap_not_ok (name : string) : string :=
  "not ok - " ++ name ++ String newline "".
Definition tap_ok_skip (name : string) : string :=
  "ok - " ++ name ++ " # SKIP" ++ String newline "".
Definition tap_ok (name : string) : string :=
  "ok - " ++ name ++ String newline "".

(** [io.Copy(wr, &c.output)], which is [c.output.WriteTo(wr)]: one [Write]
    of the whole buffer when it is not empty, then the buffer is reset. *)
Definition Copy (wr : writer) (c : nat) : M unit :=
  h <- get c;;
  (if is_empty (output h) then ret tt else Write wr (output h));;;
  modify c (set_output "").

(** [flushToParent]; [header] is the formatted header. *)
Definition flushToParent (c : nat) (header : string) : M unit :=
  h <- get c;;
  match parent h with
  | None => panic nil_dereference
  | Some p =>
      ph <- get p;;
      Write (w ph) header;;;
      match tap ph with
      | Some tw =>
          let name := Replace_all_by_empty (name h) "#"%char in
          f <- Failed c;;
          if f then Write tw (tap_not_ok name)
          else
            k <- Skipped c;;
            if k then Write tw (tap_ok_skip name)
            else Write tw (tap_ok name)
      | None => ret tt
      end;;;
      Copy (w ph) c
  end.

(** [report]. *)
Definition report (t : nat) : M unit :=
  h <- get t;;
  match parent h with
  | None => ret tt
  | Some _ =>
      let dstr := fmtDuration (duration h) in
      f <- Failed t;;
      if f then flushToParent t (Sprintf_status "FAIL" (name h) dstr)
      else if Verbose (suite h) then
        k <- Skipped t;;
        if k then flushToParent t (Sprintf_status "SKIP" (name h) dstr)
        else flushToParent t (Sprintf_status "PASS" (name h) dstr)
      else ret tt
  end.

(** ** Logging

    [Run] gives every unit it constructs the logger
    [log.New(&t.output, "        ", log.Lshortfile)]; the operations below
    are those of such a unit.  The place of the call, which the logger gets
    from the runtime, is a parameter, and so is the formatted text
    ([fmt.Sprintln(args...)] or [fmt.Sprintf(format, args...)]), so that
    [Logf], [Errorf], [Fatalf] and [Skipf] are [Log], [Error], [Fatal] and
    [Skip] at another text. *)

(** [len(s) == 0 || s[len(s)-1] != '\n']. *)
Fixpoint lacks_final_newline (s : string) : bool :=
  match s with
  | EmptyString => true
  | String x EmptyString => negb (Ascii.eqb x newline)
  | String _ r => lacks_final_newline r
  end.

(** What [Logger.Output] writes for the text [s], with the flag
    [Lshortfile]: the prefix, the place of the call, the text, and a
    newline when the text does not end with one. *)
Definition Output (prefix file : string) (line : Z) (s : string) : string :=
  prefix ++ file ++ ":" ++ decimal line ++ ": " ++ s ++
  (if lacks_final_newline s then String newline "" else "").

(** [log]: the record goes to the buffer of the unit. *)
Definition log (c : nat) (file : string) (line : Z) (s : string) : M unit :=
  append_output c (Output "        " file line s).

Definition Log (c : nat) (file : string) (line : Z) (text : string)
  : M unit :=
  log c file line text.

Definition Error (c : nat) (file : string) (line : Z) (text : string)
  : M unit :=
  log c file line text;;;
  Fail c.

Definition Fatal (c : nat) (file : string) (line : Z) (text : string)
  : M unit :=
  log c file line text;;;
  FailNow c.

Definition Skip (c : nat) (file : string) (line : Z) (text : string)
  : M unit :=
  log c file line text;;;
  SkipNow c.

(** ** Operations that block, take the time or consult the suite *)

Section Engine.

(** What the other tasks have done to the units by the time a blocking
    operation of this task returns. *)
Variable env : event -> list H -> list H.

(** The successive readings of the clock, in nanoseconds. *)
Variable clock : nat -> Z.

(** [suite.match.fullName]: the qualified name of a subtest of [t] and
    whether it is selected. *)
Variable fullName : list H -> nat -> string -> string * bool.

Definition block (e : event) : M unit :=
  fun s => (Ret tt, {| units := env e (units s); trace := trace s ++ [e];
                       ticks := ticks s |}).

(** [time.Now()]. *)
Definition now : M Z :=
  fun s => (Ret (clock (ticks s)),
            {| units := units s; trace := trace s; ticks := S (ticks s) |}).

(** [t.duration += d]. *)
Definition add_duration (t : nat) (d : Z) : M unit :=
  modify t (fun h => set_duration (wrap64 (duration h + d)) h).

(** [Parallel]. *)
Definition Parallel (t : nat) : M unit :=
  h <- get t;;
  if isParallel h then panic "testing: t.Parallel called multiple times"
  else
    modify t (set_isParallel true);;;
    n <- now;;
    h <- get t;;
    add_duration t (Sub n (start h));;;
    h <- get t;;
    match parent h with
    | None => panic nil_dereference
    | Some p => modify p (fun ph => set_sub (sub ph ++ [t]) ph)
    end;;;
    block (EvSend t);;;
    h <- get t;;
    match parent h with
    | None => panic nil_dereference
    | Some p => get p;;; block (EvRecvBarrier p)
    end;;;
    block EvWaitParallel;;;
    n <- now;;
    modify t (set_start n).

(** [for _, sub := range subs { <-sub.signal }]. *)
Fixpoint wait_all (subs : list nat) : M unit :=
  match subs with
  | [] => ret tt
  | c :: subs => block (EvRecv c);;; wait_all subs
  end.

Definition protocol_violation : string :=
  "test executed panic(nil) or runtime.Goexit".

(** The deferred function of [tRunner], lines 386 to 404: the parallel
    subtests are released and awaited, and the count of running tests is
    kept right. *)
Definition run_parallel_subtests (t : nat) : M unit :=
  h <- get t;;
  match sub h with
  | _ :: _ =>
      emit EvRelease;;;
      emit (EvClose t);;;
      wait_all (sub h);;;
      h <- get t;;
      if negb (isParallel h) then block EvWaitParallel else ret tt
  | [] =>
      if isParallel h then emit EvRelease else ret tt
  end.

(** The function deferred by [tRunner]; [r] is what [recover()] returns:
    the value of the panic that ended the body, or nil when the body
    returned, called [runtime.Goexit] or executed [panic(nil)]. *)
Definition tRunner_deferred (t : nat) (r : option string) : M unit :=
  n <- now;;
  h <- get t;;
  add_duration t (Sub n (start h));;;
  h <- get t;;
  let err :=
    if negb (finished h) && bool_decide (r = None)
    then Some protocol_violation else r in
  match err with
  | Some e =>
      Fail t;;;
      report t;;;
      panic e
  | None =>
      run_parallel_subtests t;;;
      report t;;;
      modify t (set_done true);;;
      h <- get t;;
      (if bool_decide (parent h <> None) && negb (hasSub h)
       then setRan t else ret tt);;;
      block (EvSend t)
  end.

(** [defer f()] for an [f] that calls [recover()]: [f] runs however the
    body ends and stops a panic of the body; a call of [runtime.Goexit]
    goes on after [f] has returned. *)
Definition defer_recover (body : M unit) (f : option string -> M unit)
  : M unit :=
  fun s =>
    match body s with
    | (Diverge, s1) => (Diverge, s1)
    | (Ret _, s1) => f None s1
    | (Panic v, s1) => f (Some v) s1
    | (Goexit, s1) =>
        match f None s1 with
        | (Ret _, s2) => (Goexit, s2)
        | r => r
        end
    end.

(** [defer f()] for an [f] that does not recover: the panic or the exit of
    the body goes on after [f] has returned. *)
Definition defer_call (body : M unit) (f : M unit) : M unit :=
  fun s =>
    match body s with
    | (Diverge, s1) => (Diverge, s1)
    | (o, s1) =>
        match f s1 with
        | (Ret _, s2) => (o, s2)
        | r => r
        end
    end.

(** [parentContext]. *)
Definition parentContext (c : nat) : M context :=
  fun s =>
    match units s !! c with
    | None => (Ret Background, s)
    | Some h =>
        match parent h with
        | None => (Ret Background, s)
        | Some p =>
            (ph <- get p;;
             match ctx ph with
             | None => ret Background
             | Some x => ret x
             end) s
        end
    end.

(** [tRunner]. *)
Definition tRunner (t : nat) (fn : nat -> M unit) : M unit :=
  x <- parentContext t;;
  modify t (set_ctx (Some (WithCancel t x)));;;
  defer_call
    (defer_recover
       (n <- now;;
        modify t (set_start n);;;
        fn t;;;
        modify t (set_finished true))
       (tRunner_deferred t))
    (emit (EvCancel t)).

(** [for ; root.parent != nil; root = root.parent {}]; [n] bounds the
    number of iterations. *)
Fixpoint root_loop (n : nat) (root : nat) : M nat :=
  match n with
  | O => diverge
  | S n =>
      h <- get root;;
      match parent h with
      | Some p => root_loop n p
      | None => ret root
      end
  end.

(** The unit that [Run] constructs for a subtest of [t], whose record is
    [p]; [c] is the pointer to the new unit, which its indenter keeps. *)
Definition new_unit (t : nat) (p : H) (testName : string) (c : nat) : H :=
  {| output := ""; w := WIndenter c; tap := None; ctx := None;
     ran := false; failed := false; skipped := false;
     finished := false; done := false; hasSub := false;
     suite := suite p; parent := Some t;
     level := wrap64 (level p + 1); name := testName;
     start := 0; duration := 0; sub := []; isParallel := false |}.

(** [Run].  The body [f] is handed to the new task and is not run by the
    caller. *)
Definition Run (t : nat) (name_ : string) (f : nat -> M unit) : M bool :=
  modify t (set_hasSub true);;;
  p <- get t;;
  us <- heap;;
  let '(testName, ok) := fullName us t name_ in
  if negb ok then ret true
  else
    c <- alloc (new_unit t p testName);;
    (if Verbose (suite p) then
       us <- heap;;
       root <- root_loop (S (length us)) t;;
       rh <- get root;;
       Write (w rh) ("=== RUN   " ++ testName ++ String newline "")
     else ret tt);;;
    emit (EvGo c);;;
    block (EvRecv c);;;
    h <- get c;;
    ret (negb (failed h)).

End Engine.

(** * Vocabulary of the properties *)

(** Units are allocated after their parent: a parent pointer points to an
    older unit. *)
Definition wf (us : list H) : Prop :=
  forall i h p, us !! i = Some h -> parent h = Some p -> (p < i)%nat.

(** The proper ancestors of [c], the nearest first. *)
Fixpoint ancestors_fuel (n : nat) (us : list H) (c : nat) : list nat :=
  match n with
  | O => []
  | S n =>
      match us !! c with
      | Some h =>
          match parent h with
          | Some p => p :: ancestors_fuel n us p
          | None => []
          end
      | None => []
      end
  end.

Definition ancestors (us : list H) (c : nat) : list nat :=
  ancestors_fuel (length us) us c.

(** The units with the failed flag of every unit of [l] set. *)
Definition fail_all (l : list nat) (us : list H) : list H :=
  foldr (fun a us => alter (set_failed true) a us) us l.

(** The flags of the unit behind a pointer. *)
Definition failed_at (us : list H) (c : nat) : bool :=
  match us !! c with Some h => failed h | None => false end.

Definition done_at (us : list H) (c : nat) : bool :=
  match us !! c with Some h => done h | None => false end.

(** The value of the panic of [Fail] on the done unit [h]. *)
Definition Fail_message (h : H) : string :=
  "Fail in goroutine after " ++ name h ++ " has completed".

(** A unit that is done has finished. *)
Definition Inv (us : list H) : Prop :=
  forall i h, us !! i = Some h -> done h = true -> finished h = true.

(** From [us] to [us']: no unit disappears, and no [failed] or [finished]
    flag goes back from true to false. *)
Definition evolves (us us' : list H) : Prop :=
  forall i h, us !! i = Some h ->
    exists h', us' !! i = Some h' /\
      (failed h = true -> failed h' = true) /\
      (finished h = true -> finished h' = true).

Definition finished_at (us : list H) (c : nat) : bool :=
  match us !! c with Some h => finished h | None => false end.

(** A computation respects the discipline when it keeps the invariant and
    lets the units evolve, from any state that satisfies the invariant. *)
Definition respects {A} (m : M A) : Prop :=
  forall us0 s, Inv (units s) -> evolves us0 (units s) ->
    Inv (units (m s).2) /\ evolves us0 (units (m s).2).

(** The same for a computation that runs while unit [t] has finished. *)
Definition respects_finished (t : nat) {A} (m : M A) : Prop :=
  forall us0 s, Inv (units s) -> evolves us0 (units s) ->
    finished_at (units s) t = true ->
    Inv (units (m s).2) /\ evolves us0 (units (m s).2) /\
    finished_at (units (m s).2) t = true.

(** A field update that the discipline allows without a condition. *)
Definition mild (f : H -> H) : Prop :=
  forall h, (failed h = true -> failed (f h) = true) /\
            (finished h = true -> finished (f h) = true) /\
            (done (f h) = true -> done h = true).

(** [b] with four spaces in front of every line; [at_start] tells whether
    the first byte of [b] starts a line. *)
Fixpoint indent_lines (at_start : bool) (b : string) : string :=
  match b with
  | EmptyString => EmptyString
  | String x r =>
      (if at_start then "    " else "") ++
      String x (indent_lines (Ascii.eqb x newline) r)
  end.

Definition indent_text (b : string) : string := indent_lines true b.

(** The first line of [b], with its newline, and what follows it. *)
Fixpoint first_line (b : string) : string :=
  match b with
  | EmptyString => EmptyString
  | String x r =>
      String x (if Ascii.eqb x newline then EmptyString else first_line r)
  end.

Fixpoint rest_lines (b : string) : string :=
  match b with
  | EmptyString => EmptyString
  | String x r => if Ascii.eqb x newline then r else rest_lines r
  end.

Definition line_end (b : string) : nat :=
  match IndexByte b newline with
  | None => String.length b
  | Some i => S i
  end.

(** The state after [b] has been written to [wr]. *)
Definition deliver (wr : writer) (b : string) (s : state) : state :=
  match wr with
  | WIndenter c =>
      with_units s
        (alter (fun h => set_output (output h ++ indent_text b) h) c
           (units s))
  | WExternal k =>
      {| units := units s; trace := trace s ++ [EvWrite k b];
         ticks := ticks s |}
  end.

(** A writer of unit [p] is external or the indenter of [p] itself. *)
Definition own_writer (p : nat) (wr : writer) : Prop :=
  match wr with WIndenter q => q = p | WExternal _ => True end.

(** The state after [io.Copy] has written the buffer [b] to [wr]. *)
Definition deliver_nonempty (wr : writer) (b : string) (s : state) : state :=
  if is_empty b then s else deliver wr b s.

(** The state after the buffer of [c] has been reset. *)
Definition clear_output (c : nat) (s : state) : state :=
  with_units s (alter (set_output "") c (units s)).

(** The TAP line of a unit, after the words of the specification. *)
Definition tap_line (h : H) : string :=
  let nm := Replace_all_by_empty (name h) "#"%char in
  if failed h then "not ok - " ++ nm ++ String newline ""
  else if skipped h then "ok - " ++ nm ++ " # SKIP" ++ String newline ""
  else "ok - " ++ nm ++ String newline "".

(** The state after unit [c] has flushed to its parent: the header, the TAP
    line when the parent has a TAP writer, the buffer of [c] when it is not
    empty, and the buffer is drained. *)
Definition flushed (c : nat) (hc ph : H) (header : string) (s : state)
  : state :=
  let s1 := deliver (w ph) header s in
  let s2 :=
    match tap ph with
    | Some tw => deliver tw (tap_line hc) s1
    | None => s1
    end in
  clear_output c (deliver_nonempty (w ph) (output hc) s2).

(** The byte strings written to the external writer [k], in order. *)
Fixpoint written (k : nat) (tr : list event) : list string :=
  match tr with
  | [] => []
  | EvWrite k' b :: tr =>
      if decide (k' = k) then b :: written k tr else written k tr
  | _ :: tr => written k tr
  end.

(** The status line of a unit. *)
Definition status_line (status : string) (h : H) : string :=
  "--- " ++ status ++ ": " ++ name h ++ " (" ++ fmtDuration (duration h) ++
  ")" ++ String newline "".

(** The number that a string of decimal digits denotes. *)
Definition numeral_value (ds : string) : option Z :=
  (fun u => Z.of_N (N.of_uint u)) <$> NilEmpty.uint_of_string ds.

(** The bytes "0" to "9". *)
Definition is_digit (c : ascii) : bool :=
  (48 <=? nat_of_ascii c)%nat && (nat_of_ascii c <=? 57)%nat.

Fixpoint all_digits (b : string) : bool :=
  match b with
  | EmptyString => true
  | String c r => is_digit c && all_digits r
  end.

(** A computation that panics only by a nil dereference. *)
Definition only_nil {A} (m : M A) : Prop :=
  forall s v, (m s).1 = Panic v -> v = nil_dereference.

(** The gate, barrier and signal operations of lines 386 to 404. *)
Definition parallel_protocol (t : nat) (h : H) : list event :=
  match sub h with
  | [] => if isParallel h then [EvRelease] else []
  | _ :: _ =>
      [EvRelease; EvClose t] ++ map EvRecv (sub h) ++
      (if isParallel h then [] else [EvWaitParallel])
  end.

(** The root above [t]: the last of its ancestors, or [t] itself. *)
Definition root_of (us : list H) (t : nat) : nat :=
  List.last (ancestors us t) t.

Section Environment.

Variable env : event -> list H -> list H.
Variable clock : nat -> Z.
Variable fullName : list H -> nat -> string -> string * bool.

(** What the engine relies on from the other tasks: they follow the same
    discipline. *)
Definition rely : Prop :=
  forall e us, Inv us -> Inv (env e us) /\ evolves us (env e us).

(** The units after the signals of [subs] have been received in turn. *)
Definition after_signals (subs : list nat) (us : list H) : list H :=
  foldl (fun us c => env (EvRecv c) us) us subs.

(** The other tasks leave the [isParallel] flag of [t] alone: it is written
    by the task of [t] only. *)
Definition keeps_isParallel (t : nat) : Prop :=
  forall e us, isParallel <$> env e us !! t = isParallel <$> us !! t.

(** The other tasks neither free unit [c] nor change its parent pointer,
    which is set once, when the unit is constructed. *)
Definition keeps_parent (c : nat) : Prop :=
  forall e us h, us !! c = Some h ->
    exists h', env e us !! c = Some h' /\ parent h' = parent h.

(** The operations of the engine that write to the units. *)
Inductive operation : Type :=
| op_Write (wr : writer) (b : string)
| op_setRan (c : nat)
| op_Fail (c : nat)
| op_FailNow (c : nat)
| op_skip (c : nat)
| op_SkipNow (c : nat)
| op_flushToParent (c : nat) (header : string)
| op_report (t : nat)
| op_Parallel (t : nat)
| op_tRunner (t : nat) (fn : nat -> M unit)
| op_Run (t : nat) (name_ : string) (f : nat -> M unit).

Definition perform (o : operation) : M unit :=
  match o with
  | op_Write wr b => Write wr b
  | op_setRan c => setRan c
  | op_Fail c => Fail c
  | op_FailNow c => FailNow c
  | op_skip c => skip c
  | op_SkipNow c => SkipNow c
  | op_flushToParent c header => flushToParent c header
  | op_report t => report t
  | op_Parallel t => Parallel env clock t
  | op_tRunner t fn => tRunner env clock t fn
  | op_Run t name_ f => Run env fullName t name_ f;;; ret tt
  end.

(** The body that [tRunner] runs is user code: it is made of operations of
    the engine, so it follows the discipline too. *)
Definition body_respects (o : operation) : Prop :=
  match o with
  | op_tRunner t fn => respects (fn t)
  | _ => True
  end.

End Environment.

(** ** Example data *)

Definition quiet : Suite := {| Verbose := false |}.

Definition verbose : Suite := {| Verbose := true |}.

(** A root unit that writes to the external writer 0 and has the external
    writer 1 as TAP writer. *)
Definition demo_root (su : Suite) : H :=
  {| output := ""; w := WExternal 0; tap := Some (WExternal 1);
     ctx := None; ran := false; failed := false; skipped := false;
     finished := false; done := false; hasSub := true; suite := su;
     parent := None; level := 0; name := "tests"; start := 0;
     duration := 0; sub := []; isParallel := false |}.

(** A subtest of the root, with one line in its buffer. *)
Definition demo_child (su : Suite) : H :=
  set_output "        log" (new_unit 0 (demo_root su) "tests/a#1" 1).

Definition demo_state (su : Suite) : state :=
  {| units := [demo_root su; demo_child su]; trace := []; ticks := 0 |}.

(** The same with the subtest registered as a parallel child. *)
Definition demo_state_parallel : state :=
  {| units := [set_sub [1%nat] (demo_root quiet);
               set_isParallel true (demo_child quiet)];
     trace := []; ticks := 0 |}.

(** A test and its subtest that are both done, under a root that is not. *)
Definition demo_state_done : state :=
  {| units := [demo_root quiet;
               set_done true (set_finished true (demo_child quiet));
               set_done true (set_finished true
                 (new_unit 1 (demo_child quiet) "tests/a#1/b" 2))];
     trace := []; ticks := 0 |}.

(** A root that is done while its subtest is not: the subtest was started
    by a task that went on after the root had completed. *)
Definition demo_state_root_done : state :=
  {| units := [set_done true (set_finished true (demo_root quiet));
               demo_child quiet];
     trace := []; ticks := 0 |}.

(** A subtest that was started at 0.4 s and has run for 0.25 s before. *)
Definition demo_state_started : state :=
  {| units := [demo_root quiet;
               set_start 400000000
                 (set_duration 250000000 (demo_child quiet))];
     trace := []; ticks := 0 |}.

(** A subtest that has failed, with a duration of 12.345 s. *)
Definition demo_state_failed : state :=
  {| units := [demo_root quiet;
               set_duration 12345000000
                 (set_failed true (demo_child quiet))];
     trace := []; ticks := 0 |}.

(** Other tasks that fail the unit whose signal is received. *)
Definition demo_env (e : event) (us : list H) : list H :=
  match e with
  | EvRecv c => alter (set_failed true) c us
  | _ => us
  end.

Definition demo_clock (n : nat) : Z := 1500000000 * Z.of_nat (S n).

(** A selection that rejects the name "no". *)
Definition demo_fullName (us : list H) (t : nat) (nm : string)
  : string * bool :=
  (match us !! t with Some h => name h ++ "/" ++ nm | None => nm end,
   negb (String.eqb nm "no")).

(** ** Vocabulary of the further properties *)

(** The units with the ran flag of every unit of [l] set. *)
Definition ran_all (l : list nat) (us : list H) : list H :=
  foldr (fun a us => alter (set_ran true) a us) us l.

Definition ran_at (us : list H) (c : nat) : bool :=
  match us !! c with Some h => ran h | None => false end.

(** The chain of [c] from the root down to [c]. *)
Definition chain_from_root (us : list H) (c : nat) : list nat :=
  rev (c :: ancestors us c).

(** The units of [l] before the first one that is done, and that one. *)
Fixpoint until_done (us : list H) (l : list nat) : list nat * option nat :=
  match l with
  | [] => ([], None)
  | a :: l =>
      if done_at us a then ([], Some a)
      else let '(before, d) := until_done us l in (a :: before, d)
  end.

(** The number of lines that start in [b]; [at_start] tells whether the
    first byte of [b] starts a line. *)
Fixpoint count_lines (at_start : bool) (b : string) : nat :=
  match b with
  | EmptyString => O
  | String x r =>
      ((if at_start then 1 else 0) + count_lines (Ascii.eqb x newline) r)%nat
  end.

(** The inverse of the indentation: [skip] bytes are dropped, and four more
    after every newline. *)
Fixpoint unindent (skip : nat) (b : string) : string :=
  match b with
  | EmptyString => EmptyString
  | String x r =>
      match skip with
      | S k => unindent k r
      | O => String x (unindent (if Ascii.eqb x newline then 4 else 0) r)
      end
  end.

(** The events that the deferred function of [tRunner] gives rise to before
    it sends on the signal: the writes of the reports, and the operations on
    the gate, on the barrier and on the signals of the subtests. *)
Definition finalization_event (e : event) : bool :=
  match e with
  | EvWrite _ _ | EvRecv _ | EvClose _ | EvRelease | EvWaitParallel => true
  | EvGo _ | EvSend _ | EvRecvBarrier _ | EvCancel _ => false
  end.

(** The call returned to its caller. *)
Definition returned {A} (o : outcome A) : bool :=
  match o with Ret _ => true | _ => false end.

(** The call returned, or the task left through [runtime.Goexit]. *)
Definition completed {A} (o : outcome A) : bool :=
  match o with Ret _ | Goexit => true | _ => false end.

(** A computation is plain when it does not end the task, does not read the
    clock, and adds only such events to the trace. *)
Definition plain {A} (m : M A) : Prop :=
  forall s,
    (m s).1 <> Goexit /\ ticks (m s).2 = ticks s /\
    exists tr, trace (m s).2 = (trace s ++ tr)%list /\
               forallb finalization_event tr = true.

(** The same for a computation that, when it returns, has sent on the
    signal of [t] as its last effect, and has not sent before. *)
Definition sends_last (t : nat) {A} (m : M A) : Prop :=
  forall s,
    (m s).1 <> Goexit /\ ticks (m s).2 = ticks s /\
    exists tr,
      trace (m s).2 =
        (trace s ++ tr ++
         if returned (m s).1 then [EvSend t] else [])%list /\
      forallb finalization_event tr = true.

(** What [parentContext] returns for the unit [h]. *)
Definition context_of_parent (us : list H) (h : H) : context :=
  match parent h with
  | Some p =>
      match us !! p with
      | Some ph => default Background (ctx ph)
      | None => Background
      end
  | None => Background
  end.

(** What stays of a unit [h] in a later version [h']: the place in the
    hierarchy, the name, the suite, the level and the writers are the same,
    the flags [ran], [skipped], [done], [hasSub] and [isParallel] are not
    cleared, and the list of parallel subtests is extended at its end. *)
Definition grows (h h' : H) : Prop :=
  parent h' = parent h /\ name h' = name h /\ suite h' = suite h /\
  level h' = level h /\ w h' = w h /\ tap h' = tap h /\
  (ran h = true -> ran h' = true) /\
  (skipped h = true -> skipped h' = true) /\
  (done h = true -> done h' = true) /\
  (hasSub h = true -> hasSub h' = true) /\
  (isParallel h = true -> isParallel h' = true) /\
  exists l, sub h' = (sub h ++ l)%list.

(** From [us] to [us']: every unit is still there and has grown, and the
    parent pointers still point to older units. *)
Definition shape_le (us us' : list H) : Prop :=
  (wf us -> wf us') /\
  forall i h, us !! i = Some h -> exists h', us' !! i = Some h' /\ grows h h'.

Definition keeps_shape {A} (m : M A) : Prop :=
  forall s, shape_le (units s) (units (m s).2).

(** The other tasks keep the shape of the hierarchy. *)
Definition shape_rely (env : event -> list H -> list H) : Prop :=
  forall e us, shape_le us (env e us).

(** The body that [tRunner] calls keeps it too. *)
Definition body_keeps_shape (o : operation) : Prop :=
  match o with
  | op_tRunner t fn => keeps_shape (fn t)
  | _ => True
  end.

(** * Properties *)

(** ** The parent chain *)

Lemma ancestors_fuel_lt us n c a :
  wf us -> a ∈ ancestors_fuel n us c -> (a < c)%nat.
Proof.
  intros Hwf. revert c. induction n as [|n IH]; intros c; simpl.
  - intros Hin. inversion Hin.
  - destruct (us !! c) as [h|] eqn:Hc; [|intros Hin; inversion Hin].
    destruct (parent h) as [p|] eqn:Hp; [|intros Hin; inversion Hin].
    pose proof (Hwf c h p Hc Hp) as Hlt.
    intros Hin. apply elem_of_cons in Hin as [->|Hin]; [done|].
    apply IH in Hin. lia.
Qed.

Lemma ancestors_fuel_irrel us n m c :
  wf us -> (c <= n)%nat -> (c <= m)%nat ->
  ancestors_fuel n us c = ancestors_fuel m us c.
Proof.
  intros Hwf. revert m c. induction n as [|n IH]; intros m c Hn Hm.
  - assert (c = 0%nat) as -> by lia. destruct m as [|m]; simpl; [done|].
    destruct (us !! 0%nat) as [h|] eqn:Hc; [|done].
    destruct (parent h) as [p|] eqn:Hp; [|done].
    pose proof (Hwf _ _ _ Hc Hp). lia.
  - destruct m as [|m]; simpl.
    + assert (c = 0%nat) as -> by lia.
      destruct (us !! 0%nat) as [h|] eqn:Hc; [|done].
      destruct (parent h) as [p|] eqn:Hp; [|done].
      pose proof (Hwf _ _ _ Hc Hp). lia.
    + destruct (us !! c) as [h|] eqn:Hc; [|done].
      destruct (parent h) as [p|] eqn:Hp; [|done].
      pose proof (Hwf _ _ _ Hc Hp). f_equal. apply IH; lia.
Qed.

Lemma ancestors_unfold us c h :
  wf us -> us !! c = Some h ->
  ancestors us c =
    match parent h with Some p => p :: ancestors us p | None => [] end.
Proof.
  intros Hwf Hc. unfold ancestors.
  pose proof (lookup_lt_Some _ _ _ Hc) as Hlt.
  destruct (length us) as [|n] eqn:Hlen; [lia|].
  destruct (parent h) as [p|] eqn:Hp.
  - pose proof (Hwf _ _ _ Hc Hp).
    rewrite (ancestors_fuel_irrel us (S n) n p) by (done || lia).
    simpl. by rewrite Hc, Hp.
  - simpl. by rewrite Hc, Hp.
Qed.

Lemma ancestors_lt us c a : wf us -> a ∈ ancestors us c -> (a < c)%nat.
Proof. apply ancestors_fuel_lt. Qed.

(** ** Running the primitives *)

Lemma get_Some c s h : units s !! c = Some h -> get c s = (Ret h, s).
Proof. intros Hc. unfold get. by rewrite Hc. Qed.

Lemma modify_Some c f s h :
  units s !! c = Some h ->
  modify c f s = (Ret tt, with_units s (alter f c (units s))).
Proof. intros Hc. unfold modify. by rewrite Hc. Qed.

Lemma bind_Ret {A B} (m : M A) (k : A -> M B) s a s1 r :
  m s = (Ret a, s1) -> k a s1 = r -> bind m k s = r.
Proof. intros Hm Hk. unfold bind. by rewrite Hm. Qed.

Lemma Failed_Some c s h : units s !! c = Some h -> Failed c s = (Ret (failed h), s).
Proof. intros Hc. unfold Failed, bind, ret. by rewrite (get_Some _ _ _ Hc). Qed.

Lemma Skipped_Some c s h : units s !! c = Some h -> Skipped c s = (Ret (skipped h), s).
Proof. intros Hc. unfold Skipped, bind, ret. by rewrite (get_Some _ _ _ Hc). Qed.

Lemma alter_insert (f : H -> H) c (us : list H) h :
  us !! c = Some h -> alter f c us = <[c := f h]> us.
Proof.
  intros Hc. rewrite list_insert_alter. apply list_alter_ext; [|done].
  intros x Hx. congruence.
Qed.

(** One step of symbolic execution: the first computation of a bind
    returns, by [tac]; the state is then put in normal form. *)
Tactic Notation "mstep" tactic3(tac) :=
  eapply bind_Ret; [tac|]; cbn [units trace ticks with_units].

Lemma with_units_with_units s us us' :
  with_units (with_units s us) us' = with_units s us'.
Proof. done. Qed.

Lemma units_with_units s us : units (with_units s us) = us.
Proof. done. Qed.

Lemma with_units_id s : with_units s (units s) = s.
Proof. by destruct s. Qed.

Lemma set_failed_twice h : set_failed true (set_failed true h) = set_failed true h.
Proof. done. Qed.

Lemma fail_all_length l us : length (fail_all l us) = length us.
Proof.
  induction l as [|a l IH]; simpl; [done|]. by rewrite length_alter.
Qed.

Lemma fail_all_lookup_notin l us c :
  c ∉ l -> fail_all l us !! c = us !! c.
Proof.
  induction l as [|a l IH]; simpl; intros Hnin; [done|].
  apply not_elem_of_cons in Hnin as [Hne Hnin].
  rewrite list_lookup_alter_ne by done. by apply IH.
Qed.

Lemma fail_all_lookup_in l us c :
  c ∈ l -> fail_all l us !! c = set_failed true <$> us !! c.
Proof.
  induction l as [|a l IH]; simpl; intros Hin; [inversion Hin|].
  destruct (decide (a = c)) as [->|Hne].
  - rewrite list_lookup_alter_eq.
    destruct (decide (c ∈ l)) as [Hc|Hc].
    + rewrite IH by done. by destruct (us !! c).
    + by rewrite fail_all_lookup_notin.
  - rewrite list_lookup_alter_ne by done.
    apply elem_of_cons in Hin as [->|Hin]; [done|]. by apply IH.
Qed.

(** ** [Fail] *)

(** [Fail] in closed form, when no proper ancestor is done: the ancestors
    are marked from the root downwards, and the unit itself is marked
    unless it is done, in which case the call panics. *)
Lemma Fail_fuel_spec n c s h :
  wf (units s) -> units s !! c = Some h -> (c < n)%nat ->
  (forall a, a ∈ ancestors (units s) c -> done_at (units s) a = false) ->
  Fail_fuel n c s =
    if done h
    then (Panic (Fail_message h),
          with_units s (fail_all (ancestors (units s) c) (units s)))
    else (Ret tt,
          with_units s (fail_all (c :: ancestors (units s) c) (units s))).
Proof.
  revert c s h. induction n as [|n IH]; intros c s h Hwf Hc Hn Hanc; [lia|].
  rewrite (ancestors_unfold _ _ _ Hwf Hc) in *.
  simpl. unfold bind at 1. rewrite (get_Some _ _ _ Hc).
  destruct (parent h) as [p|] eqn:Hp.
  - pose proof (Hwf _ _ _ Hc Hp) as Hlt.
    destruct (lookup_lt_is_Some_2 (units s) p) as [hp Hhp].
    { apply lookup_lt_Some in Hc. lia. }
    assert (done hp = false) as Hdone.
    { specialize (Hanc p ltac:(left)). unfold done_at in Hanc.
      by rewrite Hhp in Hanc. }
    unfold bind at 1. rewrite (IH p s hp) by
      (try done; try lia; intros a Ha; apply Hanc; by right).
    rewrite Hdone.
    assert (fail_all (p :: ancestors (units s) p) (units s) !! c = Some h)
      as Hc'.
    { rewrite fail_all_lookup_notin; [done|].
      intros Hin. apply elem_of_cons in Hin as [->|Hin]; [lia|].
      apply ancestors_lt in Hin; [lia|done]. }
    unfold bind. rewrite (get_Some c _ h) by done.
    destruct (done h); [done|].
    by rewrite (modify_Some c _ _ h).
  - unfold bind, ret. rewrite (get_Some _ _ _ Hc).
    destruct (done h); simpl.
    + by rewrite with_units_id.
    + by rewrite (modify_Some c _ _ h).
Qed.

(** ** The state invariant and what every operation guarantees *)

Lemma evolves_refl us : evolves us us.
Proof. intros i h Hi. by exists h. Qed.

Lemma evolves_trans us1 us2 us3 :
  evolves us1 us2 -> evolves us2 us3 -> evolves us1 us3.
Proof.
  intros H12 H23 i h1 Hi. destruct (H12 _ _ Hi) as (h2 & Hi2 & Hf & Hg).
  destruct (H23 _ _ Hi2) as (h3 & Hi3 & Hf' & Hg').
  exists h3. split_and!; auto.
Qed.

Lemma evolves_finished_at us us' t :
  evolves us us' -> finished_at us t = true -> finished_at us' t = true.
Proof.
  unfold finished_at. intros Hev. destruct (us !! t) as [h|] eqn:Ht; [|done].
  destruct (Hev _ _ Ht) as (h' & -> & _ & Hg). done.
Qed.

Lemma respects_unchanged {A} (m : M A) :
  (forall s, units (m s).2 = units s) -> respects m.
Proof. intros Hm us0 s HI Hev. by rewrite Hm. Qed.

Lemma respects_ret {A} (a : A) : respects (ret a).
Proof. by apply respects_unchanged. Qed.

Lemma respects_panic {A} v : respects (@panic A v).
Proof. by apply respects_unchanged. Qed.

Lemma respects_goexit {A} : respects (@goexit A).
Proof. by apply respects_unchanged. Qed.

Lemma respects_diverge {A} : respects (@diverge A).
Proof. by apply respects_unchanged. Qed.

Lemma respects_get c : respects (get c).
Proof.
  apply respects_unchanged. intros s. unfold get.
  by destruct (units s !! c).
Qed.

Lemma respects_heap : respects heap.
Proof. by apply respects_unchanged. Qed.

Lemma respects_emit e : respects (emit e).
Proof. by apply respects_unchanged. Qed.

Lemma respects_bind {A B} (m : M A) (k : A -> M B) :
  respects m -> (forall a, respects (k a)) -> respects (bind m k).
Proof.
  intros Hm Hk us0 s HI Hev. unfold bind.
  specialize (Hm us0 s HI Hev). destruct (m s) as [[a|v| |] s1]; simpl in *;
    try done.
  destruct Hm as [HI1 Hev1]. by apply Hk.
Qed.

(** After [h <- get c], the rest runs in a state where [c] is [h]. *)
Lemma respects_get_bind {B} c (k : H -> M B) :
  (forall h us0 s, Inv (units s) -> evolves us0 (units s) ->
     units s !! c = Some h ->
     Inv (units (k h s).2) /\ evolves us0 (units (k h s).2)) ->
  respects (bind (get c) k).
Proof.
  intros Hk us0 s HI Hev. unfold bind, get.
  destruct (units s !! c) as [h|] eqn:Hc; [|done]. by apply Hk.
Qed.

Lemma alter_mild_Inv f c us : mild f -> Inv us -> Inv (alter f c us).
Proof.
  intros Hf HI i h Hi Hd. destruct (decide (c = i)) as [->|Hne].
  - rewrite list_lookup_alter_eq in Hi.
    destruct (us !! i) as [h0|] eqn:Hi0; [|done]. simplify_eq/=.
    destruct (Hf h0) as (_ & Hg & Hdn). apply Hg, (HI i); auto.
  - rewrite list_lookup_alter_ne in Hi by done. by apply (HI i).
Qed.

Lemma alter_mild_evolves f c us : mild f -> evolves us (alter f c us).
Proof.
  intros Hf i h Hi. destruct (decide (c = i)) as [->|Hne].
  - exists (f h). rewrite list_lookup_alter_eq, Hi.
    destruct (Hf h) as (Hfl & Hg & _). done.
  - exists h. by rewrite list_lookup_alter_ne.
Qed.

Lemma respects_modify c f : mild f -> respects (modify c f).
Proof.
  intros Hf us0 s HI Hev. unfold modify.
  destruct (units s !! c) as [h|] eqn:Hc; simpl; [|done]. split.
  - by apply alter_mild_Inv.
  - eapply evolves_trans; [done|]. by apply alter_mild_evolves.
Qed.

Lemma respects_alloc mk :
  (forall c, done (mk c) = false) -> respects (alloc mk).
Proof.
  intros Hmk us0 s HI Hev. simpl. split.
  - intros i h Hi Hd. apply lookup_app_Some in Hi as [Hi|[_ Hi]].
    + by apply (HI i).
    + apply list_lookup_singleton_Some in Hi as [_ <-].
      by rewrite Hmk in Hd.
  - eapply evolves_trans; [done|]. intros i h Hi. exists h.
    by rewrite (lookup_app_l_Some _ _ _ _ Hi).
Qed.

Lemma respects_to_finished t {A} (m : M A) :
  respects m -> respects_finished t m.
Proof.
  intros Hm us0 s HI Hev Hfin.
  destruct (Hm us0 s HI Hev) as [HI' Hev']. split_and!; [done..|].
  destruct (Hm (units s) s HI (evolves_refl _)) as [_ Hstep].
  by eapply evolves_finished_at.
Qed.

Lemma respects_finished_bind t {A B} (m : M A) (k : A -> M B) :
  respects_finished t m -> (forall a, respects_finished t (k a)) ->
  respects_finished t (bind m k).
Proof.
  intros Hm Hk us0 s HI Hev Hfin. unfold bind.
  specialize (Hm us0 s HI Hev Hfin).
  destruct (m s) as [[a|v| |] s1]; simpl in *; try done.
  destruct Hm as (HI1 & Hev1 & Hfin1). by apply Hk.
Qed.

(** [t.done = true] is allowed once [t] has finished. *)
Lemma respects_finished_set_done t :
  respects_finished t (modify t (set_done true)).
Proof.
  intros us0 s HI Hev Hfin. unfold modify, finished_at in *.
  destruct (units s !! t) as [h|] eqn:Ht; simpl; [|done]. split_and!.
  - intros i h' Hi Hd. destruct (decide (t = i)) as [->|Hne].
    + rewrite list_lookup_alter_eq, Ht in Hi. by simplify_eq/=.
    + rewrite list_lookup_alter_ne in Hi by done. by apply (HI i).
  - eapply evolves_trans; [done|]. intros i h' Hi.
    destruct (decide (t = i)) as [->|Hne].
    + exists (set_done true h'). by rewrite list_lookup_alter_eq, Hi.
    + exists h'. by rewrite list_lookup_alter_ne.
  - by rewrite list_lookup_alter_eq, Ht.
Qed.

Lemma mild_set_output x : mild (set_output x).
Proof. done. Qed.
Lemma mild_append_output b : mild (fun h => set_output (output h ++ b) h).
Proof. done. Qed.
Lemma mild_set_ctx x : mild (set_ctx x).
Proof. done. Qed.
Lemma mild_set_ran x : mild (set_ran x).
Proof. done. Qed.
Lemma mild_set_failed_true : mild (set_failed true).
Proof. done. Qed.
Lemma mild_set_skipped x : mild (set_skipped x).
Proof. done. Qed.
Lemma mild_set_finished_true : mild (set_finished true).
Proof. done. Qed.
Lemma mild_set_hasSub x : mild (set_hasSub x).
Proof. done. Qed.
Lemma mild_set_start x : mild (set_start x).
Proof. done. Qed.
Lemma mild_add_duration d :
  mild (fun h => set_duration (wrap64 (duration h + d)) h).
Proof. done. Qed.
Lemma mild_append_sub t : mild (fun ph => set_sub (sub ph ++ [t]) ph).
Proof. done. Qed.
Lemma mild_set_isParallel x : mild (set_isParallel x).
Proof. done. Qed.

Create HintDb respects discriminated.
#[local] Hint Resolve respects_ret respects_panic respects_goexit
  respects_diverge respects_get respects_heap respects_emit
  mild_set_output mild_append_output mild_set_ctx mild_set_ran
  mild_set_failed_true mild_set_skipped mild_set_finished_true
  mild_set_hasSub mild_set_start mild_add_duration mild_append_sub
  mild_set_isParallel : respects.

(** Decomposition of a computation along its binds and its tests. *)
Ltac respects_step :=
  match goal with
  | |- respects (bind _ _) => apply respects_bind
  | |- respects (modify _ _) => apply respects_modify
  | |- respects (match ?x with _ => _ end) => destruct x
  | |- respects (let '(_, _) := ?x in _) => destruct x
  | |- forall _, _ => intro
  | |- _ => solve [auto with respects]
  end.
Ltac respects_tac := repeat respects_step.

Lemma respects_append_output c b : respects (append_output c b).
Proof. unfold append_output. respects_tac. Qed.
#[local] Hint Resolve respects_append_output : respects.

Lemma respects_indenter_loop n c b : respects (indenter_loop n c b).
Proof.
  revert b. induction n as [|n IH]; intros b; simpl; respects_tac.
Qed.

Lemma respects_Write wr b : respects (Write wr b).
Proof.
  destruct wr; simpl; [apply respects_indenter_loop|apply respects_emit].
Qed.
#[local] Hint Resolve respects_Write : respects.

Lemma respects_Failed c : respects (Failed c).
Proof. unfold Failed. respects_tac. Qed.

Lemma respects_Skipped c : respects (Skipped c).
Proof. unfold Skipped. respects_tac. Qed.
#[local] Hint Resolve respects_Failed respects_Skipped : respects.

Lemma respects_setRan_fuel n c : respects (setRan_fuel n c).
Proof.
  revert c. induction n as [|n IH]; intros c; simpl; respects_tac.
Qed.

Lemma respects_setRan c : respects (setRan c).
Proof. intros us0 s. apply respects_setRan_fuel. Qed.

Lemma respects_Fail_fuel n c : respects (Fail_fuel n c).
Proof.
  revert c. induction n as [|n IH]; intros c; simpl; respects_tac.
Qed.

Lemma respects_Fail c : respects (Fail c).
Proof. intros us0 s. apply respects_Fail_fuel. Qed.
#[local] Hint Resolve respects_setRan respects_Fail : respects.

Lemma respects_FailNow c : respects (FailNow c).
Proof. unfold FailNow. respects_tac. Qed.

Lemma respects_skip c : respects (skip c).
Proof. unfold skip. respects_tac. Qed.
#[local] Hint Resolve respects_skip : respects.

Lemma respects_SkipNow c : respects (SkipNow c).
Proof. unfold SkipNow. respects_tac. Qed.

Lemma respects_Copy wr c : respects (Copy wr c).
Proof. unfold Copy. respects_tac. Qed.
#[local] Hint Resolve respects_Copy : respects.

Lemma respects_flushToParent c header : respects (flushToParent c header).
Proof. unfold flushToParent. respects_tac. Qed.
#[local] Hint Resolve respects_flushToParent : respects.

Lemma respects_report t : respects (report t).
Proof. unfold report. respects_tac. Qed.
#[local] Hint Resolve respects_report : respects.

Section Discipline.

Variable env : event -> list H -> list H.
Variable clock : nat -> Z.
Variable fullName : list H -> nat -> string -> string * bool.

Hypothesis env_rely : rely env.

Lemma respects_block e : respects (block env e).
Proof.
  intros us0 s HI Hev. simpl. destruct (env_rely e _ HI) as [HI' Hev'].
  split; [done|]. by eapply evolves_trans.
Qed.

Lemma respects_now : respects (now clock).
Proof. by apply respects_unchanged. Qed.

Lemma respects_add_duration t d : respects (add_duration t d).
Proof. unfold add_duration. respects_tac. Qed.

#[local] Hint Resolve respects_block respects_now respects_add_duration
  : respects.

Lemma respects_Parallel t : respects (Parallel env clock t).
Proof. unfold Parallel. respects_tac. Qed.

Lemma respects_wait_all subs : respects (wait_all env subs).
Proof. induction subs as [|c subs IH]; simpl; respects_tac. Qed.

#[local] Hint Resolve respects_wait_all : respects.

Lemma respects_run_parallel_subtests t :
  respects (run_parallel_subtests env t).
Proof. unfold run_parallel_subtests. respects_tac. Qed.

#[local] Hint Resolve respects_run_parallel_subtests : respects.

Lemma respects_tRunner_deferred t r :
  respects (tRunner_deferred env clock t r).
Proof.
  unfold tRunner_deferred.
  do 3 (apply respects_bind; [auto with respects|intro]).
  apply respects_get_bind. intros h us0 s HI Hev Ht.
  destruct (finished h) eqn:Hfin; simpl negb; simpl andb.
  - destruct r as [e|].
    + clear Ht. revert us0 s HI Hev.
      change (respects (Fail t;;; report t;;; panic (A:=unit) e)).
      respects_tac.
    + assert (finished_at (units s) t = true) as Hfa.
      { unfold finished_at. by rewrite Ht. }
      cut (respects_finished t
             (run_parallel_subtests env t;;;
              report t;;;
              modify t (set_done true);;;
              h <- get t;;
              (if bool_decide (parent h <> None) && negb (hasSub h)
               then setRan t else ret tt);;;
              block env (EvSend t))).
      { intros Hrest. destruct (Hrest us0 s HI Hev Hfa) as (? & ? & _).
        done. }
      do 2 (apply respects_finished_bind;
            [apply respects_to_finished; auto with respects|intro]).
      apply respects_finished_bind;
        [apply respects_finished_set_done|intro].
      apply respects_to_finished. respects_tac.
  - assert (respects (Fail t;;; report t;;; panic (A:=unit)
              (default protocol_violation r))) as Hfault by respects_tac.
    specialize (Hfault us0 s HI Hev).
    destruct r as [e|]; simpl; apply Hfault.
Qed.

Lemma respects_defer_recover body f :
  respects body -> (forall r, respects (f r)) ->
  respects (defer_recover body f).
Proof.
  intros Hb Hf us0 s HI Hev. unfold defer_recover.
  destruct (Hb us0 s HI Hev) as [HI1 Hev1].
  destruct (body s) as [[[]|v| |] s1]; simpl in *; try done.
  - by apply Hf.
  - by apply Hf.
  - destruct (Hf None us0 s1 HI1 Hev1) as [HI2 Hev2].
    by destruct (f None s1) as [[[]|v| |] s2].
Qed.

Lemma respects_defer_call body f :
  respects body -> respects f -> respects (defer_call body f).
Proof.
  intros Hb Hf us0 s HI Hev. unfold defer_call.
  destruct (Hb us0 s HI Hev) as [HI1 Hev1].
  destruct (body s) as [o s1]; simpl in *.
  destruct (Hf us0 s1 HI1 Hev1) as [HI2 Hev2].
  destruct o as [[]|v| |]; try done;
    by destruct (f s1) as [[[]|v'| |] s2].
Qed.

Lemma respects_parentContext c : respects (parentContext c).
Proof.
  apply respects_unchanged. intros s. unfold parentContext.
  destruct (units s !! c) as [h|]; [|done].
  destruct (parent h) as [p|]; [|done].
  unfold bind, get. destruct (units s !! p) as [ph|]; [|done].
  by destruct (ctx ph).
Qed.

Lemma respects_tRunner t fn :
  respects (fn t) -> respects (tRunner env clock t fn).
Proof.
  intros Hfn. unfold tRunner.
  apply respects_bind; [apply respects_parentContext|intro].
  apply respects_bind; [respects_tac|intro].
  apply respects_defer_call; [|respects_tac].
  apply respects_defer_recover; [respects_tac|].
  apply respects_tRunner_deferred.
Qed.

Lemma respects_root_loop n root : respects (root_loop n root).
Proof.
  revert root. induction n as [|n IH]; intros root; simpl; respects_tac.
Qed.

#[local] Hint Resolve respects_root_loop : respects.

Lemma respects_Run t name_ f : respects (Run env fullName t name_ f).
Proof.
  unfold Run. respects_tac. apply respects_alloc. done.
Qed.

Lemma respects_ignore {A} (m : M A) : respects m -> respects (m;;; ret tt).
Proof. intros Hm. respects_tac. Qed.

End Discipline.

(** ** [Fail]: the unit and its ancestors *)

Lemma fail_all_fields l us i :
  forall h, us !! i = Some h ->
  exists h', fail_all l us !! i = Some h' /\
    parent h' = parent h /\ done h' = done h /\ name h' = name h.
Proof.
  intros h Hi. destruct (decide (i ∈ l)) as [Hin|Hnin].
  - exists (set_failed true h). by rewrite fail_all_lookup_in, Hi.
  - exists h. by rewrite fail_all_lookup_notin.
Qed.

Lemma fail_all_parent l us i :
  parent <$> fail_all l us !! i = parent <$> us !! i.
Proof.
  destruct (us !! i) as [h|] eqn:Hi.
  - destruct (fail_all_fields l us i h Hi) as (h' & -> & Hp & _).
    simpl. by rewrite Hp.
  - apply lookup_ge_None in Hi.
    rewrite (lookup_ge_None_2 (fail_all l us)); [done|].
    by rewrite fail_all_length.
Qed.

Lemma ancestors_fuel_ext n us us' c :
  (forall i, parent <$> us' !! i = parent <$> us !! i) ->
  ancestors_fuel n us' c = ancestors_fuel n us c.
Proof.
  intros Hext. revert c. induction n as [|n IH]; intros c; simpl; [done|].
  specialize (Hext c).
  destruct (us' !! c) as [h'|], (us !! c) as [h|]; simplify_eq/=; [|done].
  rewrite Hext. destruct (parent h); [|done]. by rewrite IH.
Qed.

Lemma wf_ext us us' :
  (forall i, parent <$> us' !! i = parent <$> us !! i) -> wf us -> wf us'.
Proof.
  intros Hext Hwf i h' p Hi Hp. specialize (Hext i). rewrite Hi in Hext.
  destruct (us !! i) as [h|] eqn:Hi0; simplify_eq/=.
  apply (Hwf i h p Hi0). congruence.
Qed.

Lemma fail_all_idem l us : fail_all l (fail_all l us) = fail_all l us.
Proof.
  apply list_eq. intros i. destruct (decide (i ∈ l)) as [Hin|Hnin].
  - rewrite !fail_all_lookup_in by done. by destruct (us !! i).
  - by rewrite !fail_all_lookup_notin.
Qed.

Lemma ancestors_fuel_ext_below n us us' c :
  wf us ->
  (forall i, (i <= c)%nat -> parent <$> us' !! i = parent <$> us !! i) ->
  ancestors_fuel n us' c = ancestors_fuel n us c.
Proof.
  intros Hwf. revert c. induction n as [|n IH]; intros c Hext; simpl;
    [done|].
  pose proof (Hext c ltac:(lia)) as Hc.
  destruct (us' !! c) as [h'|], (us !! c) as [h|] eqn:Hus;
    simplify_eq/=; [|done].
  rewrite Hc. destruct (parent h) as [p|] eqn:Hp; [|done].
  pose proof (Hwf _ _ _ Hus Hp). rewrite IH; [done|].
  intros i Hi. apply Hext. lia.
Qed.

Lemma ancestors_valid us c a :
  wf us -> (c < length us)%nat -> a ∈ ancestors us c -> is_Some (us !! a).
Proof.
  intros Hwf Hc Ha. apply ancestors_lt in Ha; [|done].
  apply lookup_lt_is_Some_2. lia.
Qed.

(** [Fail] never diverges on well-formed units, and it touches neither the
    [done] flags nor the parent pointers. *)
Lemma Fail_fuel_total n c s :
  wf (units s) -> (c < n)%nat ->
  exists o s', Fail_fuel n c s = (o, s') /\
    (o = Ret tt \/ exists v, o = Panic v) /\
    (o = Ret tt -> done_at (units s) c = false) /\
    (forall i h, units s !! i = Some h ->
       exists h', units s' !! i = Some h' /\ done h' = done h /\
                  parent h' = parent h).
Proof.
  revert c s. induction n as [|n IH]; intros c s Hwf Hn; [lia|].
  simpl. unfold bind at 1, get at 1.
  destruct (units s !! c) as [h|] eqn:Hc.
  2:{ eexists _, _. split; [done|]. split_and!; eauto.
      intros [=]. }
  assert (exists o s1,
    (match parent h with Some p => Fail_fuel n p | None => ret tt end) s
      = (o, s1) /\
    (o = Ret tt \/ exists v, o = Panic v) /\
    (forall i h, units s !! i = Some h ->
       exists h', units s1 !! i = Some h' /\ done h' = done h /\
                  parent h' = parent h)) as (o & s1 & Hrun & Ho & Hfr).
  { destruct (parent h) as [p|] eqn:Hp.
    - pose proof (Hwf _ _ _ Hc Hp).
      destruct (IH p s Hwf ltac:(lia)) as (o & s1 & ? & ? & ? & ?).
      by exists o, s1.
    - exists (Ret tt), s. split_and!; eauto. }
  unfold bind at 1. rewrite Hrun.
  destruct Ho as [->|[v ->]].
  2:{ eexists _, _. split; [done|]. split_and!; eauto. intros [=]. }
  destruct (Hfr _ _ Hc) as (h1 & Hc1 & Hd1 & Hp1).
  unfold bind, get. rewrite Hc1. destruct (done h1) eqn:Hdone.
  - eexists _, _. split; [done|]. split_and!; eauto. intros [=].
  - unfold modify. rewrite Hc1. eexists _, _. split; [done|].
    split_and!; eauto.
    + intros _. unfold done_at. rewrite Hc. congruence.
    + intros i hi Hi. destruct (Hfr _ _ Hi) as (hi1 & Hi1 & ? & ?).
      simpl. destruct (decide (c = i)) as [->|Hne].
      * exists (set_failed true hi1).
        by rewrite list_lookup_alter_eq, Hi1.
      * exists hi1. by rewrite list_lookup_alter_ne.
Qed.

Lemma Fail_ok s c h :
  wf (units s) -> units s !! c = Some h -> done h = false ->
  (forall a, a ∈ ancestors (units s) c -> done_at (units s) a = false) ->
  Fail c s =
    (Ret tt, with_units s (fail_all (c :: ancestors (units s) c) (units s))).
Proof.
  intros Hwf Hc Hdone Hanc. pose proof (lookup_lt_Some _ _ _ Hc) as Hlt.
  unfold Fail. rewrite (Fail_fuel_spec _ c s h) by (done || lia).
  by rewrite Hdone.
Qed.

(** C4.  On well-formed units, [Fail c] on a unit that is not done and has
    no done ancestor returns after marking [c] and every ancestor of [c] up
    to the root as failed, it changes no other unit, and a second call
    changes nothing more (idempotence); [Fail c] on a unit whose done flag
    is set panics, which aborts the process. *)
Theorem Fail_marks_unit_and_ancestors s c h :
  wf (units s) -> units s !! c = Some h ->
  (done h = false ->
   (forall a, a ∈ ancestors (units s) c -> done_at (units s) a = false) ->
   let s' :=
     with_units s (fail_all (c :: ancestors (units s) c) (units s)) in
   Fail c s = (Ret tt, s') /\
   (forall a, a ∈ c :: ancestors (units s) c ->
      failed_at (units s') a = true) /\
   (forall i, i ∉ c :: ancestors (units s) c ->
      units s' !! i = units s !! i) /\
   Fail c s' = (Ret tt, s')) /\
  (done h = true -> exists v s', Fail c s = (Panic v, s')).
Proof.
  intros Hwf Hc. pose proof (lookup_lt_Some _ _ _ Hc) as Hlt. split.
  - intros Hdone Hanc s'.
    assert (Fail c s = (Ret tt, s')) as Hrun by by apply (Fail_ok s c h).
    split_and!; [done| | |].
    + intros a Ha. unfold failed_at, s'. rewrite units_with_units.
      rewrite fail_all_lookup_in by done.
      assert (is_Some (units s !! a)) as [ha ->]; [|done].
      apply elem_of_cons in Ha as [->|Ha]; [by eexists|].
      by eapply ancestors_valid.
    + intros i Hi. unfold s'. rewrite units_with_units.
      by rewrite fail_all_lookup_notin.
    + set (L := c :: ancestors (units s) c) in *.
      assert (forall i, parent <$> units s' !! i = parent <$> units s !! i)
        as Hext by (intros i; apply fail_all_parent).
      assert (ancestors (units s') c = ancestors (units s) c) as Hanc'.
      { unfold ancestors, s'. rewrite units_with_units, fail_all_length.
        by apply ancestors_fuel_ext. }
      destruct (fail_all_fields L (units s) c h Hc) as (h' & Hc' & _ & Hd' & _).
      unfold Fail. rewrite (Fail_fuel_spec _ c s' h').
      * rewrite Hd', Hdone, Hanc'. fold L. unfold s'.
        by rewrite units_with_units, with_units_with_units, fail_all_idem.
      * by eapply wf_ext.
      * done.
      * unfold s'. rewrite units_with_units, fail_all_length. lia.
      * rewrite Hanc'. intros a Ha. specialize (Hanc a Ha).
        unfold done_at, s' in *. rewrite units_with_units.
        destruct (units s !! a) as [ha|] eqn:Hha.
        -- destruct (fail_all_fields L (units s) a ha Hha)
             as (ha' & -> & _ & -> & _). done.
        -- apply lookup_ge_None in Hha.
           rewrite (lookup_ge_None_2 (fail_all L (units s))); [done|].
           by rewrite fail_all_length.
  - intros Hdone. unfold Fail.
    destruct (Fail_fuel_total (S (length (units s))) c s Hwf ltac:(lia))
      as (o & s' & Hrun & [->|[v ->]] & Hret & _).
    + specialize (Hret eq_refl). unfold done_at in Hret.
      rewrite Hc in Hret. congruence.
    + by exists v, s'.
Qed.

(** C10.  On well-formed units, when [Fail c] is called on a unit whose
    done flag is set and none of whose proper ancestors is done, the call
    panics with the message naming [c], and at the time of the panic every
    proper ancestor of [c] has been marked failed; [c] itself and the units
    off the chain are unchanged. *)
Theorem Fail_after_done_marks_ancestors s c h :
  wf (units s) -> units s !! c = Some h -> done h = true ->
  (forall a, a ∈ ancestors (units s) c -> done_at (units s) a = false) ->
  let s' := with_units s (fail_all (ancestors (units s) c) (units s)) in
  Fail c s = (Panic (Fail_message h), s') /\
  (forall a, a ∈ ancestors (units s) c -> failed_at (units s') a = true) /\
  (forall i, i ∉ ancestors (units s) c -> units s' !! i = units s !! i).
Proof.
  intros Hwf Hc Hdone Hanc s'.
  pose proof (lookup_lt_Some _ _ _ Hc) as Hlt. split_and!.
  - unfold Fail. rewrite (Fail_fuel_spec _ c s h) by (done || lia).
    by rewrite Hdone.
  - intros a Ha. unfold failed_at, s'. rewrite units_with_units.
    rewrite fail_all_lookup_in by done.
    destruct (ancestors_valid _ _ _ Hwf Hlt Ha) as [ha ->]. done.
  - intros i Hi. unfold s'. rewrite units_with_units.
    by rewrite fail_all_lookup_notin.
Qed.

(** ** The [indenter]: what a [Write] delivers *)

Lemma append_nil_r (a : string) : a ++ "" = a.
Proof. induction a as [|x a IH]; simpl; [done|]. by rewrite IH. Qed.

Lemma append_assoc (a b c : string) : (a ++ b) ++ c = a ++ b ++ c.
Proof. induction a as [|x a IH]; simpl; [done|]. by rewrite IH. Qed.

Lemma substring_0_0 (b : string) : substring 0 0 b = "".
Proof. by destruct b. Qed.

Lemma substring_all (b : string) : substring 0 (String.length b) b = b.
Proof. induction b as [|x b IH]; simpl; [done|]. by rewrite IH. Qed.

Lemma substring_end (b : string) : substring (String.length b) 0 b = "".
Proof. induction b as [|x b IH]; simpl; done. Qed.

Lemma line_end_cons x r :
  line_end (String x r) =
    if Ascii.eqb x newline then 1%nat else S (line_end r).
Proof.
  unfold line_end. simpl. destruct (Ascii.eqb x newline); [done|].
  by destruct (IndexByte r newline).
Qed.

Lemma line_end_le b : (line_end b <= String.length b)%nat.
Proof.
  induction b as [|x r IH]; [done|]. rewrite line_end_cons. simpl.
  destruct (Ascii.eqb x newline); lia.
Qed.

Lemma substring_first_line b : substring 0 (line_end b) b = first_line b.
Proof.
  induction b as [|x r IH]; [done|]. rewrite line_end_cons. simpl.
  destruct (Ascii.eqb x newline); simpl.
  - by rewrite substring_0_0.
  - by rewrite IH.
Qed.

Lemma substring_rest_lines b :
  substring (line_end b) (String.length b - line_end b) b = rest_lines b.
Proof.
  induction b as [|x r IH]; [done|]. rewrite line_end_cons.
  destruct (Ascii.eqb x newline) eqn:Hx.
  - simpl. rewrite Hx. replace (String.length r - 0)%nat with
      (String.length r) by lia. apply substring_all.
  - simpl. rewrite Hx. apply IH.
Qed.

Lemma rest_lines_length b :
  (String.length (rest_lines b) <= pred (String.length b))%nat.
Proof.
  induction b as [|x r IH]; [done|]. simpl.
  destruct (Ascii.eqb x newline); lia.
Qed.

Lemma indent_lines_split b :
  indent_lines false b = first_line b ++ indent_lines true (rest_lines b).
Proof.
  induction b as [|x r IH]; [done|]. simpl.
  destruct (Ascii.eqb x newline); simpl; [done|]. by rewrite IH.
Qed.

Lemma indent_text_unfold x r :
  indent_text (String x r) =
    "    " ++ first_line (String x r) ++ indent_text (rest_lines (String x r)).
Proof.
  unfold indent_text. rewrite <- indent_lines_split. done.
Qed.

(** The loop of [indenter.Write] ends and appends the indented text. *)
Lemma indenter_loop_spec n c b s h :
  (String.length b <= n)%nat -> units s !! c = Some h ->
  indenter_loop n c b s = (Ret tt, deliver (WIndenter c) b s).
Proof.
  revert b s h. induction n as [|n IH]; intros b s h Hn Hc.
  - destruct b; [|simpl in Hn; lia]. simpl. unfold ret.
    rewrite list_alter_id; [by rewrite with_units_id|].
    intros [] . simpl. by rewrite append_nil_r.
  - destruct b as [|x r].
    { simpl. unfold ret. rewrite list_alter_id; [by rewrite with_units_id|].
      intros []. simpl. by rewrite append_nil_r. }
    change (indenter_loop (S n) c (String x r)) with
      (append_output c "    ";;;
       append_output c (substring 0 (line_end (String x r)) (String x r));;;
       indenter_loop n c
         (substring (line_end (String x r))
            (String.length (String x r) - line_end (String x r))
            (String x r))).
    rewrite substring_first_line, substring_rest_lines.
    unfold bind, append_output. rewrite (modify_Some _ _ _ _ Hc).
    set (s1 := with_units s _).
    assert (exists h1, units s1 !! c = Some h1) as [h1 Hc1].
    { unfold s1. rewrite units_with_units, list_lookup_alter_eq, Hc.
      by eexists. }
    rewrite (modify_Some _ _ _ _ Hc1).
    set (s2 := with_units s1 _).
    assert (exists h2, units s2 !! c = Some h2) as [h2 Hc2].
    { unfold s2. rewrite units_with_units, list_lookup_alter_eq, Hc1.
      by eexists. }
    rewrite (IH _ s2 h2); [|pose proof (rest_lines_length (String x r));
                             simpl in *; lia|done].
    f_equal. unfold deliver, s2, s1.
    rewrite !with_units_with_units, !units_with_units.
    rewrite !list_alter_alter_eq. f_equal.
    apply list_alter_ext; [|done]. intros h' _. simpl.
    rewrite indent_text_unfold. destruct h'; unfold set_output; simpl.
    f_equal. by rewrite !append_assoc.
Qed.

Lemma Write_spec wr b s :
  match wr with
  | WIndenter c => is_Some (units s !! c)
  | WExternal _ => True
  end ->
  Write wr b s = (Ret tt, deliver wr b s).
Proof.
  destruct wr as [c|k]; simpl; [|done].
  intros [h Hc]. by apply (indenter_loop_spec _ c b s h).
Qed.

(** ** [flushToParent] and [report] *)

Lemma written_app k tr tr' :
  written k (tr ++ tr') = (written k tr ++ written k tr')%list.
Proof.
  induction tr as [|e tr IH]; simpl; [done|].
  destruct e; try done. case_decide; simpl; by rewrite IH.
Qed.

Lemma ticks_deliver wr b s : ticks (deliver wr b s) = ticks s.
Proof. by destruct wr. Qed.

Lemma deliver_lookup_ne p wr b s c :
  own_writer p wr -> p <> c -> units (deliver wr b s) !! c = units s !! c.
Proof.
  destruct wr as [q|k]; simpl; [|done]. intros -> Hne.
  by rewrite list_lookup_alter_ne.
Qed.

Lemma deliver_is_Some wr b s c :
  is_Some (units s !! c) -> is_Some (units (deliver wr b s) !! c).
Proof.
  destruct wr as [q|k]; simpl; [|done]. intros [h Hc].
  destruct (decide (q = c)) as [->|Hne].
  - rewrite list_lookup_alter_eq, Hc. by eexists.
  - rewrite list_lookup_alter_ne by done. by eexists.
Qed.

Lemma own_writer_valid p wr s :
  own_writer p wr -> is_Some (units s !! p) ->
  match wr with
  | WIndenter c => is_Some (units s !! c)
  | WExternal _ => True
  end.
Proof. destruct wr as [q|k]; simpl; [|done]. by intros ->. Qed.

Lemma Copy_spec p wr c s hc :
  units s !! c = Some hc -> own_writer p wr -> is_Some (units s !! p) ->
  Copy wr c s = (Ret tt, clear_output c (deliver_nonempty wr (output hc) s)).
Proof.
  intros Hc Hw Hp. unfold Copy, bind. rewrite (get_Some _ _ _ Hc).
  unfold deliver_nonempty, clear_output.
  destruct (is_empty (output hc)).
  - unfold ret. by rewrite (modify_Some _ _ _ _ Hc).
  - rewrite Write_spec by (by apply (own_writer_valid p)).
    assert (is_Some (units (deliver wr (output hc) s) !! c))
      as [hc3 Hc3] by (apply deliver_is_Some; by eexists).
    by rewrite (modify_Some _ _ _ _ Hc3).
Qed.

(** [flushToParent] in closed form. *)
Lemma flushToParent_spec c p header s hc ph :
  units s !! c = Some hc -> parent hc = Some p ->
  units s !! p = Some ph -> p <> c ->
  own_writer p (w ph) ->
  (forall tw, tap ph = Some tw -> own_writer p tw) ->
  flushToParent c header s = (Ret tt, flushed c hc ph header s).
Proof.
  intros Hc Hp Hph Hne Hw Htap. unfold flushToParent, flushed.
  unfold bind at 1. rewrite (get_Some _ _ _ Hc), Hp.
  unfold bind at 1. rewrite (get_Some _ _ _ Hph).
  unfold bind at 1. rewrite Write_spec by
    (apply (own_writer_valid p); [done|by eexists]).
  set (s1 := deliver (w ph) header s).
  assert (units s1 !! c = Some hc) as Hc1.
  { unfold s1. by rewrite (deliver_lookup_ne p). }
  assert (is_Some (units s1 !! p)) as Hp1.
  { apply deliver_is_Some. by eexists. }
  destruct (tap ph) as [tw|] eqn:Htw.
  - specialize (Htap tw eq_refl).
    pose proof (own_writer_valid p tw s1 Htap Hp1) as Hv.
    assert (units (deliver tw (tap_line hc) s1) !! c = Some hc) as Hc2.
    { by rewrite (deliver_lookup_ne p). }
    assert (is_Some (units (deliver tw (tap_line hc) s1) !! p)) as Hp2.
    { by apply deliver_is_Some. }
    eapply bind_Ret; [|by apply (Copy_spec p)].
    unfold tap_line, tap_not_ok, tap_ok_skip, tap_ok.
    eapply bind_Ret; [by apply Failed_Some|].
    destruct (failed hc); [by apply Write_spec|].
    eapply bind_Ret; [by apply Skipped_Some|].
    destruct (skipped hc); by apply Write_spec.
  - unfold bind, ret. by apply (Copy_spec p).
Qed.

Lemma Replace_all_by_empty_absent s c :
  IndexByte (Replace_all_by_empty s c) c = None.
Proof.
  induction s as [|x r IH]; simpl; [done|].
  destruct (Ascii.eqb x c) eqn:Hx; [done|]. simpl. by rewrite Hx, IH.
Qed.

(** C7.  When unit [c] flushes to a parent [p] that has a TAP writer [tw],
    the flush returns and delivers, in this order, the header to the
    parent's writer, one TAP line to [tw], and the buffer of [c] to the
    parent's writer.  The TAP line is "not ok - name" if [c] has failed,
    "ok - name # SKIP" if it is skipped and has not failed, and "ok - name"
    otherwise, each followed by a newline, where name is the name of [c]
    without any '#'.  When [tw] is an external writer other than the
    parent's writer, this line is all that the flush writes to it. *)
Theorem flushToParent_one_tap_line c p header s hc ph tw :
  units s !! c = Some hc -> parent hc = Some p ->
  units s !! p = Some ph -> p <> c ->
  own_writer p (w ph) -> tap ph = Some tw -> own_writer p tw ->
  let nm := Replace_all_by_empty (name hc) "#"%char in
  let line :=
    if failed hc then "not ok - " ++ nm ++ String newline ""
    else if skipped hc then "ok - " ++ nm ++ " # SKIP" ++ String newline ""
    else "ok - " ++ nm ++ String newline "" in
  IndexByte nm "#"%char = None /\
  flushToParent c header s =
    (Ret tt,
     clear_output c
       (deliver_nonempty (w ph) (output hc)
          (deliver tw line (deliver (w ph) header s)))) /\
  (forall k, tw = WExternal k -> w ph <> WExternal k ->
     written k (trace (flushToParent c header s).2) =
       (written k (trace s) ++ [line])%list).
Proof.
  intros Hc Hp Hph Hne Hw Htw Hown nm line.
  assert (flushToParent c header s =
    (Ret tt,
     clear_output c
       (deliver_nonempty (w ph) (output hc)
          (deliver tw line (deliver (w ph) header s))))) as Hrun.
  { rewrite (flushToParent_spec c p header s hc ph); try done.
    - unfold flushed. by rewrite Htw.
    - intros tw' Htw'. congruence. }
  split_and!; [apply Replace_all_by_empty_absent|done|].
  intros k -> Hk. rewrite Hrun. simpl.
  assert (forall b s0, written k (trace (deliver (w ph) b s0)) =
                       written k (trace s0)) as Hother.
  { intros b s0. destruct (w ph) as [q|k'] eqn:Hwr; simpl; [done|].
    rewrite written_app. simpl. case_decide; [congruence|].
    by rewrite app_nil_r. }
  unfold deliver_nonempty. destruct (is_empty (output hc)).
  - simpl. rewrite written_app, Hother. simpl. by case_decide.
  - rewrite Hother. simpl. rewrite written_app, Hother. simpl.
    by case_decide.
Qed.

(** [report] by cases. *)
Lemma report_spec t s h :
  units s !! t = Some h ->
  report t s =
    match parent h with
    | None => (Ret tt, s)
    | Some _ =>
        if failed h then flushToParent t (status_line "FAIL" h) s
        else if Verbose (suite h) then
          flushToParent t
            (status_line (if skipped h then "SKIP" else "PASS") h) s
        else (Ret tt, s)
    end.
Proof.
  intros Ht. unfold report. eapply bind_Ret; [by apply get_Some|].
  destruct (parent h) as [p|]; [|done].
  eapply bind_Ret; [by apply Failed_Some|].
  destruct (failed h); [done|].
  destruct (Verbose (suite h)); [|done].
  eapply bind_Ret; [by apply Skipped_Some|].
  by destruct (skipped h).
Qed.

Lemma string_of_uint_digits u : all_digits (string_of_uint u) = true.
Proof. induction u; simpl; auto. Qed.

Lemma string_of_uint_nonempty u : u <> Decimal.Nil -> string_of_uint u <> "".
Proof. by destruct u. Qed.

Lemma decimal_nonempty z : decimal z <> "".
Proof.
  unfold decimal. apply string_of_uint_nonempty.
  destruct (Z.to_N z) as [|q]; simpl; [done|].
  apply DecimalPos.Unsigned.to_uint_nonnil.
Qed.

Lemma digit_is_digit u : 0 <= u < 10 -> is_digit (digit u) = true.
Proof.
  intros Hu.
  assert (u = 0 \/ u = 1 \/ u = 2 \/ u = 3 \/ u = 4 \/ u = 5 \/ u = 6 \/
          u = 7 \/ u = 8 \/ u = 9) as Hcases by lia.
  repeat (destruct Hcases as [->|Hcases]; [reflexivity|]).
  by subst.
Qed.

(** The text of a duration: an optional minus sign, at least one digit, a
    point, two digits and the letter s. *)
Lemma fmtDuration_shape d :
  exists sign ds c1 c2,
    fmtDuration d = sign ++ ds ++ "." ++ String c1 (String c2 "s") /\
    (sign = "" \/ sign = "-") /\ ds <> "" /\ all_digits ds = true /\
    is_digit c1 = true /\ is_digit c2 = true.
Proof.
  unfold fmtDuration, Sprintf_2f. destruct (Seconds d) as [n q].
  set (h := round_half_even (100 * Z.abs n) q).
  exists (if n <? 0 then "-" else ""), (decimal (h / 100)),
    (digit (h mod 100 / 10)), (digit (h mod 10)).
  split_and!.
  - by rewrite !append_assoc.
  - destruct (n <? 0); auto.
  - apply decimal_nonempty.
  - apply string_of_uint_digits.
  - apply digit_is_digit.
    pose proof (Z.mod_pos_bound h 100 ltac:(lia)) as Hm.
    split; [apply Z.div_pos; lia|]. apply Z.div_lt_upper_bound; lia.
  - apply digit_is_digit. apply Z.mod_pos_bound. lia.
Qed.

(** *** The number that the text of a duration denotes *)

Lemma round_half_even_near a b :
  0 < b -> Z.abs (2 * round_half_even a b * b - 2 * a) <= b.
Proof.
  intros Hb. unfold round_half_even.
  pose proof (Z.div_mod a b ltac:(lia)) as Hdm.
  pose proof (Z.mod_pos_bound a b Hb) as Hm.
  set (q := a / b) in *. set (r := a mod b) in *.
  destruct (Z.ltb_spec (2 * r) b); [nia|].
  destruct (Z.ltb_spec b (2 * r)); [nia|].
  destruct (Z.even q); nia.
Qed.

Lemma round_half_even_nonneg a b :
  0 <= a -> 0 < b -> 0 <= round_half_even a b.
Proof.
  intros Ha Hb. unfold round_half_even.
  pose proof (Z.div_pos a b Ha Hb).
  repeat match goal with |- context [if ?c then _ else _] => destruct c end;
    lia.
Qed.

Lemma binade a b :
  0 < a -> 0 < b ->
  let k := Z.log2 a - Z.log2 b in
  let below := if 0 <=? k then a <? b * 2 ^ k else a * 2 ^ (- k) <? b in
  let E := if below then k - 1 else k in
  b * 2 ^ Z.max E 0 <= a * 2 ^ Z.max (- E) 0.
Proof.
  intros Ha Hb.
  destruct (Z.log2_spec a Ha) as [Ha1 Ha2].
  destruct (Z.log2_spec b Hb) as [Hb1 Hb2].
  pose proof (Z.log2_nonneg a) as Hla. pose proof (Z.log2_nonneg b) as Hlb.
  set (la := Z.log2 a) in *. set (lb := Z.log2 b) in *.
  intros k below E. subst below E.
  destruct (Z.leb_spec 0 k) as [Hk|Hk].
  - destruct (Z.ltb_spec a (b * 2 ^ k)) as [Hbelow|Hbelow].
    + destruct (decide (k = 0)) as [Hk0|Hk0].
      * rewrite Hk0. change (Z.max (0 - 1) 0) with 0.
        change (Z.max (- (0 - 1)) 0) with 1.
        assert (la = lb) as Hl by lia. rewrite Hl in *.
        rewrite Z.pow_succ_r in Hb2 by done. lia.
      * rewrite Z.max_l, Z.max_r by lia. rewrite Z.pow_0_r.
        assert (2 ^ la = 2 ^ Z.succ lb * 2 ^ (k - 1)) as Hpow.
        { rewrite <- Z.pow_add_r by lia. f_equal. lia. }
        assert (0 < 2 ^ (k - 1)) by (apply Z.pow_pos_nonneg; lia).
        nia.
    + rewrite Z.max_l, Z.max_r by lia. rewrite Z.pow_0_r. lia.
  - destruct (Z.ltb_spec (a * 2 ^ (- k)) b) as [Hbelow|Hbelow].
    + rewrite Z.max_r, Z.max_l by lia. rewrite Z.pow_0_r.
      assert (2 ^ Z.succ lb = 2 ^ la * 2 ^ (- (k - 1))) as Hpow.
      { rewrite <- Z.pow_add_r by lia. f_equal. lia. }
      assert (0 < 2 ^ (- (k - 1))) by (apply Z.pow_pos_nonneg; lia).
      nia.
    + rewrite Z.max_r, Z.max_l by lia. rewrite Z.pow_0_r. lia.
Qed.

Lemma round_at_exponent a b E :
  0 < a -> 0 < b ->
  b * 2 ^ Z.max E 0 <= a * 2 ^ Z.max (- E) 0 ->
  let e := E - 52 in
  let r := if 0 <=? e then (round_half_even a (b * 2 ^ e) * 2 ^ e, 1)
           else (round_half_even (a * 2 ^ (- e)) b, 2 ^ (- e)) in
  0 < r.2 /\ 2 ^ 53 * Z.abs (r.1 * b - a * r.2) <= a * r.2.
Proof.
  intros Ha Hb HE e r. subst r e.
  destruct (Z.leb_spec 0 (E - 52)) as [He|He]; cbn [fst snd].
  - split; [done|].
    rewrite Z.max_l, Z.max_r in HE by lia. rewrite Z.pow_0_r in HE.
    assert (2 ^ E = 2 ^ (E - 52) * 2 ^ 52) as Hpow.
    { rewrite <- Z.pow_add_r by lia. f_equal. lia. }
    assert (0 < 2 ^ (E - 52)) as HX by (apply Z.pow_pos_nonneg; lia).
    set (X := 2 ^ (E - 52)) in *.
    pose proof (round_half_even_near a (b * X) ltac:(nia)) as Hnear.
    set (q := round_half_even a (b * X)) in *.
    rewrite Hpow in HE. clearbody q X. nia.
  - assert (0 < 2 ^ (- (E - 52))) as HY by (apply Z.pow_pos_nonneg; lia).
    split; [done|].
    assert (2 ^ 52 * b <= a * 2 ^ (- (E - 52))) as Hscale.
    { destruct (Z.le_gt_cases 0 E) as [HE0|HE0].
      - rewrite Z.max_l, Z.max_r in HE by lia. rewrite Z.pow_0_r in HE.
        assert (2 ^ 52 = 2 ^ E * 2 ^ (- (E - 52))) as Hpow.
        { rewrite <- Z.pow_add_r by lia. f_equal. lia. }
        rewrite Hpow. set (Y := 2 ^ (- (E - 52))) in *. clearbody Y. nia.
      - rewrite Z.max_r, Z.max_l in HE by lia. rewrite Z.pow_0_r in HE.
        assert (2 ^ (- (E - 52)) = 2 ^ 52 * 2 ^ (- E)) as Hpow.
        { rewrite <- Z.pow_add_r by lia. f_equal. lia. }
        rewrite Hpow. nia. }
    set (Y := 2 ^ (- (E - 52))) in *.
    pose proof (round_half_even_near (a * Y) b Hb) as Hnear.
    set (q := round_half_even (a * Y) b) in *. clearbody q Y. nia.
Qed.

Lemma round64_pos_near a b :
  0 < a -> 0 < b ->
  0 < (round64_pos a b).2 /\
  2 ^ 53 * Z.abs ((round64_pos a b).1 * b - a * (round64_pos a b).2)
    <= a * (round64_pos a b).2.
Proof.
  intros Ha Hb. unfold round64_pos.
  apply (round_at_exponent a b _ Ha Hb). by apply binade.
Qed.

Lemma round64_near a b :
  0 <= a -> 0 < b ->
  0 < (round64 a b).2 /\ 0 <= (round64 a b).1 /\
  (0 < a -> 0 < (round64 a b).1) /\
  2 ^ 53 * Z.abs ((round64 a b).1 * b - a * (round64 a b).2)
    <= a * (round64 a b).2.
Proof.
  intros Ha Hb. unfold round64.
  destruct (Z.eqb_spec a 0) as [->|Hne]; [cbn [fst snd]; lia|].
  destruct (Z.ltb_spec a 0) as [Hneg|_]; [lia|].
  destruct (round64_pos_near a b ltac:(lia) Hb) as [Hd Hnear].
  destruct (round64_pos a b) as [n dd]; cbn [fst snd] in *.
  assert (0 < n) by nia. split_and!; [done|lia|done|done].
Qed.

Lemma round64_opp a b :
  round64 (- a) b = (- (round64 a b).1, (round64 a b).2).
Proof.
  unfold round64.
  destruct (Z.eqb_spec a 0) as [->|Hne]; [done|].
  destruct (Z.eqb_spec (- a) 0) as [Hz|_]; [lia|].
  destruct (Z.ltb_spec a 0) as [Hneg|Hpos].
  - destruct (Z.ltb_spec (- a) 0) as [?|_]; [lia|].
    destruct (round64_pos (- a) b) as [n dd]. cbn [fst snd]. f_equal. lia.
  - destruct (Z.ltb_spec (- a) 0) as [_|?]; [|lia].
    rewrite Z.opp_involutive. by destruct (round64_pos a b) as [n dd].
Qed.

Lemma Seconds_opp d :
  Seconds (- d) = (- (Seconds d).1, (Seconds d).2).
Proof.
  unfold Seconds. rewrite Z.quot_opp_l, Z.rem_opp_l by done.
  rewrite round64_opp.
  destruct (round64 (Z.rem d Second) Second) as [fn fd]. cbn [fst snd].
  replace (- (d ÷ Second) * fd + - fn) with (- (d ÷ Second * fd + fn))
    by ring.
  apply round64_opp.
Qed.

(** The number of hundredths that [%.2f] prints for the seconds of a
    duration [d] that is not negative is the duration in hundredths of a
    second rounded to the nearest, up to the error of the two roundings to
    [float64]. *)
Lemma Seconds_near d :
  0 <= d ->
  0 < (Seconds d).2 /\ 0 <= (Seconds d).1 /\ (0 < d -> 0 < (Seconds d).1) /\
  Z.abs (round_half_even (100 * (Seconds d).1) (Seconds d).2 * 10 ^ 7 - d)
    <= 5 * 10 ^ 6 + 2 + d / 2 ^ 53.
Proof.
  intros Hd. unfold Seconds.
  rewrite Z.quot_div_nonneg, Z.rem_mod_nonneg by done.
  pose proof (Z.div_mod d Second ltac:(done)) as Hdm.
  pose proof (Z.mod_pos_bound d Second ltac:(done)) as Hm.
  pose proof (Z.div_pos d Second Hd ltac:(done)) as Hsec.
  set (sec := d / Second) in *. set (nsec := d mod Second) in *.
  destruct (round64_near nsec Second ltac:(lia) ltac:(done))
    as (Hfd & Hfn & Hfn' & HA).
  destruct (round64 nsec Second) as [fn fd]. cbn [fst snd] in *.
  destruct (round64_near (sec * fd + fn) fd ltac:(nia) Hfd)
    as (Hdd & Hn & Hn' & HB).
  assert (0 < d -> 0 < sec * fd + fn) as Hpos.
  { intros Hd0. destruct (decide (nsec = 0)) as [Hz|Hz]; [|nia].
    assert (0 < sec) by (unfold Second in *; lia). nia. }
  destruct (round64 (sec * fd + fn) fd) as [n dd]. cbn [fst snd] in *.
  split_and!; [done|done|by auto|].
  pose proof (round_half_even_near (100 * n) dd Hdd) as HC.
  set (h := round_half_even (100 * n) dd) in *.
  pose proof (Z.div_mod d (2 ^ 53) ltac:(done)) as HK.
  pose proof (Z.mod_pos_bound d (2 ^ 53) ltac:(done)) as HKm.
  set (K := d / 2 ^ 53) in *.
  unfold Second in *.
  change (10 ^ 7) with 10000000. change (10 ^ 6) with 1000000.
  change (2 ^ 53) with 9007199254740992 in *.
  clearbody h K sec nsec. clear Hfn' Hn' Hpos.
  remember (fn * 1000000000 - nsec * fd) as A eqn:HeqA.
  remember (n * fd - (sec * fd + fn) * dd) as B eqn:HeqB.
  remember (2 * h * dd - 2 * (100 * n)) as C eqn:HeqC.
  assert (2 * (dd * fd) * (h * 10000000 - d) =
          10000000 * fd * C + 2000000000 * B + 2 * dd * A) as Hid
    by (subst; ring).
  assert (dd * (fd * d + A) = 1000000000 * ((sec * fd + fn) * dd)) as Hid2
    by (subst; ring).
  clear HeqA HeqB HeqC.
  assert (Z.abs A <= fd) as HA1 by nia.
  set (M := dd * fd) in *.
  assert (0 < M) as HM by (unfold M; apply Z.mul_pos_pos; lia).
  pose proof (Z.abs_nonneg A) as Ha0. pose proof (Z.abs_nonneg B) as Hb0.
  pose proof (Z.abs_nonneg C) as Hc0.
  assert (- Z.abs A <= A <= Z.abs A) as HAa by lia.
  assert (- Z.abs B <= B <= Z.abs B) as HBb by lia.
  assert (- Z.abs C <= C <= Z.abs C) as HCc by lia.
  set (a := Z.abs A) in *. set (b := Z.abs B) in *. set (c := Z.abs C) in *.
  clearbody a b c.
  (* products with the denominators *)
  assert (dd * a <= M) as m1.
  { unfold M. apply Z.mul_le_mono_nonneg_l; lia. }
  assert (- (dd * a) <= dd * A <= dd * a) as m1'.
  { split.
    - rewrite <- Z.mul_opp_r. apply Z.mul_le_mono_nonneg_l; lia.
    - apply Z.mul_le_mono_nonneg_l; lia. }
  assert (9007199254740992 * (dd * a) <= dd * (nsec * fd)) as m2.
  { replace (9007199254740992 * (dd * a))
      with (dd * (9007199254740992 * a)) by ring.
    apply Z.mul_le_mono_nonneg_l; lia. }
  assert (dd * (nsec * fd) <= 999999999 * M) as m3.
  { unfold M. replace (dd * (nsec * fd)) with (nsec * (dd * fd)) by ring.
    apply Z.mul_le_mono_nonneg_r; lia. }
  assert (9007199254740992 * (1000000000 * b) <= dd * (fd * d + A)) as m4.
  { rewrite Hid2.
    replace (9007199254740992 * (1000000000 * b))
      with (1000000000 * (9007199254740992 * b)) by ring.
    apply Z.mul_le_mono_nonneg_l; lia. }
  assert (dd * (fd * d + A) = M * d + dd * A) as m4' by (unfold M; ring).
  assert (M * (d + 1000000000) <= 9007199254740992 * (M * (K + 2))) as m5.
  { replace (9007199254740992 * (M * (K + 2)))
      with (M * (9007199254740992 * (K + 2))) by ring.
    apply Z.mul_le_mono_nonneg_l; lia. }
  assert (M * (d + 1000000000) = M * d + 1000000000 * M) as m5' by ring.
  assert (M * (K + 2) = M * K + 2 * M) as m5'' by ring.
  assert (1000000000 * b + dd * a <= M * K + 2 * M) as Hrest by lia.
  assert (- (fd * c) <= fd * C <= fd * c /\ fd * c <= M) as (m6 & m6').
  { split; [split|].
    - rewrite <- Z.mul_opp_r. apply Z.mul_le_mono_nonneg_l; lia.
    - apply Z.mul_le_mono_nonneg_l; lia.
    - unfold M. rewrite (Z.mul_comm dd fd).
      apply Z.mul_le_mono_nonneg_l; lia. }
  set (T := h * 10000000 - d) in *.
  assert (2 * (dd * fd) * T = 2 * (M * T)) as HmT by (unfold M; ring).
  assert (10000000 * fd * C = 10000000 * (fd * C)) as HfC by ring.
  assert (2 * dd * A = 2 * (dd * A)) as HdA by ring.
  assert (- (M * (5000000 + 2 + K)) <= M * T <= M * (5000000 + 2 + K))
    as Hbound.
  { replace (M * (5000000 + 2 + K)) with (5000000 * M + 2 * M + M * K)
      by ring. lia. }
  destruct Hbound as [Hlo Hhi].
  rewrite <- Z.mul_opp_r in Hlo.
  apply Z.mul_le_mono_pos_l in Hlo, Hhi; [|done..].
  change (5 * 1000000) with 5000000. lia.
Qed.

Lemma string_of_uint_eq u : string_of_uint u = NilEmpty.string_of_uint u.
Proof. induction u; simpl; by f_equal. Qed.

Lemma numeral_value_decimal z : 0 <= z -> numeral_value (decimal z) = Some z.
Proof.
  intros Hz. unfold numeral_value, decimal.
  rewrite string_of_uint_eq, NilEmpty.usu. simpl.
  by rewrite DecimalN.Unsigned.of_to, Z2N.id.
Qed.

Lemma numeral_value_digit u :
  0 <= u < 10 -> numeral_value (String (digit u) "") = Some u.
Proof.
  intros Hu.
  assert (u = 0 \/ u = 1 \/ u = 2 \/ u = 3 \/ u = 4 \/ u = 5 \/ u = 6 \/
          u = 7 \/ u = 8 \/ u = 9) as Hcases by lia.
  repeat (destruct Hcases as [->|Hcases]; [reflexivity|]).
  by subst.
Qed.

Lemma Sprintf_2f_text n dd :
  Sprintf_2f (n, dd) ++ "s" =
  (if n <? 0 then "-" else "") ++
  decimal (round_half_even (100 * Z.abs n) dd / 100) ++ "." ++
  String (digit (round_half_even (100 * Z.abs n) dd mod 100 / 10))
    (String (digit (round_half_even (100 * Z.abs n) dd mod 10)) "s").
Proof. unfold Sprintf_2f. by rewrite !append_assoc. Qed.

(** The text of a duration reads as a number of hundredths of a second
    that is the duration rounded to the nearest hundredth, up to the error
    of the passage through [float64]. *)
Lemma fmtDuration_value d :
  exists v ds c1 c2,
    fmtDuration d =
      (if d <? 0 then "-" else "") ++ ds ++ "." ++
      String c1 (String c2 "s") /\
    numeral_value ds = Some (v / 100) /\
    numeral_value (String c1 "") = Some (v / 10 mod 10) /\
    numeral_value (String c2 "") = Some (v mod 10) /\
    0 <= v /\
    Z.abs (v * 10 ^ 7 - Z.abs d) <= 5 * 10 ^ 6 + 2 + Z.abs d / 2 ^ 53.
Proof.
  destruct (Seconds_near (Z.abs d) (Z.abs_nonneg d))
    as (Hdd & Hn & Hn' & Hnear).
  set (v := round_half_even (100 * (Seconds (Z.abs d)).1)
              (Seconds (Z.abs d)).2) in *.
  assert (0 <= v) as Hv by (apply round_half_even_nonneg; lia).
  assert (v mod 100 / 10 = v / 10 mod 10) as Htens
    by (Z.div_mod_to_equations; lia).
  exists v, (decimal (v / 100)), (digit (v mod 100 / 10)), (digit (v mod 10)).
  split_and!.
  - unfold fmtDuration. destruct (Z.ltb_spec d 0) as [Hneg|Hpos].
    + replace d with (- Z.abs d) by lia. rewrite Seconds_opp.
      rewrite Sprintf_2f_text, Z.abs_opp, (Z.abs_eq _ Hn). fold v.
      specialize (Hn' ltac:(lia)).
      destruct (Z.ltb_spec (- (Seconds (Z.abs d)).1) 0); [done|lia].
    + rewrite <- (Z.abs_eq d) at 1 by lia.
      destruct (Seconds (Z.abs d)) as [n dd] eqn:HS. cbn [fst snd] in *.
      rewrite Sprintf_2f_text, (Z.abs_eq _ Hn). fold v.
      destruct (Z.ltb_spec n 0); [lia|done].
  - apply numeral_value_decimal. apply Z.div_pos; lia.
  - rewrite <- Htens. apply numeral_value_digit.
    Z.div_mod_to_equations; lia.
  - apply numeral_value_digit. apply Z.mod_pos_bound. lia.
  - done.
  - done.
Qed.

(** C8.  A root unit (no parent) never reports: [report] returns and
    changes nothing.  A unit with a parent whose failed flag is set reports
    with status FAIL; when verbose is enabled a unit that has not failed
    reports SKIP if it is skipped and PASS otherwise.  The report is a
    flush to the parent whose header is the status line
    "--- STATUS: name (duration)" followed by a newline: for a parent [p]
    with record [ph], the header is delivered to the writer of [p], before
    the TAP line and the buffer of the unit.  The duration is written as an
    optional minus sign, the digits of the seconds, a point, exactly two
    digits and a trailing "s".  This text is the duration in seconds: the
    minus sign is there exactly when the duration is negative, and the
    digits before the point, the first digit after it and the second one
    read as the hundreds, the tens and the units of a number [v] of
    hundredths of a second that is the absolute value of the duration
    rounded to the nearest hundredth, up to the error of the passage
    through [float64], which is less than 3 ns for durations below 2^53 ns
    (104 days). *)
Theorem report_policy_and_format t s h :
  units s !! t = Some h ->
  let status :=
    if failed h then "FAIL" else if skipped h then "SKIP" else "PASS" in
  let header :=
    "--- " ++ status ++ ": " ++ name h ++ " (" ++
    fmtDuration (duration h) ++ ")" ++ String newline "" in
  (parent h = None -> report t s = (Ret tt, s)) /\
  (parent h <> None -> failed h = true \/ Verbose (suite h) = true ->
   report t s = flushToParent t header s) /\
  (forall p ph,
     parent h = Some p -> units s !! p = Some ph -> p <> t ->
     own_writer p (w ph) ->
     (forall tw, tap ph = Some tw -> own_writer p tw) ->
     failed h = true \/ Verbose (suite h) = true ->
     report t s = (Ret tt, flushed t h ph header s)) /\
  (exists sign ds c1 c2,
     fmtDuration (duration h) =
       sign ++ ds ++ "." ++ String c1 (String c2 "s") /\
     (sign = "" \/ sign = "-") /\ ds <> "" /\ all_digits ds = true /\
     is_digit c1 = true /\ is_digit c2 = true) /\
  (exists v ds c1 c2,
     fmtDuration (duration h) =
       (if duration h <? 0 then "-" else "") ++ ds ++ "." ++
       String c1 (String c2 "s") /\
     numeral_value ds = Some (v / 100) /\
     numeral_value (String c1 "") = Some (v / 10 mod 10) /\
     numeral_value (String c2 "") = Some (v mod 10) /\
     0 <= v /\
     Z.abs (v * 10 ^ 7 - Z.abs (duration h)) <=
       5 * 10 ^ 6 + 2 + Z.abs (duration h) / 2 ^ 53).
Proof.
  intros Ht status header.
  assert (parent h <> None -> failed h = true \/ Verbose (suite h) = true ->
          report t s = flushToParent t header s) as Hflush.
  { intros Hp Hcase. rewrite (report_spec _ _ _ Ht).
    destruct (parent h) as [p|]; [|done]. unfold header, status.
    destruct (failed h); [done|]. destruct Hcase as [Hf| ->]; [done|].
    by destruct (skipped h). }
  split_and!.
  - intros Hp. by rewrite (report_spec _ _ _ Ht), Hp.
  - done.
  - intros p ph Hp Hph Hne Hw Htap Hcase.
    rewrite Hflush by (done || congruence).
    by apply (flushToParent_spec t p).
  - apply fmtDuration_shape.
  - apply fmtDuration_value.
Qed.

(** C9.  For a unit with a parent whose failed flag is false, when verbose
    is disabled, [report] returns and leaves the whole state as it is: no
    header and no TAP line is written, the trace gets no event, the buffer
    of the parent is not touched and the buffer of the unit is kept.  The
    skipped flag plays no role. *)
Theorem report_silent_without_verbose t s h :
  units s !! t = Some h -> parent h <> None ->
  failed h = false -> Verbose (suite h) = false ->
  report t s = (Ret tt, s).
Proof.
  intros Ht Hp Hf Hv. rewrite (report_spec _ _ _ Ht).
  destruct (parent h); [|done]. by rewrite Hf, Hv.
Qed.

(** ** Panics of the operations that do not call [panic] *)

Lemma only_nil_never {A} (m : M A) :
  (forall s v, (m s).1 <> Panic v) -> only_nil m.
Proof. intros Hm s v Hv. by destruct (Hm s v). Qed.

Lemma only_nil_ret {A} (a : A) : only_nil (ret a).
Proof. by apply only_nil_never. Qed.

Lemma only_nil_emit e : only_nil (emit e).
Proof. by apply only_nil_never. Qed.

Lemma only_nil_diverge {A} : only_nil (@diverge A).
Proof. by apply only_nil_never. Qed.

Lemma only_nil_get c : only_nil (get c).
Proof.
  intros s v. unfold get. destruct (units s !! c); simpl; congruence.
Qed.

Lemma only_nil_modify c f : only_nil (modify c f).
Proof.
  intros s v. unfold modify. destruct (units s !! c); simpl; congruence.
Qed.

Lemma only_nil_bind {A B} (m : M A) (k : A -> M B) :
  only_nil m -> (forall a, only_nil (k a)) -> only_nil (bind m k).
Proof.
  intros Hm Hk s v. unfold bind. specialize (Hm s).
  destruct (m s) as [[a|v'| |] s1]; simpl in *; try done.
  - apply Hk.
  - intros [= <-]. by apply Hm.
Qed.

Create HintDb only_nil discriminated.
#[local] Hint Resolve only_nil_ret only_nil_emit only_nil_diverge
  only_nil_get only_nil_modify : only_nil.

Ltac only_nil_step :=
  match goal with
  | |- only_nil (bind _ _) => apply only_nil_bind
  | |- only_nil (match ?x with _ => _ end) => destruct x
  | |- forall _, _ => intro
  | |- _ => solve [auto with only_nil]
  end.
Ltac only_nil_tac := repeat only_nil_step.

Lemma only_nil_indenter_loop n c b : only_nil (indenter_loop n c b).
Proof.
  revert b. induction n as [|n IH]; intros b; simpl; unfold append_output;
    only_nil_tac.
Qed.

Lemma only_nil_Write wr b : only_nil (Write wr b).
Proof.
  destruct wr; simpl; [apply only_nil_indenter_loop|apply only_nil_emit].
Qed.
#[local] Hint Resolve only_nil_Write : only_nil.

Lemma only_nil_flushToParent c header : only_nil (flushToParent c header).
Proof.
  unfold flushToParent, Copy, Failed, Skipped. only_nil_tac.
  by intros s v [= <-].
Qed.
#[local] Hint Resolve only_nil_flushToParent : only_nil.

Lemma only_nil_report t : only_nil (report t).
Proof. unfold report, Failed, Skipped. only_nil_tac. Qed.

Lemma only_nil_setRan_fuel n c : only_nil (setRan_fuel n c).
Proof.
  revert c. induction n as [|n IH]; intros c; simpl; only_nil_tac.
Qed.

Lemma only_nil_setRan c : only_nil (setRan c).
Proof. intros s v. apply only_nil_setRan_fuel. Qed.
#[local] Hint Resolve only_nil_report only_nil_setRan : only_nil.

(** ** The deferred function of [tRunner] *)

Section Finalization.

Variable env : event -> list H -> list H.
Variable clock : nat -> Z.

Lemma wait_all_spec subs s :
  wait_all env subs s =
    (Ret tt, {| units := after_signals env subs (units s);
                trace := trace s ++ map EvRecv subs;
                ticks := ticks s |}).
Proof.
  revert s. induction subs as [|c subs IH]; intros s; simpl.
  - unfold ret. rewrite app_nil_r. by destruct s.
  - eapply bind_Ret; [done|]. rewrite IH. simpl.
    by rewrite <- app_assoc.
Qed.

Lemma after_signals_isParallel t subs us :
  keeps_isParallel env t ->
  isParallel <$> after_signals env subs us !! t = isParallel <$> us !! t.
Proof.
  intros Hk. revert us. induction subs as [|c subs IH]; intros us; simpl;
    [done|]. by rewrite IH, Hk.
Qed.

(** C2.  Let the body of [t] have completed without fault (the recovered
    value is nil and the finished flag is set).  The deferred function then
    goes on with the handling of the parallel subtests, whose effects are
    exactly these, in this order.  If [t] has registered parallel children:
    one release of the gate, one close of the barrier of [t], one receive
    on the signal of every registered child in the order of registration,
    and one acquisition of the gate if and only if [t] is not itself
    parallel.  If [t] has no parallel children: one release of the gate if
    and only if [t] is itself parallel, and nothing else. *)
Theorem finalization_parallel_protocol t s h :
  units s !! t = Some h -> keeps_isParallel env t ->
  (finished h = true ->
   tRunner_deferred env clock t None s =
     (run_parallel_subtests env t;;;
      report t;;;
      modify t (set_done true);;;
      h <- get t;;
      (if bool_decide (parent h <> None) && negb (hasSub h)
       then setRan t else ret tt);;;
      block env (EvSend t))
     {| units :=
          <[t := set_duration
                   (wrap64 (duration h + Sub (clock (ticks s)) (start h))) h]>
            (units s);
        trace := trace s; ticks := S (ticks s) |}) /\
  (run_parallel_subtests env t s).1 = Ret tt /\
  trace (run_parallel_subtests env t s).2 =
    (trace s ++
     match sub h with
     | [] => if isParallel h then [EvRelease] else []
     | _ :: _ =>
         [EvRelease; EvClose t] ++ map EvRecv (sub h) ++
         (if isParallel h then [] else [EvWaitParallel])
     end)%list.
Proof.
  intros Ht Hk. split.
  - intros Hfin. unfold tRunner_deferred.
    eapply bind_Ret; [done|]. eapply bind_Ret; [by apply get_Some|].
    eapply bind_Ret; [by eapply modify_Some|].
    eapply bind_Ret.
    { apply get_Some. simpl. by rewrite list_lookup_alter_eq, Ht. }
    simpl. rewrite Hfin. simpl. unfold with_units. simpl.
    by rewrite (alter_insert _ _ _ _ Ht).
  - assert (exists us',
      run_parallel_subtests env t s =
        (Ret tt, {| units := us';
                    trace := trace s ++ parallel_protocol t h;
                    ticks := ticks s |})) as [us' Hrun].
    { unfold run_parallel_subtests, parallel_protocol.
      setoid_rewrite (bind_Ret (get t) _ s h s); [|by apply get_Some|done].
      destruct (sub h) as [|c subs] eqn:Hsub.
      { destruct (isParallel h); [by eexists|].
        exists (units s). unfold ret. rewrite app_nil_r. by destruct s. }
      set (us' := after_signals env (c :: subs) (units s)).
      pose proof (after_signals_isParallel t (c :: subs) (units s) Hk)
        as Hpar.
      fold us' in Hpar. rewrite Ht in Hpar.
      destruct (us' !! t) as [h'|] eqn:Ht'; [|done].
      injection Hpar as Hpar.
      destruct (isParallel h) eqn:Hip; eexists;
        (eapply bind_Ret; [done|]); (eapply bind_Ret; [done|]);
        (eapply bind_Ret; [apply wait_all_spec|]);
        (eapply bind_Ret; [by apply get_Some|]); rewrite Hpar; simpl.
      - unfold ret. by rewrite app_nil_r, <- !app_assoc.
      - unfold block. simpl. by rewrite <- !app_assoc. }
    rewrite Hrun. done.
Qed.




Lemma insert_parent_ext (us : list H) t h h' :
  us !! t = Some h -> parent h' = parent h ->
  forall i, parent <$> <[t := h']> us !! i = parent <$> us !! i.
Proof.
  intros Ht Hp i. destruct (decide (t = i)) as [<-|Hne].
  - rewrite list_lookup_insert_eq by by eapply lookup_lt_Some.
    rewrite Ht. simpl. by rewrite Hp.
  - by rewrite list_lookup_insert_ne.
Qed.

Lemma insert_done_at (us : list H) t h h' :
  us !! t = Some h -> done h' = done h ->
  forall i, done_at (<[t := h']> us) i = done_at us i.
Proof.
  intros Ht Hd i. unfold done_at. destruct (decide (t = i)) as [<-|Hne].
  - rewrite list_lookup_insert_eq by by eapply lookup_lt_Some.
    by rewrite Ht.
  - by rewrite list_lookup_insert_ne.
Qed.


Lemma Sub_saturates t u :
  Sub t u = Z.max (- 2 ^ 63) (Z.min (2 ^ 63 - 1) (t - u)).
Proof.
  unfold Sub, minDuration, maxDuration.
  change (2 ^ 63) with 9223372036854775808.
  repeat match goal with
         | |- context [?a <? ?b] => destruct (Z.ltb_spec a b)
         end; lia.
Qed.

Lemma wrap64_in_range z : - 2 ^ 63 <= z < 2 ^ 63 -> wrap64 z = z.
Proof.
  unfold wrap64. change (2 ^ 64) with 18446744073709551616.
  change (2 ^ 63) with 9223372036854775808.
  intros Hz. rewrite Z.mod_small; lia.
Qed.

(** C6.  [Parallel] on a unit whose isParallel flag is set panics and
    changes nothing, so that the flag is set at most once.  On a unit [t]
    with parent [p] whose flag is not set, the call sets the flag, adds the
    time elapsed since the start to the duration, appends [t] to the
    parallel children of [p], sends on the signal of [t], receives from the
    barrier of [p], acquires the gate, and at last sets the start time to a
    new reading of the clock.  The elapsed time is the reading of the clock
    minus the start time, kept within the range of 64-bit durations, and
    the sum wraps around as 64-bit integers do: when the difference and the
    sum are in range, the new duration is the old one plus the reading of
    the clock minus the start time. *)
Theorem Parallel_protocol t s h :
  units s !! t = Some h ->
  (isParallel h = true ->
   Parallel env clock t s =
     (Panic "testing: t.Parallel called multiple times", s)) /\
  (isParallel h = false ->
   forall p ph,
     parent h = Some p -> units s !! p = Some ph -> p <> t ->
     keeps_parent env t -> keeps_parent env p ->
     let elapsed :=
       Z.max (- 2 ^ 63) (Z.min (2 ^ 63 - 1) (clock (ticks s) - start h)) in
     let h1 :=
       set_duration (wrap64 (duration h + elapsed))
         (set_isParallel true h) in
     let us1 := <[p := set_sub (sub ph ++ [t]) ph]> (<[t := h1]> (units s)) in
     let us2 :=
       env EvWaitParallel (env (EvRecvBarrier p) (env (EvSend t) us1)) in
     Parallel env clock t s =
       (Ret tt,
        {| units := alter (set_start (clock (S (ticks s)))) t us2;
           trace := (trace s ++ [EvSend t; EvRecvBarrier p; EvWaitParallel])%list;
           ticks := S (S (ticks s)) |}) /\
     (- 2 ^ 63 <= clock (ticks s) - start h < 2 ^ 63 ->
      - 2 ^ 63 <= duration h + (clock (ticks s) - start h) < 2 ^ 63 ->
      duration h1 = duration h + (clock (ticks s) - start h))).
Proof.
  intros Ht. split.
  - intros Hpar. unfold Parallel. eapply bind_Ret; [by apply get_Some|].
    by rewrite Hpar.
  - intros Hpar p ph Hp Hph Hne Hkt Hkp elapsed h1 us1 us2.
    assert (elapsed = Sub (clock (ticks s)) (start h)) as Hel
      by (symmetry; apply Sub_saturates).
    split; cycle 1.
    { intros Hdiff Hsum. unfold h1, elapsed. cbn [duration set_duration].
      rewrite Z.min_r, Z.max_r by lia. by apply wrap64_in_range. }
    clearbody elapsed. subst elapsed.
    pose proof (lookup_lt_Some _ _ _ Ht) as Hlt.
    pose proof (lookup_lt_Some _ _ _ Hph) as Hltp.
    unfold Parallel. eapply bind_Ret; [by apply get_Some|]. rewrite Hpar.
    eapply bind_Ret; [by eapply modify_Some|].
    eapply bind_Ret; [done|].
    eapply bind_Ret.
    { apply get_Some. simpl. by rewrite list_lookup_alter_eq, Ht. }
    eapply bind_Ret.
    { eapply modify_Some. simpl. by rewrite list_lookup_alter_eq, Ht. }
    assert (alter
              (fun h2 => set_duration
                 (wrap64 (duration h2 +
                          Sub (clock (ticks s)) (start (set_isParallel true h))))
                 h2) t
              (alter (set_isParallel true) t (units s)) =
            <[t := h1]> (units s)) as Hus.
    { rewrite list_alter_alter_eq. by rewrite (alter_insert _ _ _ _ Ht). }
    cbn [units trace ticks with_units]. rewrite Hus.
    eapply bind_Ret.
    { apply get_Some. cbn [units]. by apply list_lookup_insert_eq. }
    eapply bind_Ret.
    { change (parent h1) with (parent h). rewrite Hp.
      eapply modify_Some. cbn [units with_units].
      rewrite list_lookup_insert_ne by done. done. }
    cbn [units trace ticks with_units].
    rewrite (alter_insert _ p _ ph) by
      (by rewrite list_lookup_insert_ne).
    fold us1.
    assert (exists ht, us1 !! t = Some ht /\ parent ht = Some p)
      as (ht1 & Ht1 & Hpt1).
    { exists h1. unfold us1. rewrite list_lookup_insert_ne by done.
      by rewrite list_lookup_insert_eq. }
    assert (is_Some (us1 !! p)) as [hp1 Hp1].
    { unfold us1. rewrite list_lookup_insert_eq; [by eexists|].
      by rewrite length_insert. }
    destruct (Hkt (EvSend t) _ _ Ht1) as (ht2 & Ht2 & Hpt2).
    destruct (Hkp (EvSend t) _ _ Hp1) as (hp2 & Hp2 & _).
    destruct (Hkt (EvRecvBarrier p) _ _ Ht2) as (ht3 & Ht3 & Hpt3).
    destruct (Hkt EvWaitParallel _ _ Ht3) as (ht4 & Ht4 & Hpt4).
    mstep done. mstep (by apply get_Some).
    mstep (rewrite Hpt2, Hpt1; mstep (by apply get_Some); done).
    mstep done. mstep done.
    unfold modify. cbn [units trace ticks]. rewrite Ht4.
    cbn [units trace ticks with_units]. by rewrite <- !app_assoc.
Qed.

End Finalization.

(** ** [Run] *)

Lemma last_cons_default {A} (a d : A) l :
  List.last (a :: l) d = List.last l a.
Proof.
  revert a d. induction l as [|b l IH]; intros a d; [done|].
  change (List.last (a :: b :: l) d) with (List.last (b :: l) d).
  by rewrite !IH.
Qed.

Lemma root_loop_spec n t s h :
  wf (units s) -> units s !! t = Some h -> (t < n)%nat ->
  root_loop n t s = (Ret (root_of (units s) t), s).
Proof.
  revert t h. induction n as [|n IH]; intros t h Hwf Ht Hn; [lia|].
  simpl. mstep (by apply get_Some).
  unfold root_of. rewrite (ancestors_unfold _ _ _ Hwf Ht).
  destruct (parent h) as [p|] eqn:Hp; [|done].
  pose proof (Hwf _ _ _ Ht Hp) as Hlt.
  destruct (lookup_lt_is_Some_2 (units s) p) as [hp Hhp].
  { apply lookup_lt_Some in Ht. lia. }
  rewrite (IH p hp) by (done || lia). by rewrite last_cons_default.
Qed.

Section Subtests.

Variable env : event -> list H -> list H.
Variable fullName : list H -> nat -> string -> string * bool.

(** C5.  [Run] first marks the parent as having subtests.  When the
    selection rejects the name, it returns true at once: no unit is
    constructed and the trace gets no event.  Otherwise it constructs the
    child as the newest unit, prints the RUN line to the writer of the root
    when verbose is set, starts the task of the child, receives from the
    signal of the child, and returns the negation of the failed flag that
    the child has when the signal has been received. *)
Theorem Run_result t name_ f s p :
  units s !! t = Some p ->
  let us1 := <[t := set_hasSub true p]> (units s) in
  let testName := (fullName us1 t name_).1 in
  let c := length (units s) in
  let s2 := with_units s (us1 ++ [new_unit t p testName c]) in
  ((fullName us1 t name_).2 = false ->
   Run env fullName t name_ f s = (Ret true, with_units s us1)) /\
  ((fullName us1 t name_).2 = true -> Verbose (suite p) = false ->
   forall hc,
     env (EvRecv c) (units s2) !! c = Some hc ->
     Run env fullName t name_ f s =
       (Ret (negb (failed hc)),
        {| units := env (EvRecv c) (units s2);
           trace := (trace s ++ [EvGo c; EvRecv c])%list;
           ticks := ticks s |})) /\
  ((fullName us1 t name_).2 = true -> Verbose (suite p) = true ->
   wf (units s) ->
   forall rh hc,
     units s !! root_of (units s) t = Some rh ->
     own_writer (root_of (units s) t) (w rh) ->
     let s3 :=
       deliver (w rh) ("=== RUN   " ++ testName ++ String newline "") s2 in
     env (EvRecv c) (units s3) !! c = Some hc ->
     Run env fullName t name_ f s =
       (Ret (negb (failed hc)),
        {| units := env (EvRecv c) (units s3);
           trace := (trace s3 ++ [EvGo c; EvRecv c])%list;
           ticks := ticks s |})).
Proof.
  intros Ht us1 testName c s2.
  pose proof (lookup_lt_Some _ _ _ Ht) as Hlt.
  assert (forall k : H -> list H -> M bool,
    (modify t (set_hasSub true);;; p <- get t;; us <- heap;; k p us) s =
    k (set_hasSub true p) us1 (with_units s us1)) as Hstart.
  { intros k. mstep (by eapply modify_Some).
    rewrite (alter_insert _ _ _ _ Ht). fold us1.
    mstep (apply get_Some; by apply list_lookup_insert_eq).
    by mstep done. }
  unfold Run. rewrite Hstart. clear Hstart.
  change (suite (set_hasSub true p)) with (suite p).
  change (new_unit t (set_hasSub true p)) with (new_unit t p).
  destruct (fullName us1 t name_) as [nm ok] eqn:Hfn.
  subst testName. cbn [fst snd] in *.
  assert (length us1 = c) as Hlen by (unfold us1; by rewrite length_insert).
  split_and!.
  - by intros ->.
  - intros -> Hv hc Hhc. simpl negb. cbv iota. rewrite Hv.
    mstep done. rewrite Hlen. mstep done. mstep done. mstep done.
    mstep (by apply get_Some). unfold ret. by rewrite <- !app_assoc.
  - intros -> Hv Hwf rh hc Hrh Hown Hhc. simpl negb. cbv iota.
    rewrite Hv. mstep done. rewrite Hlen. fold s2.
    pose proof (lookup_lt_Some _ _ _ Hrh) as Hltr.
    assert (forall i, (i < c)%nat ->
              parent <$> units s2 !! i = parent <$> units s !! i) as Hpar.
    { intros i Hi. unfold s2, us1.
      rewrite units_with_units, lookup_app_l by (by rewrite length_insert).
      by apply (insert_parent_ext _ t p). }
    assert (wf (units s2)) as Hwf2.
    { intros i h q Hi Hq.
      destruct (decide (i < c)%nat) as [Hlti|Hge].
      - specialize (Hpar i Hlti). rewrite Hi in Hpar.
        destruct (units s !! i) as [h'|] eqn:Hi'; simplify_eq/=.
        apply (Hwf i h' q Hi'). congruence.
      - unfold s2 in Hi. rewrite units_with_units in Hi.
        apply lookup_app_Some in Hi as [Hi|[_ Hi]].
        + apply lookup_lt_Some in Hi. lia.
        + apply list_lookup_singleton_Some in Hi as [_ <-].
          simpl in Hq. injection Hq as <-. lia. }
    assert (root_of (units s2) t = root_of (units s) t) as Hroot.
    { unfold root_of, ancestors. f_equal.
      rewrite (ancestors_fuel_irrel (units s2) _ (length (units s)) t);
        [|done| |lia].
      - apply ancestors_fuel_ext_below; [done|].
        intros i Hi. apply Hpar. unfold c. lia.
      - unfold s2. rewrite units_with_units, length_app. lia. }
    assert (exists rh2, units s2 !! root_of (units s) t = Some rh2 /\
                        w rh2 = w rh) as (rh2 & Hrh2 & Hw2).
    { unfold s2, us1.
      rewrite units_with_units, lookup_app_l by (by rewrite length_insert).
      destruct (decide (t = root_of (units s) t)) as [Heq|Hne].
      - rewrite <- Heq in *. rewrite list_lookup_insert_eq by done.
        eexists. split; [done|]. simpl. congruence.
      - rewrite list_lookup_insert_ne by done. by exists rh. }
    assert (exists h2, units s2 !! t = Some h2) as [h2 Ht2].
    { unfold s2, us1.
      rewrite units_with_units, lookup_app_l by (by rewrite length_insert).
      rewrite list_lookup_insert_eq by done. by eexists. }
    assert (t < S (length (units s2)))%nat as Hfuel.
    { unfold s2. rewrite units_with_units, length_app. lia. }
    eapply bind_Ret.
    { eapply bind_Ret; [done|].
      eapply bind_Ret; [by apply (root_loop_spec _ t s2 h2)|].
      rewrite Hroot. eapply bind_Ret; [by apply get_Some|].
      rewrite Hw2. apply Write_spec.
      apply (own_writer_valid (root_of (units s) t)); [done|by eexists]. }
    mstep done. mstep done.
    mstep (by apply get_Some). unfold ret.
    rewrite <- !app_assoc, ticks_deliver. done.
Qed.

End Subtests.

(** ** The invariant over the operations of the engine *)

Section Operations.

Variable env : event -> list H -> list H.
Variable clock : nat -> Z.
Variable fullName : list H -> nat -> string -> string * bool.

(** C3.  Let the other tasks follow the discipline (they keep the
    invariant, free no unit and reset no failed or finished flag).  Then
    every operation of the engine, from a state where every done unit has
    finished, leads to a state where every done unit has finished, the
    units constructed on the way included; and a unit whose failed flag is
    set before the operation still has it set afterwards. *)
Theorem done_implies_finished_and_failed_is_monotonic o s :
  rely env -> body_respects o -> Inv (units s) ->
  (forall i h, units (perform env clock fullName o s).2 !! i = Some h ->
     done h = true -> finished h = true) /\
  (forall i h, units s !! i = Some h -> failed h = true ->
     failed_at (units (perform env clock fullName o s).2) i = true).
Proof.
  intros Hrely Hbody HI.
  assert (respects (perform env clock fullName o)) as Hop.
  { destruct o; simpl in *;
      auto using respects_Write, respects_setRan, respects_Fail,
        respects_FailNow, respects_skip, respects_SkipNow,
        respects_flushToParent, respects_report, respects_Parallel,
        respects_tRunner, respects_Run, respects_ignore. }
  destruct (Hop (units s) s HI (evolves_refl _)) as [HI' Hev]. split.
  - exact HI'.
  - intros i h Hi Hf. destruct (Hev i h Hi) as (h' & Hi' & Hf' & _).
    unfold failed_at. rewrite Hi'. auto.
Qed.

End Operations.

(** * Examples *)

Example fmtDuration_87 : fmtDuration 87000000000 = "87.00s".
Proof. vm_compute. reflexivity. Qed.

Example fmtDuration_5ms : fmtDuration 5000000 = "0.01s".
Proof. vm_compute. reflexivity. Qed.

Example fmtDuration_negative : fmtDuration (-1500000000) = "-1.50s".
Proof. vm_compute. reflexivity. Qed.

(** A subtest that calls [FailNow]: the task exits after the FAIL report,
    the completion signal and the cancellation of the context. *)
Example tRunner_FailNow :
  let r := tRunner demo_env demo_clock 1 FailNow (demo_state quiet) in
  r.1 = Goexit /\
  trace r.2 =
    [EvWrite 0 ("--- FAIL: tests/a#1 (1.50s)" ++ String newline "");
     EvWrite 1 ("not ok - tests/a1" ++ String newline "");
     EvWrite 0 "        log"; EvSend 1; EvCancel 1] /\
  map (fun h => (failed h, finished h, done h, ran h)) (units r.2) =
    [(true, false, false, true); (true, true, true, true)].
Proof. by vm_compute. Qed.

(** A body that exits without having finished: the run is aborted and no
    completion signal is sent. *)
Example tRunner_Goexit :
  let r :=
    tRunner demo_env demo_clock 1 (fun _ => goexit) (demo_state quiet) in
  r.1 = Panic protocol_violation /\
  trace r.2 =
    [EvWrite 0 ("--- FAIL: tests/a#1 (1.50s)" ++ String newline "");
     EvWrite 1 ("not ok - tests/a1" ++ String newline "");
     EvWrite 0 "        log"; EvCancel 1] /\
  map (fun h => (failed h, finished h, done h, ran h)) (units r.2) =
    [(true, false, false, false); (true, false, false, false)].
Proof. by vm_compute. Qed.

(** A passing subtest is silent unless verbose is set. *)
Example tRunner_pass_quiet :
  let r :=
    tRunner demo_env demo_clock 1 (fun _ => ret tt) (demo_state quiet) in
  r.1 = Ret tt /\ trace r.2 = [EvSend 1; EvCancel 1].
Proof. by vm_compute. Qed.

Example tRunner_pass_verbose :
  let r :=
    tRunner demo_env demo_clock 1 (fun _ => ret tt) (demo_state verbose) in
  r.1 = Ret tt /\
  trace r.2 =
    [EvWrite 0 ("--- PASS: tests/a#1 (1.50s)" ++ String newline "");
     EvWrite 1 ("ok - tests/a1" ++ String newline "");
     EvWrite 0 "        log"; EvSend 1; EvCancel 1].
Proof. by vm_compute. Qed.

Example indenter_two_lines :
  indent_text ("a" ++ String newline "b") =
    "    a" ++ String newline "    b".
Proof. reflexivity. Qed.

Lemma demo_env_rely : rely demo_env.
Proof.
  intros e us HI. destruct e; simpl; try (split; [done|apply evolves_refl]).
  split; [by apply alter_mild_Inv|by apply alter_mild_evolves].
Qed.

Lemma demo_env_fields e us c :
  forall h, us !! c = Some h ->
  exists h', demo_env e us !! c = Some h' /\ parent h' = parent h /\
             isParallel h' = isParallel h.
Proof.
  intros h Hc. destruct e as [| |?|c'| | | | |]; simpl; eauto.
  destruct (decide (c' = c)) as [->|Hne].
  - rewrite list_lookup_alter_eq, Hc. by eexists.
  - rewrite list_lookup_alter_ne by done. eauto.
Qed.

Lemma demo_env_keeps_parent c : keeps_parent demo_env c.
Proof.
  intros e us h Hc.
  destruct (demo_env_fields e us c h Hc) as (h' & ? & ? & _). eauto.
Qed.

Lemma demo_env_keeps_isParallel t : keeps_isParallel demo_env t.
Proof.
  intros e us. destruct (us !! t) as [h|] eqn:Ht.
  - destruct (demo_env_fields e us t h Ht) as (h' & -> & _ & Hp).
    simpl. by rewrite Hp.
  - destruct e as [| |?|c'| | | | |]; simpl; try by rewrite Ht.
    apply lookup_ge_None in Ht. rewrite lookup_ge_None_2; [done|].
    by rewrite length_alter.
Qed.

Lemma wf_two (r c : H) : parent r = None -> parent c = Some 0%nat -> wf [r; c].
Proof.
  intros Hr Hc i h p Hi Hp. destruct i as [|[|i]]; simpl in Hi.
  - injection Hi as <-. congruence.
  - injection Hi as <-. rewrite Hc in Hp. injection Hp as <-. lia.
  - done.
Qed.

Lemma wf_three (r c d : H) :
  parent r = None -> parent c = Some 0%nat -> parent d = Some 1%nat ->
  wf [r; c; d].
Proof.
  intros Hr Hc Hd i h p Hi Hp. destruct i as [|[|[|i]]]; simpl in Hi.
  - injection Hi as <-. congruence.
  - injection Hi as <-. rewrite Hc in Hp. injection Hp as <-. lia.
  - injection Hi as <-. rewrite Hd in Hp. injection Hp as <-. lia.
  - done.
Qed.

Lemma Inv_not_done (us : list H) :
  Forall (fun h => done h = false) us -> Inv us.
Proof.
  intros Hall i h Hi Hd. rewrite Forall_lookup in Hall.
  specialize (Hall i h Hi). simpl in Hall. congruence.
Qed.

Lemma all_not_done (us : list H) (l : list nat) :
  forallb (fun a => negb (done_at us a)) l = true ->
  forall a, a ∈ l -> done_at us a = false.
Proof.
  intros Hall a Ha. apply list_elem_of_In in Ha.
  rewrite forallb_forall in Hall. specialize (Hall a Ha).
  by destruct (done_at us a).
Qed.

(** ** The theorems at work *)


Lemma finalization_parallel_protocol_witness :
  (run_parallel_subtests demo_env 0 demo_state_parallel).1 = Ret tt /\
  trace (run_parallel_subtests demo_env 0 demo_state_parallel).2 =
    [EvRelease; EvClose 0; EvRecv 1; EvWaitParallel] /\
  trace (run_parallel_subtests demo_env 1 demo_state_parallel).2 =
    [EvRelease].
Proof.
  destruct (finalization_parallel_protocol demo_env demo_clock 0
              demo_state_parallel (set_sub [1%nat] (demo_root quiet))
              eq_refl (demo_env_keeps_isParallel 0))
    as (_ & Hret & Htrace).
  destruct (finalization_parallel_protocol demo_env demo_clock 1
              demo_state_parallel (set_isParallel true (demo_child quiet))
              eq_refl (demo_env_keeps_isParallel 1))
    as (_ & _ & Htrace').
  split_and!; [exact Hret|exact Htrace|exact Htrace'].
Defined.

Lemma done_implies_finished_and_failed_is_monotonic_witness :
  let s' :=
    (perform demo_env demo_clock demo_fullName (op_tRunner 1 FailNow)
       (demo_state quiet)).2 in
  (forall i h, units s' !! i = Some h -> done h = true ->
               finished h = true) /\
  (forall i h, units (demo_state quiet) !! i = Some h -> failed h = true ->
               failed_at (units s') i = true).
Proof.
  apply (done_implies_finished_and_failed_is_monotonic demo_env demo_clock
           demo_fullName (op_tRunner 1 FailNow) (demo_state quiet)).
  - apply demo_env_rely.
  - apply respects_FailNow.
  - apply Inv_not_done. by repeat constructor.
Defined.

Lemma Fail_marks_unit_and_ancestors_witness :
  (Fail 1 (demo_state quiet) =
     (Ret tt,
      with_units (demo_state quiet)
        [set_failed true (demo_root quiet);
         set_failed true (demo_child quiet)]) /\
   Fail 1
     (with_units (demo_state quiet)
        [set_failed true (demo_root quiet);
         set_failed true (demo_child quiet)]) =
     (Ret tt,
      with_units (demo_state quiet)
        [set_failed true (demo_root quiet);
         set_failed true (demo_child quiet)])) /\
  (exists v s', Fail 2 demo_state_done = (Panic v, s')).
Proof.
  split.
  - destruct (Fail_marks_unit_and_ancestors (demo_state quiet) 1
                (demo_child quiet)) as [Hmark _].
    + by apply wf_two.
    + reflexivity.
    + destruct (Hmark eq_refl) as (Hrun & _ & _ & Hagain).
      * by apply all_not_done.
      * split; [exact Hrun|exact Hagain].
  - destruct (Fail_marks_unit_and_ancestors demo_state_done 2
                (set_done true (set_finished true
                   (new_unit 1 (demo_child quiet) "tests/a#1/b" 2))))
      as [_ Habort].
    + by apply wf_three.
    + reflexivity.
    + by apply Habort.
Defined.

Lemma Run_result_witness :
  (Run demo_env demo_fullName 0 "no" FailNow (demo_state quiet)).1 = Ret true /\
  (exists s',
     Run demo_env demo_fullName 0 "b" FailNow (demo_state quiet) =
       (Ret false, s') /\
     length (units s') = 3%nat /\ failed_at (units s') 2 = true /\
     trace s' = [EvGo 2; EvRecv 2]) /\
  (exists s',
     Run demo_env demo_fullName 0 "b" FailNow (demo_state verbose) =
       (Ret false, s') /\
     trace s' =
       [EvWrite 0 ("=== RUN   tests/b" ++ String newline "");
        EvGo 2; EvRecv 2]).
Proof.
  split_and!.
  - destruct (Run_result demo_env demo_fullName 0 "no" FailNow
                (demo_state quiet) (demo_root quiet) eq_refl)
      as (Hno & _ & _).
    by rewrite Hno.
  - destruct (Run_result demo_env demo_fullName 0 "b" FailNow
                (demo_state quiet) (demo_root quiet) eq_refl)
      as (_ & Hyes & _).
    eexists. split.
    { rewrite (Hyes eq_refl eq_refl
                 (set_failed true (new_unit 0 (demo_root quiet) "tests/b" 2))
                 eq_refl).
      reflexivity. }
    by vm_compute.
  - destruct (Run_result demo_env demo_fullName 0 "b" FailNow
                (demo_state verbose) (demo_root verbose) eq_refl)
      as (_ & _ & Hyes).
    eexists. split.
    { rewrite (Hyes eq_refl eq_refl
                 (wf_two (demo_root verbose) (demo_child verbose)
                    eq_refl eq_refl)
                 (demo_root verbose)
                 (set_failed true (new_unit 0 (demo_root verbose) "tests/b" 2))
                 eq_refl I eq_refl).
      reflexivity. }
    by vm_compute.
Defined.

Lemma Parallel_protocol_witness :
  (exists s',
     Parallel demo_env demo_clock 1 demo_state_started = (Ret tt, s') /\
     trace s' = [EvSend 1; EvRecvBarrier 0; EvWaitParallel] /\
     units s' =
       [set_sub [1%nat] (demo_root quiet);
        set_start 3000000000
          (set_duration 1350000000
             (set_isParallel true (demo_child quiet)))]) /\
  Parallel demo_env demo_clock 1 demo_state_parallel =
    (Panic "testing: t.Parallel called multiple times", demo_state_parallel).
Proof.
  assert (0%nat <> 1%nat) as Hne by done.
  split.
  - destruct (Parallel_protocol demo_env demo_clock 1 demo_state_started
                (set_start 400000000
                   (set_duration 250000000 (demo_child quiet))) eq_refl)
      as [_ Hfirst].
    destruct (Hfirst eq_refl 0%nat (demo_root quiet) eq_refl eq_refl Hne
                (demo_env_keeps_parent 1) (demo_env_keeps_parent 0))
      as [Hrun _].
    eexists. split; [exact Hrun|]. by vm_compute.
  - destruct (Parallel_protocol demo_env demo_clock 1 demo_state_parallel
                (set_isParallel true (demo_child quiet)) eq_refl)
      as [Hagain _].
    by apply Hagain.
Defined.

Lemma flushToParent_one_tap_line_witness :
  written 1 (trace (flushToParent 1 "header" (demo_state quiet)).2) =
    ["ok - tests/a1" ++ String newline ""] /\
  written 1
    (trace (flushToParent 1 "header"
              (with_units (demo_state quiet)
                 [demo_root quiet;
                  set_failed true (set_skipped true (demo_child quiet))])).2) =
    ["not ok - tests/a1" ++ String newline ""] /\
  written 1
    (trace (flushToParent 1 "header"
              (with_units (demo_state quiet)
                 [demo_root quiet; set_skipped true (demo_child quiet)])).2) =
    ["ok - tests/a1 # SKIP" ++ String newline ""].
Proof.
  assert (0%nat <> 1%nat) as Hne by done.
  assert (WExternal 0 <> WExternal 1) as Hwr by done.
  split_and!.
  - destruct (flushToParent_one_tap_line 1 0 "header" (demo_state quiet)
                (demo_child quiet) (demo_root quiet) (WExternal 1)
                eq_refl eq_refl eq_refl Hne I eq_refl I)
      as (_ & _ & Hone).
    exact (Hone 1%nat eq_refl Hwr).
  - destruct (flushToParent_one_tap_line 1 0 "header"
                (with_units (demo_state quiet)
                   [demo_root quiet;
                    set_failed true (set_skipped true (demo_child quiet))])
                (set_failed true (set_skipped true (demo_child quiet)))
                (demo_root quiet) (WExternal 1)
                eq_refl eq_refl eq_refl Hne I eq_refl I)
      as (_ & _ & Hone).
    exact (Hone 1%nat eq_refl Hwr).
  - destruct (flushToParent_one_tap_line 1 0 "header"
                (with_units (demo_state quiet)
                   [demo_root quiet; set_skipped true (demo_child quiet)])
                (set_skipped true (demo_child quiet))
                (demo_root quiet) (WExternal 1)
                eq_refl eq_refl eq_refl Hne I eq_refl I)
      as (_ & _ & Hone).
    exact (Hone 1%nat eq_refl Hwr).
Defined.

Lemma report_policy_and_format_witness :
  report 0 (demo_state verbose) = (Ret tt, demo_state verbose) /\
  written 0 (trace (report 1 (demo_state verbose)).2) =
    ["--- PASS: tests/a#1 (0.00s)" ++ String newline ""; "        log"] /\
  written 0
    (trace (report 1
              (with_units (demo_state quiet)
                 [demo_root quiet;
                  set_duration 87000000000
                    (set_failed true (demo_child quiet))])).2) =
    ["--- FAIL: tests/a#1 (87.00s)" ++ String newline ""; "        log"] /\
  written 0 (trace (report 1 demo_state_failed).2) =
    ["--- FAIL: tests/a#1 (12.35s)" ++ String newline ""; "        log"] /\
  (exists v ds c1 c2,
     fmtDuration 12345000000 = ds ++ "." ++ String c1 (String c2 "s") /\
     numeral_value ds = Some (v / 100) /\
     numeral_value (String c1 "") = Some (v / 10 mod 10) /\
     numeral_value (String c2 "") = Some (v mod 10) /\
     1234 <= v <= 1235).
Proof.
  assert (0%nat <> 1%nat) as Hne by done.
  split_and!.
  - destruct (report_policy_and_format 0 (demo_state verbose)
                (demo_root verbose) eq_refl) as (Hroot & _).
    by apply Hroot.
  - destruct (report_policy_and_format 1 (demo_state verbose)
                (demo_child verbose) eq_refl) as (_ & _ & Hflush & _).
    rewrite (Hflush 0%nat (demo_root verbose) eq_refl eq_refl Hne I);
      [done|by intros tw [= <-]|by right].
  - destruct (report_policy_and_format 1
                (with_units (demo_state quiet)
                   [demo_root quiet;
                    set_duration 87000000000
                      (set_failed true (demo_child quiet))])
                (set_duration 87000000000
                   (set_failed true (demo_child quiet))) eq_refl)
      as (_ & _ & Hflush & _).
    rewrite (Hflush 0%nat (demo_root quiet) eq_refl eq_refl Hne I);
      [done|by intros tw [= <-]|by left].
  - destruct (report_policy_and_format 1 demo_state_failed
                (set_duration 12345000000
                   (set_failed true (demo_child quiet))) eq_refl)
      as (_ & _ & Hflush & _).
    rewrite (Hflush 0%nat (demo_root quiet) eq_refl eq_refl Hne I);
      [done|by intros tw [= <-]|by left].
  - destruct (report_policy_and_format 1 demo_state_failed
                (set_duration 12345000000
                   (set_failed true (demo_child quiet))) eq_refl)
      as (_ & _ & _ & _ & v & ds & c1 & c2 & Htext & Hds & Hc1 & Hc2 & Hv
          & Hnear).
    exists v, ds, c1, c2. split_and!; [exact Htext|done|done|done| |].
    + change (Z.abs _ / 2 ^ 53) with 0 in Hnear.
      change (Z.abs (duration _)) with 12345000000 in Hnear. lia.
    + change (Z.abs _ / 2 ^ 53) with 0 in Hnear.
      change (Z.abs (duration _)) with 12345000000 in Hnear. lia.
Defined.

Lemma report_silent_without_verbose_witness :
  report 1
    (with_units (demo_state quiet)
       [demo_root quiet; set_skipped true (demo_child quiet)]) =
    (Ret tt,
     with_units (demo_state quiet)
       [demo_root quiet; set_skipped true (demo_child quiet)]).
Proof.
  by apply (report_silent_without_verbose 1 _
              (set_skipped true (demo_child quiet))).
Defined.

Lemma Fail_after_done_marks_ancestors_witness :
  exists s',
    Fail 1
      (with_units (demo_state quiet)
         [demo_root quiet;
          set_done true (set_finished true (demo_child quiet))]) =
      (Panic "Fail in goroutine after tests/a#1 has completed", s') /\
    failed_at (units s') 0 = true /\ failed_at (units s') 1 = false.
Proof.
  destruct (Fail_after_done_marks_ancestors
              (with_units (demo_state quiet)
                 [demo_root quiet;
                  set_done true (set_finished true (demo_child quiet))])
              1 (set_done true (set_finished true (demo_child quiet))))
    as (Hrun & _ & _).
  - by apply wf_two.
  - reflexivity.
  - reflexivity.
  - by apply all_not_done.
  - eexists. split; [exact Hrun|]. by vm_compute.
Defined.

(** C10, as it is stated, fails when an ancestor of the unit is done too:
    here the test 1 and its subtest 2 are done and the root is not.  [Fail]
    on the subtest marks the root, panics when it reaches the test, and so
    leaves this ancestor unmarked. *)
Lemma Fail_after_done_counterexample :
  wf (units demo_state_done) /\
  done_at (units demo_state_done) 2 = true /\
  ancestors (units demo_state_done) 2 = [1%nat; 0%nat] /\
  (Fail 2 demo_state_done).1 =
    Panic "Fail in goroutine after tests/a#1 has completed" /\
  failed_at (units (Fail 2 demo_state_done).2) 0 = true /\
  failed_at (units (Fail 2 demo_state_done).2) 1 = false.
Proof.
  split; [by apply wf_three|]. by vm_compute.
Qed.


(** C4, as it is stated, fails for a unit that has a done ancestor: here
    the root is done and its subtest 1 is not.  [Fail] on the subtest
    panics when it reaches the root and marks neither of them. *)
Lemma Fail_marks_unit_and_ancestors_counterexample :
  wf (units demo_state_root_done) /\
  done_at (units demo_state_root_done) 1 = false /\
  ancestors (units demo_state_root_done) 1 = [0%nat] /\
  (Fail 1 demo_state_root_done).1 =
    Panic "Fail in goroutine after tests has completed" /\
  failed_at (units (Fail 1 demo_state_root_done).2) 1 = false /\
  failed_at (units (Fail 1 demo_state_root_done).2) 0 = false.
Proof.
  split; [by apply wf_two|]. by vm_compute.
Qed.

(** * Further properties *)

(** ** [setRan] *)

Lemma ran_all_length l us : length (ran_all l us) = length us.
Proof.
  induction l as [|a l IH]; simpl; [done|]. by rewrite length_alter.
Qed.

Lemma ran_all_lookup_notin l us c :
  c ∉ l -> ran_all l us !! c = us !! c.
Proof.
  induction l as [|a l IH]; simpl; intros Hnin; [done|].
  apply not_elem_of_cons in Hnin as [Hne Hnin].
  rewrite list_lookup_alter_ne by done. by apply IH.
Qed.

Lemma ran_all_lookup_in l us c :
  c ∈ l -> ran_all l us !! c = set_ran true <$> us !! c.
Proof.
  induction l as [|a l IH]; simpl; intros Hin; [inversion Hin|].
  destruct (decide (a = c)) as [->|Hne].
  - rewrite list_lookup_alter_eq.
    destruct (decide (c ∈ l)) as [Hc|Hc].
    + rewrite IH by done. by destruct (us !! c).
    + by rewrite ran_all_lookup_notin.
  - rewrite list_lookup_alter_ne by done.
    apply elem_of_cons in Hin as [->|Hin]; [done|]. by apply IH.
Qed.

Lemma ran_all_parent l us i :
  parent <$> ran_all l us !! i = parent <$> us !! i.
Proof.
  destruct (decide (i ∈ l)) as [Hin|Hnin].
  - rewrite ran_all_lookup_in by done. by destruct (us !! i).
  - by rewrite ran_all_lookup_notin.
Qed.

Lemma ran_all_idem l us : ran_all l (ran_all l us) = ran_all l us.
Proof.
  apply list_eq. intros i. destruct (decide (i ∈ l)) as [Hin|Hnin].
  - rewrite !ran_all_lookup_in by done. by destruct (us !! i).
  - by rewrite !ran_all_lookup_notin.
Qed.

Lemma setRan_fuel_spec n c s h :
  wf (units s) -> units s !! c = Some h -> (c < n)%nat ->
  setRan_fuel n c s =
    (Ret tt, with_units s (ran_all (c :: ancestors (units s) c) (units s))).
Proof.
  revert c s h. induction n as [|n IH]; intros c s h Hwf Hc Hn; [lia|].
  rewrite (ancestors_unfold _ _ _ Hwf Hc).
  simpl. mstep (by apply get_Some).
  destruct (parent h) as [p|] eqn:Hp.
  - pose proof (Hwf _ _ _ Hc Hp) as Hlt.
    destruct (lookup_lt_is_Some_2 (units s) p) as [hp Hhp].
    { apply lookup_lt_Some in Hc. lia. }
    eapply bind_Ret; [by apply (IH p s hp); [|  |lia]|].
    eapply modify_Some. rewrite units_with_units.
    rewrite ran_all_lookup_notin; [done|].
    intros Hin. apply elem_of_cons in Hin as [->|Hin]; [lia|].
    apply ancestors_lt in Hin; [lia|done].
  - eapply bind_Ret; [done|]. by eapply modify_Some.
Qed.

(** X1.  On well-formed units, [setRan c] returns after setting the ran flag
    of [c] and of every ancestor of [c] up to the root; it changes no other
    unit and no other field, it adds nothing to the trace, and a second
    call changes nothing.  Unlike [Fail] it does not look at the done
    flags. *)
Theorem setRan_marks_unit_and_ancestors s c h :
  wf (units s) -> units s !! c = Some h ->
  let s' := with_units s (ran_all (c :: ancestors (units s) c) (units s)) in
  setRan c s = (Ret tt, s') /\
  (forall a, a ∈ c :: ancestors (units s) c -> ran_at (units s') a = true) /\
  (forall i hi, units s !! i = Some hi ->
     units s' !! i =
       Some (if bool_decide (i ∈ c :: ancestors (units s) c)
             then set_ran true hi else hi)) /\
  setRan c s' = (Ret tt, s').
Proof.
  intros Hwf Hc s'. pose proof (lookup_lt_Some _ _ _ Hc) as Hlt.
  assert (setRan c s = (Ret tt, s')) as Hrun.
  { unfold setRan. by apply (setRan_fuel_spec _ c s h); [| |lia]. }
  split_and!; [done| | |].
  - intros a Ha. unfold ran_at, s'. rewrite units_with_units.
    rewrite ran_all_lookup_in by done.
    assert (is_Some (units s !! a)) as [ha ->]; [|done].
    apply elem_of_cons in Ha as [->|Ha]; [by eexists|].
    by eapply ancestors_valid.
  - intros i hi Hi. unfold s'. rewrite units_with_units. case_bool_decide.
    + by rewrite ran_all_lookup_in, Hi.
    + by rewrite ran_all_lookup_notin.
  - assert (forall i, parent <$> units s' !! i = parent <$> units s !! i)
      as Hext by (intros i; apply ran_all_parent).
    assert (ancestors (units s') c = ancestors (units s) c) as Hanc.
    { unfold ancestors, s'. rewrite units_with_units, ran_all_length.
      by apply ancestors_fuel_ext. }
    assert (exists h', units s' !! c = Some h') as [h' Hc'].
    { unfold s'. rewrite units_with_units, ran_all_lookup_in, Hc by left.
      by eexists. }
    unfold setRan. rewrite (setRan_fuel_spec _ c s' h').
    + rewrite Hanc. unfold s'.
      by rewrite units_with_units, with_units_with_units, ran_all_idem.
    + by eapply wf_ext.
    + done.
    + unfold s'. rewrite units_with_units, ran_all_length. lia.
Qed.

(** ** [Fail] on any chain *)

Lemma fail_all_snoc l c us : fail_all (l ++ [c]) us = fail_all (c :: l) us.
Proof.
  apply list_eq. intros i.
  destruct (decide (i ∈ c :: l)) as [Hin|Hnin].
  - rewrite !fail_all_lookup_in; [done|done|].
    rewrite elem_of_app, list_elem_of_singleton.
    apply elem_of_cons in Hin. tauto.
  - rewrite !fail_all_lookup_notin; [done|done|].
    rewrite elem_of_app, list_elem_of_singleton.
    rewrite elem_of_cons in Hnin. tauto.
Qed.

Lemma until_done_snoc us l c :
  until_done us (l ++ [c]) =
    match until_done us l with
    | (before, Some d) => (before, Some d)
    | (before, None) =>
        if done_at us c then (before, Some c)
        else ((before ++ [c])%list, None)
    end.
Proof.
  induction l as [|a l IH]; simpl.
  - by destruct (done_at us c).
  - destruct (done_at us a); [done|]. rewrite IH.
    destruct (until_done us l) as [before [d|]]; [done|].
    by destruct (done_at us c).
Qed.

Lemma until_done_subset us l a :
  a ∈ (until_done us l).1 -> a ∈ l.
Proof.
  revert a. induction l as [|b l IH]; intros a; simpl; [done|].
  destruct (done_at us b); simpl; [by intros ?%elem_of_nil|].
  destruct (until_done us l) as [before d]. simpl in *.
  rewrite !elem_of_cons. intros [->|Hin]; auto.
Qed.

Lemma chain_from_root_unfold us c h :
  wf us -> us !! c = Some h ->
  chain_from_root us c =
    match parent h with
    | Some p => (chain_from_root us p ++ [c])%list
    | None => [c]
    end.
Proof.
  intros Hwf Hc. unfold chain_from_root.
  rewrite (ancestors_unfold _ _ _ Hwf Hc).
  by destruct (parent h).
Qed.

Lemma chain_from_root_le us c a :
  wf us -> a ∈ chain_from_root us c -> (a <= c)%nat.
Proof.
  intros Hwf. unfold chain_from_root.
  rewrite list_elem_of_In, <- in_rev, <- list_elem_of_In, elem_of_cons.
  intros [->|Hin]; [lia|]. apply ancestors_lt in Hin; [lia|done].
Qed.

Lemma Fail_fuel_general n c s h :
  wf (units s) -> units s !! c = Some h -> (c < n)%nat ->
  Fail_fuel n c s =
    (match (until_done (units s) (chain_from_root (units s) c)).2 with
     | None => Ret tt
     | Some d => Panic (default "" (Fail_message <$> units s !! d))
     end,
     with_units s
       (fail_all (until_done (units s) (chain_from_root (units s) c)).1
          (units s))).
Proof.
  revert c s h. induction n as [|n IH]; intros c s h Hwf Hc Hn; [lia|].
  rewrite (chain_from_root_unfold _ _ _ Hwf Hc).
  simpl. mstep (by apply get_Some).
  assert (done_at (units s) c = done h) as Hdc.
  { unfold done_at. by rewrite Hc. }
  destruct (parent h) as [p|] eqn:Hp.
  - pose proof (Hwf _ _ _ Hc Hp) as Hlt.
    destruct (lookup_lt_is_Some_2 (units s) p) as [hp Hhp].
    { apply lookup_lt_Some in Hc. lia. }
    rewrite until_done_snoc.
    specialize (IH p s hp Hwf Hhp ltac:(lia)).
    pose proof (until_done_subset (units s) (chain_from_root (units s) p))
      as Hsub.
    destruct (until_done (units s) (chain_from_root (units s) p))
      as [before [d|]]; simpl in IH, Hsub.
    + unfold bind. by rewrite IH.
    + eapply bind_Ret; [exact IH|].
      assert (fail_all before (units s) !! c = Some h) as Hc'.
      { rewrite fail_all_lookup_notin; [done|]. intros Hin.
        apply Hsub, chain_from_root_le in Hin; [lia|done]. }
      mstep (by apply get_Some). rewrite Hdc.
      destruct (done h); simpl; [by rewrite Hc|].
      rewrite (modify_Some c _ _ h) by done.
      by rewrite units_with_units, with_units_with_units, fail_all_snoc.
  - mstep done. mstep (by apply get_Some). simpl. rewrite Hdc.
    destruct (done h); simpl.
    + by rewrite Hc, with_units_id.
    + by rewrite (modify_Some c _ _ h).
Qed.

(** X2.  The whole behaviour of [Fail] on well-formed units.  Walk the chain
    of [c] from the root down to [c].  If no unit of the chain is done, the
    call returns with the failed flag of every unit of the chain set.
    Otherwise it panics with the message that names the first done unit met
    on the way down, and the failed flag is set for exactly the units of
    the chain above that one.  In both cases no other unit and no other
    field is changed, and nothing is added to the trace. *)
Theorem Fail_stops_at_first_done s c h :
  wf (units s) -> units s !! c = Some h ->
  let before := (until_done (units s) (chain_from_root (units s) c)).1 in
  let d := (until_done (units s) (chain_from_root (units s) c)).2 in
  Fail c s =
    (match d with
     | None => Ret tt
     | Some d => Panic (default "" (Fail_message <$> units s !! d))
     end,
     with_units s (fail_all before (units s))) /\
  (forall i hi, units s !! i = Some hi ->
     units (Fail c s).2 !! i =
       Some (if bool_decide (i ∈ before) then set_failed true hi else hi)) /\
  trace (Fail c s).2 = trace s /\
  (d = None -> before = chain_from_root (units s) c) /\
  (forall x, d = Some x ->
     x ∈ chain_from_root (units s) c /\ done_at (units s) x = true /\
     x ∉ before).
Proof.
  intros Hwf Hc before d. pose proof (lookup_lt_Some _ _ _ Hc) as Hlt.
  assert (Fail c s =
    (match d with
     | None => Ret tt
     | Some d => Panic (default "" (Fail_message <$> units s !! d))
     end,
     with_units s (fail_all before (units s)))) as Hrun.
  { unfold Fail. by apply (Fail_fuel_general _ c s h); [| |lia]. }
  split_and!; [done| | | |].
  - intros i hi Hi. rewrite Hrun. cbn [snd]. rewrite units_with_units.
    case_bool_decide.
    + by rewrite fail_all_lookup_in, Hi.
    + by rewrite fail_all_lookup_notin.
  - by rewrite Hrun.
  - unfold d, before. generalize (chain_from_root (units s) c).
    induction l as [|a l IH]; simpl; [done|].
    destruct (done_at (units s) a); [done|].
    destruct (until_done (units s) l) as [b [x|]]; simpl in *; [done|].
    intros _. by rewrite IH.
  - unfold d, before. generalize (chain_from_root (units s) c).
    induction l as [|a l IH]; simpl; [done|]. intros x.
    destruct (done_at (units s) a) eqn:Hda.
    + simpl. intros [= <-]. split_and!; [left|done|apply not_elem_of_nil].
    + destruct (until_done (units s) l) as [b [y|]]; simpl in *; [|done].
      intros [= <-]. destruct (IH y eq_refl) as (Hin & Hdy & Hnin).
      split_and!; [by right|done|].
      rewrite not_elem_of_cons. split; [|done].
      intros ->. congruence.
Qed.

(** ** [FailNow] and [SkipNow] *)

Lemma bind_not_Ret {A} (m : M A) (k : A -> M unit) s :
  (forall a s1, (k a s1).1 <> Ret tt) -> (bind m k s).1 <> Ret tt.
Proof.
  intros Hk. unfold bind. destruct (m s) as [[a|v| |] s1]; try done.
Qed.

(** X3.  [FailNow] never returns to its caller: in every state it ends by
    the exit of the task, by a panic, or not at all.  On well-formed units
    where no unit of the chain of [c] is done, it ends by the exit of the
    task, after the failed flag of [c] and of its ancestors and the
    finished flag of [c] have been set.  When a unit of the chain is done,
    it ends by the panic of [Fail], and the finished flag is not set. *)
Theorem FailNow_exits_after_marking s c h :
  (forall s0 c0, (FailNow c0 s0).1 <> Ret tt) /\
  (wf (units s) -> units s !! c = Some h ->
   let d := (until_done (units s) (chain_from_root (units s) c)).2 in
   (d = None ->
    FailNow c s =
      (Goexit,
       with_units s
         (alter (set_finished true) c
            (fail_all (c :: ancestors (units s) c) (units s)))) /\
    finished_at (units (FailNow c s).2) c = true /\
    (forall a, a ∈ c :: ancestors (units s) c ->
       failed_at (units (FailNow c s).2) a = true)) /\
   (d <> None ->
    FailNow c s = Fail c s /\ (exists v, (FailNow c s).1 = Panic v) /\
    finished_at (units (FailNow c s).2) c = finished h)).
Proof.
  split.
  { intros s0 c0. unfold FailNow. apply bind_not_Ret. intros _ s1.
    apply bind_not_Ret. by intros _ s2. }
  intros Hwf Hc d. pose proof (lookup_lt_Some _ _ _ Hc) as Hlt.
  pose proof (Fail_fuel_general (S (length (units s))) c s h Hwf Hc
                ltac:(lia)) as Hrun.
  fold (Fail c s) in Hrun. fold d in Hrun.
  assert (d = None ->
          (until_done (units s) (chain_from_root (units s) c)).1 =
          chain_from_root (units s) c) as Hall.
  { unfold d. generalize (chain_from_root (units s) c).
    induction l as [|a l IH]; simpl; [done|].
    destruct (done_at (units s) a); [done|].
    destruct (until_done (units s) l) as [b [x|]]; simpl in *; [done|].
    intros _. by rewrite IH. }
  split.
  - intros Hd. rewrite Hd in Hrun. rewrite (Hall Hd) in Hrun.
    assert (fail_all (chain_from_root (units s) c) (units s) =
            fail_all (c :: ancestors (units s) c) (units s)) as Heq.
    { apply list_eq. intros i. unfold chain_from_root.
      destruct (decide (i ∈ c :: ancestors (units s) c)) as [Hin|Hnin].
      - rewrite !fail_all_lookup_in; [done|done|].
        by rewrite list_elem_of_In, <- in_rev, <- list_elem_of_In.
      - rewrite !fail_all_lookup_notin; [done|done|].
        by rewrite list_elem_of_In, <- in_rev, <- list_elem_of_In. }
    rewrite Heq in Hrun.
    assert (exists h1,
      fail_all (c :: ancestors (units s) c) (units s) !! c = Some h1)
      as [h1 Hc1].
    { rewrite fail_all_lookup_in, Hc by left. by eexists. }
    assert (FailNow c s =
      (Goexit,
       with_units s
         (alter (set_finished true) c
            (fail_all (c :: ancestors (units s) c) (units s))))) as HFN.
    { unfold FailNow. mstep (exact Hrun).
      mstep (by eapply modify_Some). done. }
    rewrite HFN. split_and!; [done| |].
    + unfold finished_at. cbn [snd].
      by rewrite units_with_units, list_lookup_alter_eq, Hc1.
    + intros a Ha. unfold failed_at. cbn [snd]. rewrite units_with_units.
      assert (is_Some (units s !! a)) as [ha Hha].
      { apply elem_of_cons in Ha as [->|Ha]; [by eexists|].
        by eapply ancestors_valid. }
      destruct (decide (c = a)) as [<-|Hne].
      * rewrite list_lookup_alter_eq, fail_all_lookup_in, Hc by done. done.
      * rewrite list_lookup_alter_ne, fail_all_lookup_in, Hha by done. done.
  - intros Hd. destruct d as [x|]; [|done].
    assert (FailNow c s = Fail c s) as HFN.
    { unfold FailNow, bind. by rewrite Hrun. }
    rewrite HFN, Hrun. split_and!; [done|by eexists|].
    unfold finished_at. cbn [snd]. rewrite units_with_units.
    destruct (decide (c ∈ (until_done (units s)
                  (chain_from_root (units s) c)).1)) as [Hin|Hnin].
    + by rewrite fail_all_lookup_in, Hc.
    + by rewrite fail_all_lookup_notin, Hc.
Qed.

(** X4.  [SkipNow] on a unit sets its skipped and finished flags and ends by
    the exit of the task; it changes nothing else, in particular no failed
    flag.  So a unit that has failed and is then skipped is still reported
    as failed: the report that follows returns, writes the FAIL status line
    and then the buffer of the unit to the writer of the parent, and writes
    the line "not ok - name" to the TAP writer of the parent, not the line
    of a skipped unit.  On a nil pointer [SkipNow] panics. *)
Theorem SkipNow_exits_and_keeps_failed s c :
  (forall h, units s !! c = Some h ->
     let h' := set_finished true (set_skipped true h) in
     SkipNow c s = (Goexit, with_units s (<[c := h']> (units s))) /\
     (forall i, failed_at (units (SkipNow c s).2) i = failed_at (units s) i) /\
     (failed h = true ->
      forall p ph k kt,
        parent h = Some p -> units s !! p = Some ph -> p <> c ->
        w ph = WExternal k -> tap ph = Some (WExternal kt) -> kt <> k ->
        let res := report c (SkipNow c s).2 in
        res.1 = Ret tt /\
        written k (trace res.2) =
          (written k (trace s) ++
           ("--- FAIL: " ++ name h ++ " (" ++ fmtDuration (duration h) ++
            ")" ++ String newline "")%string ::
           if is_empty (output h) then [] else [output h])%list /\
        written kt (trace res.2) =
          (written kt (trace s) ++
           [("not ok - " ++ Replace_all_by_empty (name h) "#"%char ++
             String newline "")%string])%list)) /\
  (units s !! c = None -> SkipNow c s = (Panic nil_dereference, s)).
Proof.
  split.
  - intros h Hc h'. pose proof (lookup_lt_Some _ _ _ Hc) as Hlt.
    assert (SkipNow c s = (Goexit, with_units s (<[c := h']> (units s))))
      as Hrun.
    { unfold SkipNow, skip. mstep (by eapply modify_Some).
      mstep (eapply modify_Some;
             by rewrite units_with_units, list_lookup_alter_eq, Hc).
      rewrite list_alter_alter_eq. unfold goexit.
      by rewrite with_units_with_units, (alter_insert _ _ _ _ Hc). }
    rewrite Hrun. cbn [snd]. rewrite units_with_units.
    split_and!; [done| |].
    + intros i. unfold failed_at. destruct (decide (c = i)) as [<-|Hne].
      * by rewrite list_lookup_insert_eq, Hc.
      * by rewrite list_lookup_insert_ne.
    + intros Hf p ph k kt Hp Hph Hne Hw Htap Hk.
      set (s1 := with_units s (<[c := h']> (units s))) in *.
      set (res := report c s1).
      assert (units s1 !! c = Some h') as Hc1
        by (unfold s1; rewrite units_with_units;
            by apply list_lookup_insert_eq).
      assert (units s1 !! p = Some ph) as Hp1
        by (unfold s1; rewrite units_with_units;
            by rewrite list_lookup_insert_ne).
      assert (res =
        (Ret tt, flushed c h' ph (status_line "FAIL" h') s1)) as ->.
      { unfold res. rewrite (report_spec c _ h') by done.
        change (parent h') with (parent h). change (failed h') with (failed h).
        rewrite Hp, Hf. apply (flushToParent_spec c p); try done.
        - by rewrite Hw.
        - rewrite Htap. by intros tw [= <-]. }
      unfold flushed, clear_output, deliver_nonempty, tap_line, status_line.
      rewrite Hw, Htap. change (failed h') with (failed h). rewrite Hf.
      change (output h') with (output h). change (name h') with (name h).
      change (duration h') with (duration h).
      assert (forall b, written k [EvWrite k b] = [b]) as Hkk
        by (intros; simpl; by rewrite decide_True).
      assert (forall b, written kt [EvWrite kt b] = [b]) as Htt
        by (intros; simpl; by rewrite decide_True).
      assert (forall b, written k [EvWrite kt b] = []) as Htk
        by (intros; simpl; by rewrite decide_False).
      assert (forall b, written kt [EvWrite k b] = []) as Hkt
        by (intros; simpl; by rewrite decide_False).
      destruct (is_empty (output h)); simpl;
        rewrite ?written_app, ?Hkk, ?Htt, ?Htk, ?Hkt, ?app_nil_r;
        split_and!; try done; by rewrite <- ?app_assoc.
  - intros Hc. unfold SkipNow, skip, bind, modify. by rewrite Hc.
Qed.

(** ** Logging *)

Lemma is_empty_append a b : is_empty (a ++ b) = is_empty a && is_empty b.
Proof. by destruct a. Qed.

Lemma lacks_final_newline_append a x r :
  lacks_final_newline (a ++ String x r) = lacks_final_newline (String x r).
Proof.
  induction a as [|y a IH]; [done|].
  change (lacks_final_newline (String y (a ++ String x r)) =
          lacks_final_newline (String x r)).
  destruct (a ++ String x r) eqn:Heq; [by destruct a|].
  by rewrite <- IH.
Qed.

Lemma closes_line text :
  lacks_final_newline
    (text ++ (if lacks_final_newline text then String newline "" else "")) =
  false.
Proof.
  destruct (lacks_final_newline text) eqn:Hl.
  - by rewrite lacks_final_newline_append.
  - by rewrite append_nil_r.
Qed.

Lemma ends_line_append a b :
  lacks_final_newline b = false -> lacks_final_newline (a ++ b) = false.
Proof.
  destruct b as [|x r]; [done|]. by rewrite lacks_final_newline_append.
Qed.

Lemma Output_ends_line prefix file line text :
  lacks_final_newline (Output prefix file line text) = false.
Proof.
  unfold Output. do 5 apply ends_line_append. apply closes_line.
Qed.

Lemma log_spec c file line text s h :
  units s !! c = Some h ->
  log c file line text s =
    (Ret tt,
     with_units s
       (<[c := set_output (output h ++ Output "        " file line text) h]>
          (units s))).
Proof.
  intros Hc. unfold log, append_output.
  rewrite (modify_Some _ _ _ _ Hc). by rewrite (alter_insert _ _ _ _ Hc).
Qed.

(** X5.  The text that a unit logs is kept in its own buffer, as one record
    that ends with a newline, and it is printed only if the unit fails or
    verbose is set.  For a unit [c] whose parent writes to the external
    writer [k]: when [c] has failed or verbose is set, the report that
    follows the log writes to [k] the status line and then the buffer with
    the record at its end, and the buffer is emptied; when [c] has not
    failed and verbose is not set, the report writes nothing and the record
    stays in the buffer. *)
Theorem logged_text_is_printed_iff_failed_or_verbose
  c p s h ph k file line text :
  units s !! c = Some h -> parent h = Some p ->
  units s !! p = Some ph -> p <> c -> w ph = WExternal k ->
  (forall tw, tap ph = Some tw -> own_writer p tw /\ tw <> WExternal k) ->
  let record := Output "        " file line text in
  let s' := ((log c file line text;;; report c) s).2 in
  lacks_final_newline record = false /\
  (failed h = true \/ Verbose (suite h) = true ->
   written k (trace s') =
     (written k (trace s) ++
      [status_line
         (if failed h then "FAIL" else if skipped h then "SKIP" else "PASS")
         h;
       (output h ++ record)%string])%list /\
   (output <$> units s' !! c) = Some "") /\
  (failed h = false -> Verbose (suite h) = false ->
   trace s' = trace s /\
   (output <$> units s' !! c) = Some (output h ++ record)).
Proof.
  intros Hc Hp Hph Hne Hw Htap record s'.
  pose proof (lookup_lt_Some _ _ _ Hc) as Hlt.
  set (h1 := set_output (output h ++ record) h).
  set (s1 := with_units s (<[c := h1]> (units s))).
  assert (units s1 !! c = Some h1) as Hc1.
  { unfold s1. rewrite units_with_units. by apply list_lookup_insert_eq. }
  assert (units s1 !! p = Some ph) as Hp1.
  { unfold s1. rewrite units_with_units.
    by rewrite list_lookup_insert_ne. }
  assert (s' = (report c s1).2) as Hs'.
  { unfold s', bind. by rewrite (log_spec _ _ _ _ _ _ Hc). }
  split_and!; [apply Output_ends_line| |].
  - intros Hcase.
    assert (report c s1 =
      (Ret tt,
       flushed c h1 ph
         (status_line
            (if failed h then "FAIL" else if skipped h then "SKIP"
             else "PASS") h) s1)) as Hrep.
    { rewrite (report_spec _ _ _ Hc1).
      change (parent h1) with (parent h). change (failed h1) with (failed h).
      change (suite h1) with (suite h). change (skipped h1) with (skipped h).
      rewrite Hp.
      assert (forall st, flushToParent c (status_line st h1) s1 =
                (Ret tt, flushed c h1 ph (status_line st h) s1)) as Hfl.
      { intros st. apply (flushToParent_spec c p); try done.
        - by rewrite Hw.
        - intros tw Htw. by apply Htap. }
      destruct (failed h); [apply Hfl|].
      destruct Hcase as [Hf|Hv]; [done|]. rewrite Hv.
      destruct (skipped h); apply Hfl. }
    rewrite Hs', Hrep. cbn [snd]. unfold flushed, clear_output.
    rewrite units_with_units. cbn [trace with_units].
    unfold deliver_nonempty. change (output h1) with (output h ++ record).
    assert (is_empty (output h ++ record) = false) as ->.
    { rewrite is_empty_append. by rewrite andb_false_r. }
    rewrite Hw. split.
    + destruct (tap ph) as [tw|] eqn:Htw.
      * destruct (Htap tw eq_refl) as [_ Hk].
        destruct tw as [q|k']; simpl.
        -- rewrite !written_app. simpl. case_decide; [|done].
           by rewrite <- app_assoc.
        -- rewrite !written_app. simpl.
           repeat case_decide; try congruence. simpl.
           by rewrite app_nil_r, <- app_assoc.
      * simpl. rewrite !written_app. simpl. case_decide; [|done].
        by rewrite <- app_assoc.
    + rewrite list_lookup_alter_eq.
      assert (is_Some
        (units (deliver (WExternal k) (output h ++ record)
           (match tap ph with
            | Some tw => deliver tw (tap_line h1)
                           (deliver (WExternal k)
                              (status_line
                                 (if failed h then "FAIL"
                                  else if skipped h then "SKIP" else "PASS")
                                 h) s1)
            | None => deliver (WExternal k)
                        (status_line
                           (if failed h then "FAIL"
                            else if skipped h then "SKIP" else "PASS") h) s1
            end)) !! c)) as [hx ->]; [|done].
      apply deliver_is_Some. destruct (tap ph); repeat apply deliver_is_Some;
        by eexists.
  - intros Hf Hv. rewrite Hs', (report_spec _ _ _ Hc1).
    change (parent h1) with (parent h). change (failed h1) with (failed h).
    change (suite h1) with (suite h). rewrite Hp, Hf, Hv. cbn [snd].
    split; [done|]. by rewrite Hc1.
Qed.

Lemma FailNow_ok s c h :
  wf (units s) -> units s !! c = Some h -> done h = false ->
  (forall a, a ∈ ancestors (units s) c -> done_at (units s) a = false) ->
  FailNow c s =
    (Goexit,
     with_units s
       (alter (set_finished true) c
          (fail_all (c :: ancestors (units s) c) (units s)))).
Proof.
  intros Hwf Hc Hd Hanc. unfold FailNow.
  mstep (by apply (Fail_ok s c h)).
  mstep (eapply modify_Some;
         by rewrite units_with_units, fail_all_lookup_in, Hc by left).
  done.
Qed.

(** X6.  [Error], [Fatal] and [Skip] on a unit [c] of a chain without a done
    unit (well-formed units).  Each one first adds the record of the text
    to the buffer of [c].  [Error] then sets the failed flag of [c] and of
    its ancestors and returns, so that the body goes on.  [Fatal] sets the
    same flags and the finished flag of [c], and ends by the exit of the
    task.  [Skip] sets the skipped and finished flags of [c], touches no
    failed flag, and ends by the exit of the task. *)
Theorem Error_Fatal_Skip_log_then_mark s c h file line text :
  wf (units s) -> units s !! c = Some h ->
  (forall a, a ∈ c :: ancestors (units s) c -> done_at (units s) a = false) ->
  let h1 := set_output (output h ++ Output "        " file line text) h in
  let chain := c :: ancestors (units s) c in
  Error c file line text s =
    (Ret tt, with_units s (fail_all chain (<[c := h1]> (units s)))) /\
  Fatal c file line text s =
    (Goexit,
     with_units s
       (alter (set_finished true) c
          (fail_all chain (<[c := h1]> (units s))))) /\
  Skip c file line text s =
    (Goexit,
     with_units s
       (<[c := set_finished true (set_skipped true h1)]> (units s))).
Proof.
  intros Hwf Hc Hlive h1 chain.
  pose proof (lookup_lt_Some _ _ _ Hc) as Hlt.
  set (s1 := with_units s (<[c := h1]> (units s))).
  assert (units s1 !! c = Some h1) as Hc1.
  { unfold s1. rewrite units_with_units. by apply list_lookup_insert_eq. }
  assert (forall i, parent <$> units s1 !! i = parent <$> units s !! i)
    as Hext.
  { unfold s1. rewrite units_with_units. by apply (insert_parent_ext _ c h). }
  assert (wf (units s1)) as Hwf1 by by eapply wf_ext.
  assert (ancestors (units s1) c = ancestors (units s) c) as Hanc.
  { unfold ancestors, s1. rewrite units_with_units, length_insert.
    apply ancestors_fuel_ext. intros i.
    by apply (insert_parent_ext _ c h). }
  assert (done h1 = false) as Hd1.
  { specialize (Hlive c ltac:(left)). unfold done_at in Hlive.
    by rewrite Hc in Hlive. }
  assert (forall a, a ∈ ancestors (units s1) c ->
                    done_at (units s1) a = false) as Hlive1.
  { rewrite Hanc. intros a Ha. unfold s1. rewrite units_with_units.
    rewrite (insert_done_at _ c h) by done. apply Hlive. by right. }
  split_and!.
  - unfold Error. (eapply bind_Ret; [by apply log_spec|]). fold h1 s1.
    rewrite (Fail_ok s1 c h1) by done. by rewrite Hanc.
  - unfold Fatal. (eapply bind_Ret; [by apply log_spec|]). fold h1 s1.
    rewrite (FailNow_ok s1 c h1) by done. by rewrite Hanc.
  - unfold Skip, SkipNow, skip. (eapply bind_Ret; [by apply log_spec|]). fold h1 s1.
    (eapply bind_Ret; [by eapply modify_Some|]).
    (eapply bind_Ret;
       [eapply modify_Some;
        by rewrite units_with_units, list_lookup_alter_eq, Hc1|]).
    unfold goexit, s1.
    rewrite !with_units_with_units, !units_with_units.
    rewrite list_alter_alter_eq.
    rewrite (alter_insert _ c _ h1) by by apply list_lookup_insert_eq.
    by rewrite list_insert_insert_eq.
Qed.

(** ** The [indenter] *)

Lemma append_length (a b : string) :
  String.length (a ++ b) = (String.length a + String.length b)%nat.
Proof. induction a as [|x a IH]; simpl; [done|]. by rewrite IH. Qed.

Lemma append_inv_head (a b c : string) : a ++ b = a ++ c -> b = c.
Proof.
  induction a as [|x a IH]; simpl; [done|]. intros [= Heq]. by apply IH.
Qed.

Lemma indent_lines_length st b :
  String.length (indent_lines st b) =
    (String.length b + 4 * count_lines st b)%nat.
Proof.
  revert st. induction b as [|x r IH]; intros st; [done|].
  destruct st; simpl; rewrite IH; lia.
Qed.

Lemma unindent_indent_lines (st : bool) b :
  unindent (if st then 4%nat else 0%nat) (indent_lines st b) = b.
Proof.
  revert st. induction b as [|x r IH]; intros st; [by destruct st|].
  destruct st; simpl; f_equal; apply (IH (Ascii.eqb x newline)).
Qed.

(** X7.  [indenter.Write] on a unit ends after at most as many iterations
    as there are bytes, and it appends to the buffer of the unit the bytes
    written with four spaces in front of every line; no other field, unit
    or part of the state is changed.  Nothing is lost or mixed up: the
    appended text is longer than the bytes written by four bytes for each
    line that starts in them, and taking the indentation away gives the
    bytes back.  A write of no bytes does nothing, even through a nil
    pointer. *)
Theorem indenter_Write_appends_indented_lines c b s :
  (forall h, units s !! c = Some h ->
     indenter_Write c b s =
       (Ret tt,
        with_units s
          (<[c := set_output (output h ++ indent_text b) h]> (units s)))) /\
  String.length (indent_text b) =
    (String.length b + 4 * count_lines true b)%nat /\
  unindent 4 (indent_text b) = b /\
  indenter_Write c "" s = (Ret tt, s).
Proof.
  split_and!.
  - intros h Hc. unfold indenter_Write.
    rewrite (indenter_loop_spec _ c b s h) by done.
    simpl. by rewrite (alter_insert _ _ _ _ Hc).
  - apply indent_lines_length.
  - apply (unindent_indent_lines true).
  - done.
Qed.

Lemma indent_lines_app st a b :
  indent_lines st (a ++ b) =
    indent_lines st a ++
    indent_lines (if is_empty a then st else negb (lacks_final_newline a)) b.
Proof.
  revert st. induction a as [|x a IH]; intros st; [done|].
  change (String x a ++ b) with (String x (a ++ b)).
  cbn [indent_lines]. rewrite IH, append_assoc. cbn [is_empty].
  do 2 f_equal. simpl. f_equal.
  destruct a as [|y a]; [simpl; by destruct (Ascii.eqb x newline)|done].
Qed.

(** X8.  Two writes through an [indenter] give the same buffer as one write
    of the two byte strings put together exactly when the first one is
    empty or ends with a newline, or the second one is empty: every write
    starts with an indentation, also in the middle of a line. *)
Theorem indenter_writes_compose_at_line_ends c a b s h :
  units s !! c = Some h ->
  ((indenter_Write c a;;; indenter_Write c b) s =
     indenter_Write c (a ++ b) s <->
   a = "" \/ b = "" \/ lacks_final_newline a = false).
Proof.
  intros Hc. pose proof (lookup_lt_Some _ _ _ Hc) as Hlt.
  assert ((indenter_Write c a;;; indenter_Write c b) s =
          (Ret tt,
           with_units s
             (<[c := set_output
                       ((output h ++ indent_text a) ++ indent_text b) h]>
                (units s)))) as Htwo.
  { unfold indenter_Write.
    eapply bind_Ret; [by apply (indenter_loop_spec _ c a s h)|].
    rewrite (indenter_loop_spec _ c b _
               (set_output (output h ++ indent_text a) h)); [|done|].
    - simpl. rewrite list_alter_alter_eq, with_units_with_units.
      by rewrite (alter_insert _ _ _ _ Hc).
    - simpl. by rewrite list_lookup_alter_eq, Hc. }
  assert (indenter_Write c (a ++ b) s =
          (Ret tt,
           with_units s
             (<[c := set_output (output h ++ indent_text (a ++ b)) h]>
                (units s)))) as Hone.
  { unfold indenter_Write.
    rewrite (indenter_loop_spec _ c (a ++ b) s h) by done.
    simpl. by rewrite (alter_insert _ _ _ _ Hc). }
  rewrite Htwo, Hone. unfold indent_text. rewrite indent_lines_app.
  split.
  - intros [= Heq].
    assert (<[c := set_output
                     ((output h ++ indent_lines true a) ++
                      indent_lines true b) h]> (units s) !! c =
            <[c := set_output
                     (output h ++ indent_lines true a ++
                      indent_lines
                        (if is_empty a then true
                         else negb (lacks_final_newline a)) b) h]>
              (units s) !! c) as Hl by by rewrite Heq.
    rewrite !list_lookup_insert_eq in Hl by done.
    injection Hl as Ho. rewrite append_assoc in Ho.
    do 2 apply append_inv_head in Ho.
    destruct a as [|x a]; [by left|]. right.
    destruct b as [|y b]; [by left|]. right.
    cbn [is_empty] in Ho.
    destruct (lacks_final_newline (String x a)); [|done].
    apply (f_equal String.length) in Ho.
    rewrite !indent_lines_length in Ho. simpl in Ho. lia.
  - intros Hcase. do 3 f_equal. rewrite append_assoc. do 2 f_equal.
    destruct Hcase as [->|[->|Hl]]; [done|by destruct (if is_empty a then _ else _)|].
    rewrite Hl. by destruct a.
Qed.

(** ** [fmtDuration] *)

Lemma round_half_even_exact q b :
  0 < b -> round_half_even (q * b) b = q.
Proof.
  intros Hb. unfold round_half_even.
  rewrite Z.div_mul, Z.mod_mul by lia.
  destruct (2 * 0 <? b) eqn:Hlt; [done|]. apply Z.ltb_ge in Hlt. lia.
Qed.

Lemma round64_pos_small k :
  0 < k < 2 ^ 53 ->
  exists j, 0 <= j /\ round64_pos k 1 = (k * 2 ^ j, 2 ^ j).
Proof.
  intros Hk. unfold round64_pos.
  change (Z.log2 1) with 0. rewrite Z.sub_0_r.
  pose proof (Z.log2_nonneg k) as Hnn.
  destruct (Z.log2_spec k ltac:(lia)) as [Hlo Hhi].
  assert (Z.log2 k < 53) as Hlog by (apply Z.log2_lt_pow2; lia).
  destruct (0 <=? Z.log2 k) eqn:H0; [|apply Z.leb_gt in H0; lia].
  destruct (k <? 1 * 2 ^ Z.log2 k) eqn:Hb; [apply Z.ltb_lt in Hb; lia|].
  destruct (0 <=? Z.log2 k - 52) eqn:He.
  - apply Z.leb_le in He. assert (Z.log2 k - 52 = 0) as -> by lia.
    exists 0. split; [done|]. change (2 ^ 0) with 1.
    rewrite !Z.mul_1_r. f_equal.
    pose proof (round_half_even_exact k 1 ltac:(lia)) as Hr.
    by rewrite Z.mul_1_r in Hr.
  - apply Z.leb_gt in He. exists (- (Z.log2 k - 52)). split; [lia|].
    f_equal.
    pose proof (round_half_even_exact (k * 2 ^ (- (Z.log2 k - 52))) 1
                  ltac:(lia)) as Hr.
    by rewrite Z.mul_1_r in Hr.
Qed.

Lemma Sprintf_2f_whole k j :
  0 <= k -> 0 <= j ->
  Sprintf_2f (k * 2 ^ j, 2 ^ j) = decimal k ++ ".00".
Proof.
  intros Hk Hj. unfold Sprintf_2f.
  assert (0 < 2 ^ j) as Hpow by (apply Z.pow_pos_nonneg; lia).
  rewrite Z.abs_eq by nia.
  replace (100 * (k * 2 ^ j)) with (100 * k * 2 ^ j) by ring.
  rewrite round_half_even_exact by done.
  destruct (k * 2 ^ j <? 0) eqn:Hneg; [apply Z.ltb_lt in Hneg; nia|].
  replace (100 * k) with (k * 100) by ring.
  rewrite Z.div_mul, Z.mod_mul by lia.
  replace (k * 100 mod 10) with 0; [done|].
  replace (k * 100) with (k * 10 * 10) by ring. by rewrite Z.mod_mul.
Qed.

Lemma Sprintf_2f_opp n d :
  0 < n -> Sprintf_2f (- n, d) = "-" ++ Sprintf_2f (n, d).
Proof.
  intros Hn. unfold Sprintf_2f. rewrite Z.abs_opp.
  destruct (- n <? 0) eqn:H1; [|apply Z.ltb_ge in H1; lia].
  destruct (n <? 0) eqn:H2; [apply Z.ltb_lt in H2; lia|]. done.
Qed.

(** X9.  A duration of a whole number of seconds is written with the digits
    of that number and ".00s", with a minus sign in front when it is
    negative: the passage through [float64] loses nothing below 2^53
    seconds. *)
Theorem fmtDuration_whole_seconds k :
  0 <= k < 2 ^ 53 ->
  fmtDuration (k * Second) = decimal k ++ ".00s" /\
  (0 < k -> fmtDuration (- (k * Second)) = "-" ++ decimal k ++ ".00s").
Proof.
  intros Hk. unfold fmtDuration, Seconds. split.
  - rewrite Z.quot_mul, Z.rem_mul by done.
    change (round64 0 Second) with (0, 1). cbv iota beta.
    rewrite Z.mul_1_r, Z.add_0_r. unfold round64.
    destruct (k =? 0) eqn:H0.
    + apply Z.eqb_eq in H0. by subst.
    + apply Z.eqb_neq in H0.
      destruct (k <? 0) eqn:Hneg; [apply Z.ltb_lt in Hneg; lia|].
      destruct (round64_pos_small k ltac:(lia)) as (j & Hj & ->).
      rewrite Sprintf_2f_whole by lia. by rewrite append_assoc.
  - intros Hpos.
    replace (- (k * Second)) with ((- k) * Second) by ring.
    rewrite Z.quot_mul, Z.rem_mul by done.
    change (round64 0 Second) with (0, 1). cbv iota beta.
    rewrite Z.mul_1_r, Z.add_0_r. unfold round64.
    destruct (- k =? 0) eqn:H0; [apply Z.eqb_eq in H0; lia|].
    destruct (- k <? 0) eqn:Hneg; [|apply Z.ltb_ge in Hneg; lia].
    rewrite Z.opp_involutive.
    destruct (round64_pos_small k ltac:(lia)) as (j & Hj & ->).
    assert (0 < 2 ^ j) as Hpow by (apply Z.pow_pos_nonneg; lia).
    rewrite Sprintf_2f_opp by nia.
    rewrite Sprintf_2f_whole by lia. cbn [append]. f_equal.
    by rewrite append_assoc.
Qed.

(** ** [tRunner]: how a task ends *)

Lemma plain_silent {A} (m : M A) :
  (forall s, (m s).1 <> Goexit /\ trace (m s).2 = trace s /\
             ticks (m s).2 = ticks s) ->
  plain m.
Proof.
  intros Hm s. destruct (Hm s) as (Hg & Htr & Ht). split_and!; [done|done|].
  exists []. by rewrite app_nil_r.
Qed.

Lemma plain_ret {A} (a : A) : plain (ret a).
Proof. by apply plain_silent. Qed.

Lemma plain_panic {A} v : plain (@panic A v).
Proof. by apply plain_silent. Qed.

Lemma plain_diverge {A} : plain (@diverge A).
Proof. by apply plain_silent. Qed.

Lemma plain_get c : plain (get c).
Proof. apply plain_silent. intros s. unfold get. by destruct (units s !! c). Qed.

Lemma plain_heap : plain heap.
Proof. by apply plain_silent. Qed.

Lemma plain_modify c f : plain (modify c f).
Proof.
  apply plain_silent. intros s. unfold modify. by destruct (units s !! c).
Qed.

Lemma plain_emit e : finalization_event e = true -> plain (emit e).
Proof.
  intros He s. simpl. split_and!; [done|done|]. exists [e]. simpl.
  by rewrite He.
Qed.

Lemma plain_bind {A B} (m : M A) (k : A -> M B) :
  plain m -> (forall a, plain (k a)) -> plain (bind m k).
Proof.
  intros Hm Hk s. unfold bind.
  destruct (Hm s) as (Hg & Ht & tr & Htr & Hq).
  destruct (m s) as [[a|v| |] s1]; simpl in *;
    try (split_and!; [done|done|by exists tr]).
  destruct (Hk a s1) as (Hg' & Ht' & tr' & Htr' & Hq').
  split_and!; [done|congruence|].
  exists (tr ++ tr')%list. rewrite Htr', Htr, app_assoc. split; [done|].
  by rewrite forallb_app, Hq, Hq'.
Qed.

Create HintDb plain discriminated.
#[local] Hint Resolve plain_ret plain_panic plain_diverge plain_get
  plain_heap plain_modify : plain.

Ltac plain_step :=
  lazymatch goal with
  | |- plain (bind _ _) => apply plain_bind
  | |- plain (emit _) => by apply plain_emit
  | |- plain (match ?x with _ => _ end) => destruct x
  | |- forall _, _ => intro
  | |- _ => solve [auto with plain]
  end.

Ltac plain_tac := repeat plain_step.

Lemma plain_append_output c b : plain (append_output c b).
Proof. unfold append_output. plain_tac. Qed.
#[local] Hint Resolve plain_append_output : plain.

Lemma plain_indenter_loop n c b : plain (indenter_loop n c b).
Proof.
  revert b. induction n as [|n IH]; intros b; simpl; plain_tac.
Qed.

Lemma plain_Write wr b : plain (Write wr b).
Proof.
  destruct wr as [c|k]; simpl; [apply plain_indenter_loop|plain_tac].
Qed.
#[local] Hint Resolve plain_Write : plain.

Lemma plain_setRan_fuel n c : plain (setRan_fuel n c).
Proof. revert c. induction n as [|n IH]; intros c; simpl; plain_tac. Qed.

Lemma plain_setRan c : plain (setRan c).
Proof. intros s. apply plain_setRan_fuel. Qed.

Lemma plain_Fail_fuel n c : plain (Fail_fuel n c).
Proof. revert c. induction n as [|n IH]; intros c; simpl; plain_tac. Qed.

Lemma plain_Fail c : plain (Fail c).
Proof. intros s. apply plain_Fail_fuel. Qed.
#[local] Hint Resolve plain_setRan plain_Fail : plain.

Lemma plain_flushToParent c header : plain (flushToParent c header).
Proof. unfold flushToParent, Copy, Failed, Skipped. plain_tac. Qed.
#[local] Hint Resolve plain_flushToParent : plain.

Lemma plain_report t : plain (report t).
Proof. unfold report, Failed, Skipped. plain_tac. Qed.
#[local] Hint Resolve plain_report : plain.

Lemma bind_get_Some {B} c (k : H -> M B) s h :
  units s !! c = Some h -> bind (get c) k s = k h s.
Proof. intros Hc. unfold bind, get. by rewrite Hc. Qed.

Lemma bind_modify_Some {B} c f (k : unit -> M B) s h :
  units s !! c = Some h ->
  bind (modify c f) k s = k tt (with_units s (alter f c (units s))).
Proof. intros Hc. unfold bind, modify. by rewrite Hc. Qed.

Lemma returned_bind {A B} (m : M A) (k : A -> M B) s :
  (forall a s1, returned (k a s1).1 = false) ->
  returned (bind m k s).1 = false.
Proof.
  intros Hk. unfold bind. by destruct (m s) as [[a|v| |] s1].
Qed.

Lemma sends_last_bind t {A B} (m : M A) (k : A -> M B) :
  plain m -> (forall a, sends_last t (k a)) -> sends_last t (bind m k).
Proof.
  intros Hm Hk s. unfold bind.
  destruct (Hm s) as (Hg & Ht & tr & Htr & Hq).
  destruct (m s) as [[a|v| |] s1]; simpl in *;
    try (split_and!; [done|done|exists tr; by rewrite app_nil_r]).
  destruct (Hk a s1) as (Hg' & Ht' & tr' & Htr' & Hq').
  split_and!; [done|congruence|].
  exists (tr ++ tr')%list. rewrite Htr', Htr, <- !app_assoc. split; [done|].
  by rewrite forallb_app, Hq, Hq'.
Qed.

Lemma sends_last_plain t {A} (m : M A) :
  plain m -> (forall s, returned (m s).1 = false) -> sends_last t m.
Proof.
  intros Hm Hr s. destruct (Hm s) as (Hg & Ht & tr & Htr & Hq).
  split_and!; [done|done|]. exists tr. by rewrite Hr, app_nil_r.
Qed.

Section Ending.

Variable env : event -> list H -> list H.
Variable clock : nat -> Z.

Lemma plain_block e : finalization_event e = true -> plain (block env e).
Proof.
  intros He s. simpl. split_and!; [done|done|]. exists [e]. simpl.
  by rewrite He.
Qed.

Lemma plain_wait_all subs : plain (wait_all env subs).
Proof.
  induction subs as [|c subs IH]; simpl; [plain_tac|].
  apply plain_bind; [by apply plain_block|done].
Qed.

Lemma plain_run_parallel_subtests t : plain (run_parallel_subtests env t).
Proof.
  unfold run_parallel_subtests.
  plain_tac; auto using plain_wait_all, plain_block.
Qed.

Lemma plain_add_duration t d : plain (add_duration t d).
Proof. unfold add_duration. plain_tac. Qed.

Lemma sends_last_block t : sends_last t (block env (EvSend t)).
Proof. intros s. simpl. split_and!; [done|done|]. by exists []. Qed.

Lemma bind_now {A} (k : Z -> M A) s :
  (n <- now clock;; k n) s =
  k (clock (ticks s))
    {| units := units s; trace := trace s; ticks := S (ticks s) |}.
Proof. done. Qed.

(** The deferred function of [tRunner] does not end the task, reads the
    clock once, and sends on the signal of [t] as its last effect exactly
    when it returns, which it only does when nothing was recovered and the
    finished flag is set. *)
Lemma tRunner_deferred_ends t r s :
  let res := tRunner_deferred env clock t r s in
  res.1 <> Goexit /\ ticks res.2 = S (ticks s) /\
  (exists tr,
     trace res.2 =
       (trace s ++ tr ++ if returned res.1 then [EvSend t] else [])%list /\
     forallb finalization_event tr = true) /\
  (returned res.1 = true -> r = None /\ finished_at (units s) t = true).
Proof.
  cbv zeta. unfold tRunner_deferred. rewrite bind_now.
  set (s' := {| units := units s; trace := trace s; ticks := S (ticks s) |}).
  match goal with |- context [?m s'] => set (K := m) end.
  assert (sends_last t K) as Hs.
  { unfold K. apply sends_last_bind; [plain_tac|intros h].
    apply sends_last_bind; [apply plain_add_duration|intros _].
    apply sends_last_bind; [plain_tac|intros h0].
    assert (forall e, sends_last t (Fail t;;; report t;;; panic (A:=unit) e))
      as Hfault.
    { intros e. apply sends_last_plain; [plain_tac|].
      intros s0. by do 2 (apply returned_bind; intros). }
    destruct (negb (finished h0) && bool_decide (r = None)); [done|].
    destruct r as [e|]; [done|].
    apply sends_last_bind; [apply plain_run_parallel_subtests|intros _].
    do 2 (apply sends_last_bind; [plain_tac|intros _]).
    apply sends_last_bind; [plain_tac|intros h1].
    apply sends_last_bind; [plain_tac|intros _].
    apply sends_last_block. }
  destruct (Hs s') as (Hg & Ht & Htr). split_and!; [done|done|done|].
  unfold K, finished_at. destruct (units s !! t) as [h|] eqn:Hh.
  - rewrite (bind_get_Some _ _ _ h) by done. unfold add_duration.
    rewrite (bind_modify_Some _ _ _ _ h) by done.
    erewrite bind_get_Some;
      [|simpl; by rewrite list_lookup_alter_eq, Hh].
    simpl. destruct (finished h), r as [e|]; simpl; try done;
      intros Hret; exfalso; revert Hret;
      (rewrite returned_bind; [done|]); intros;
      by apply returned_bind.
  - unfold bind, get. simpl. by rewrite Hh.
Qed.

Lemma parentContext_spec t s h :
  wf (units s) -> units s !! t = Some h ->
  parentContext t s = (Ret (context_of_parent (units s) h), s).
Proof.
  intros Hwf Ht. unfold parentContext, context_of_parent. rewrite Ht.
  destruct (parent h) as [p|] eqn:Hp; [|done].
  pose proof (Hwf _ _ _ Ht Hp) as Hlt.
  pose proof (lookup_lt_Some _ _ _ Ht) as Hlen.
  destruct (lookup_lt_is_Some_2 (units s) p ltac:(lia)) as [ph Hph].
  rewrite Hph, (bind_get_Some _ _ _ ph) by done.
  by destruct (ctx ph).
Qed.

(** X10.  A task ends as its body does.  On well-formed units, [tRunner]
    calls the body with the context derived from the context of the parent
    and the start time read from the clock.  It returns only if the body
    returned; the task exits only if the body exited with the finished flag
    set (as [FailNow] and [SkipNow] do); a panic of the body is never
    turned into a return or an exit; a body that does not end leaves the
    state as it is.  Whenever the task ends, the events after those of the
    body are reports and operations on the gate, the barrier and the
    signals of subtests, then the send on the signal of [t] exactly when
    the task returns or exits, and at last the cancellation of the
    context of [t]. *)
Theorem tRunner_ends_as_its_body t fn s h :
  wf (units s) -> units s !! t = Some h ->
  let h0 :=
    set_start (clock (ticks s))
      (set_ctx (Some (WithCancel t (context_of_parent (units s) h))) h) in
  let s0 := {| units := <[t := h0]> (units s); trace := trace s;
               ticks := S (ticks s) |} in
  let body := fn t s0 in
  let res := tRunner env clock t fn s in
  (body.1 = Diverge -> res = (Diverge, body.2)) /\
  (res.1 = Ret tt -> body.1 = Ret tt) /\
  (res.1 = Goexit ->
   body.1 = Goexit /\ finished_at (units body.2) t = true) /\
  (forall v, body.1 = Panic v -> completed res.1 = false) /\
  (res.1 <> Diverge ->
   exists tr,
     trace res.2 =
       (trace body.2 ++ tr ++
        (if completed res.1 then [EvSend t] else []) ++ [EvCancel t])%list /\
     forallb finalization_event tr = true).
Proof.
  intros Hwf Ht h0 s0 body res.
  assert (res =
    defer_call
      (defer_recover (fn t;;; modify t (set_finished true))
         (tRunner_deferred env clock t))
      (emit (EvCancel t)) s0 /\ True) as [Hres _].
  { split; [|done]. unfold res, tRunner.
    rewrite (bind_Ret _ _ _ _ _ _ (parentContext_spec _ _ _ Hwf Ht) eq_refl).
    rewrite (bind_modify_Some _ _ _ _ h) by done.
    unfold defer_call, defer_recover. rewrite bind_now.
    rewrite (bind_modify_Some _ _ _ _
               (set_ctx (Some (WithCancel t (context_of_parent (units s) h)))
                  h)); [|simpl; by rewrite list_lookup_alter_eq, Ht].
    simpl. rewrite list_alter_alter_eq.
    rewrite !(alter_insert _ _ _ _ Ht). done. }
  clearbody res. subst res. clear Hwf.
  unfold defer_call, defer_recover, bind. fold body.
  destruct body as [[[]|v| |] s1]; cbn [fst snd].
  - unfold modify. destruct (units s1 !! t) as [h1|] eqn:H1.
    + pose proof (tRunner_deferred_ends t None
                    (with_units s1 (alter (set_finished true) t (units s1))))
        as (Hg & _ & (tr & Htr & Hq) & Hret).
      destruct (tRunner_deferred env clock t None _) as [[[]|v'| |] s2];
        cbn in *; split_and!; try done; intros _; exists tr;
        by rewrite Htr, <- !app_assoc.
    + pose proof (tRunner_deferred_ends t (Some nil_dereference) s1)
        as (Hg & _ & (tr & Htr & Hq) & Hret).
      destruct (tRunner_deferred env clock t (Some nil_dereference) _)
        as [[[]|v'| |] s2];
        cbn in *; split_and!; try done; intros _; exists tr;
        by rewrite Htr, <- !app_assoc.
  - pose proof (tRunner_deferred_ends t (Some v) s1)
      as (Hg & _ & (tr & Htr & Hq) & Hret).
    destruct (tRunner_deferred env clock t (Some v) _) as [[[]|v'| |] s2];
      cbn in *; split_and!; try done;
      try (by destruct (Hret eq_refl)); intros _; exists tr;
      by rewrite Htr, <- !app_assoc.
  - pose proof (tRunner_deferred_ends t None s1)
      as (Hg & _ & (tr & Htr & Hq) & Hret).
    destruct (tRunner_deferred env clock t None _) as [[[]|v'| |] s2];
      cbn in *; split_and!; try done;
      try (intros _; split; [done|]; by destruct (Hret eq_refl));
      intros _; exists tr; by rewrite Htr, <- !app_assoc.
  - split_and!; done.
Qed.

End Ending.

(** ** The shape of the hierarchy *)

Lemma grows_refl h : grows h h.
Proof. unfold grows. split_and!; try done. exists []. by rewrite app_nil_r. Qed.

Lemma grows_trans h1 h2 h3 : grows h1 h2 -> grows h2 h3 -> grows h1 h3.
Proof.
  unfold grows.
  intros (? & ? & ? & ? & ? & ? & ? & ? & ? & ? & ? & l & Hl)
         (? & ? & ? & ? & ? & ? & ? & ? & ? & ? & ? & l' & Hl').
  split_and!; try congruence; try tauto.
  exists (l ++ l')%list. by rewrite Hl', Hl, app_assoc.
Qed.

Lemma shape_le_refl us : shape_le us us.
Proof. split; [done|]. intros i h Hi. exists h. split; [done|apply grows_refl]. Qed.

Lemma shape_le_trans us1 us2 us3 :
  shape_le us1 us2 -> shape_le us2 us3 -> shape_le us1 us3.
Proof.
  intros [Hwf1 H1] [Hwf2 H2]. split; [tauto|].
  intros i h Hi. destruct (H1 i h Hi) as (h' & Hi' & Hg).
  destruct (H2 i h' Hi') as (h'' & Hi'' & Hg').
  exists h''. split; [done|]. by eapply grows_trans.
Qed.

Lemma shape_le_alter f c us :
  (forall h, grows h (f h)) -> shape_le us (alter f c us).
Proof.
  intros Hf. split.
  - intros Hwf i h' p Hi Hp. destruct (decide (i = c)) as [->|Hne].
    + rewrite list_lookup_alter_eq in Hi.
      destruct (us !! c) as [h|] eqn:Hc; [|done]. simplify_eq/=.
      apply (Hwf c h p Hc). destruct (Hf h) as (Hpar & _). congruence.
    + rewrite list_lookup_alter_ne in Hi by done. by eapply Hwf.
  - intros i h Hi. destruct (decide (i = c)) as [->|Hne].
    + exists (f h). split; [|done]. by rewrite list_lookup_alter_eq, Hi.
    + exists h. split; [|apply grows_refl].
      by rewrite list_lookup_alter_ne.
Qed.

Lemma shape_le_snoc us h :
  (forall p, parent h = Some p -> (p < length us)%nat) ->
  shape_le us (us ++ [h]).
Proof.
  intros Hp. split.
  - intros Hwf i h' p Hi Hpar.
    destruct (decide (i < length us)%nat) as [Hlt|Hge].
    + rewrite lookup_app_l in Hi by done. by eapply Hwf.
    + rewrite lookup_app_r in Hi by lia.
      destruct (i - length us)%nat as [|k] eqn:Hk; [|done].
      simplify_eq/=. specialize (Hp _ Hpar). lia.
  - intros i h' Hi. exists h'. split; [|apply grows_refl].
    rewrite lookup_app_l; [done|]. by eapply lookup_lt_Some.
Qed.

Lemma keeps_shape_same {A} (m : M A) :
  (forall s, units (m s).2 = units s) -> keeps_shape m.
Proof. intros Hm s. rewrite Hm. apply shape_le_refl. Qed.

Lemma keeps_shape_ret {A} (a : A) : keeps_shape (ret a).
Proof. by apply keeps_shape_same. Qed.

Lemma keeps_shape_panic {A} v : keeps_shape (@panic A v).
Proof. by apply keeps_shape_same. Qed.

Lemma keeps_shape_goexit {A} : keeps_shape (@goexit A).
Proof. by apply keeps_shape_same. Qed.

Lemma keeps_shape_diverge {A} : keeps_shape (@diverge A).
Proof. by apply keeps_shape_same. Qed.

Lemma keeps_shape_get c : keeps_shape (get c).
Proof.
  apply keeps_shape_same. intros s. unfold get. by destruct (units s !! c).
Qed.

Lemma keeps_shape_heap : keeps_shape heap.
Proof. by apply keeps_shape_same. Qed.

Lemma keeps_shape_emit e : keeps_shape (emit e).
Proof. by apply keeps_shape_same. Qed.

Lemma keeps_shape_bind {A B} (m : M A) (k : A -> M B) :
  keeps_shape m -> (forall a, keeps_shape (k a)) -> keeps_shape (bind m k).
Proof.
  intros Hm Hk s. unfold bind. specialize (Hm s).
  destruct (m s) as [[a|v| |] s1]; simpl in *; try done.
  eapply shape_le_trans; [done|apply Hk].
Qed.

Lemma keeps_shape_modify c f :
  (forall h, grows h (f h)) -> keeps_shape (modify c f).
Proof.
  intros Hf s. unfold modify. destruct (units s !! c); simpl.
  - by apply shape_le_alter.
  - apply shape_le_refl.
Qed.

Ltac grows_tac :=
  intros ?h; unfold grows; simpl; split_and!; try done;
  first [by exists []; rewrite app_nil_r | by eexists].

Create HintDb shape discriminated.
#[local] Hint Resolve keeps_shape_ret keeps_shape_panic keeps_shape_goexit
  keeps_shape_diverge keeps_shape_get keeps_shape_heap keeps_shape_emit
  : shape.

Ltac shape_step :=
  lazymatch goal with
  | |- keeps_shape (bind _ _) => apply keeps_shape_bind
  | |- keeps_shape (modify _ _) => apply keeps_shape_modify; grows_tac
  | |- keeps_shape (match ?x with _ => _ end) => destruct x
  | |- keeps_shape (let '(_, _) := ?x in _) => destruct x
  | |- forall _, _ => intro
  | |- _ => solve [auto with shape]
  end.

Ltac shape_tac := repeat shape_step.

Lemma keeps_shape_indenter_loop n c b : keeps_shape (indenter_loop n c b).
Proof.
  revert b. induction n as [|n IH]; intros b; simpl; unfold append_output;
    shape_tac.
Qed.

Lemma keeps_shape_Write wr b : keeps_shape (Write wr b).
Proof.
  destruct wr as [c|k]; simpl; [apply keeps_shape_indenter_loop|shape_tac].
Qed.
#[local] Hint Resolve keeps_shape_Write : shape.

Lemma keeps_shape_setRan_fuel n c : keeps_shape (setRan_fuel n c).
Proof. revert c. induction n as [|n IH]; intros c; simpl; shape_tac. Qed.

Lemma keeps_shape_setRan c : keeps_shape (setRan c).
Proof. intros s. apply keeps_shape_setRan_fuel. Qed.

Lemma keeps_shape_Fail_fuel n c : keeps_shape (Fail_fuel n c).
Proof. revert c. induction n as [|n IH]; intros c; simpl; shape_tac. Qed.

Lemma keeps_shape_Fail c : keeps_shape (Fail c).
Proof. intros s. apply keeps_shape_Fail_fuel. Qed.
#[local] Hint Resolve keeps_shape_setRan keeps_shape_Fail : shape.

Lemma keeps_shape_FailNow c : keeps_shape (FailNow c).
Proof. unfold FailNow. shape_tac. Qed.

Lemma keeps_shape_skip c : keeps_shape (skip c).
Proof. unfold skip. shape_tac. Qed.

Lemma keeps_shape_SkipNow c : keeps_shape (SkipNow c).
Proof. unfold SkipNow, skip. shape_tac. Qed.

Lemma keeps_shape_flushToParent c header :
  keeps_shape (flushToParent c header).
Proof. unfold flushToParent, Copy, Failed, Skipped. shape_tac. Qed.
#[local] Hint Resolve keeps_shape_flushToParent : shape.

Lemma keeps_shape_report t : keeps_shape (report t).
Proof. unfold report, Failed, Skipped. shape_tac. Qed.
#[local] Hint Resolve keeps_shape_report : shape.

Lemma keeps_shape_root_loop n root : keeps_shape (root_loop n root).
Proof.
  revert root. induction n as [|n IH]; intros root; simpl; shape_tac.
Qed.
#[local] Hint Resolve keeps_shape_root_loop : shape.

Lemma keeps_shape_ignore {A} (m : M A) :
  keeps_shape m -> keeps_shape (m;;; ret tt).
Proof. intros Hm. shape_tac. Qed.

Section Shape.

Variable env : event -> list H -> list H.
Variable clock : nat -> Z.
Variable fullName : list H -> nat -> string -> string * bool.

Hypothesis Hrely : shape_rely env.

Lemma keeps_shape_block e : keeps_shape (block env e).
Proof. intros s. apply Hrely. Qed.

Lemma keeps_shape_now : keeps_shape (now clock).
Proof. by apply keeps_shape_same. Qed.

#[local] Hint Resolve keeps_shape_block keeps_shape_now : shape.

Lemma keeps_shape_Parallel t : keeps_shape (Parallel env clock t).
Proof. unfold Parallel, add_duration. shape_tac. Qed.

Lemma keeps_shape_wait_all subs : keeps_shape (wait_all env subs).
Proof. induction subs as [|c subs IH]; simpl; shape_tac. Qed.
#[local] Hint Resolve keeps_shape_wait_all : shape.

Lemma keeps_shape_tRunner_deferred t r :
  keeps_shape (tRunner_deferred env clock t r).
Proof.
  unfold tRunner_deferred, run_parallel_subtests, add_duration.
  shape_tac.
Qed.

Lemma keeps_shape_defer_recover body f :
  keeps_shape body -> (forall r, keeps_shape (f r)) ->
  keeps_shape (defer_recover body f).
Proof.
  intros Hb Hf s. unfold defer_recover. specialize (Hb s).
  destruct (body s) as [[[]|v| |] s1]; simpl in *; try done.
  - eapply shape_le_trans; [done|apply Hf].
  - eapply shape_le_trans; [done|apply Hf].
  - specialize (Hf None s1).
    destruct (f None s1) as [[[]|v| |] s2]; simpl in *;
      by eapply shape_le_trans.
Qed.

Lemma keeps_shape_defer_call body f :
  keeps_shape body -> keeps_shape f -> keeps_shape (defer_call body f).
Proof.
  intros Hb Hf s. unfold defer_call. specialize (Hb s).
  destruct (body s) as [o s1]; simpl in *. specialize (Hf s1).
  destruct o as [[]|v| |]; try done;
    destruct (f s1) as [[[]|v'| |] s2]; simpl in *;
    by eapply shape_le_trans.
Qed.

Lemma keeps_shape_parentContext c : keeps_shape (parentContext c).
Proof.
  intros s. unfold parentContext. destruct (units s !! c) as [h|];
    [|apply shape_le_refl].
  destruct (parent h) as [p|]; [|apply shape_le_refl].
  revert s. change (keeps_shape (ph <- get p;;
    match ctx ph with None => ret Background | Some x => ret x end)).
  shape_tac.
Qed.

Lemma keeps_shape_tRunner t fn :
  keeps_shape (fn t) -> keeps_shape (tRunner env clock t fn).
Proof.
  intros Hfn. unfold tRunner.
  apply keeps_shape_bind; [apply keeps_shape_parentContext|intro].
  apply keeps_shape_bind; [shape_tac|intro].
  apply keeps_shape_defer_call; [|shape_tac].
  apply keeps_shape_defer_recover; [shape_tac|].
  apply keeps_shape_tRunner_deferred.
Qed.

Lemma bind_heap {B} (k : list H -> M B) s :
  (us <- heap;; k us) s = k (units s) s.
Proof. done. Qed.

Lemma bind_alloc {B} mk (k : nat -> M B) s :
  (c <- alloc mk;; k c) s =
  k (length (units s))
    (with_units s (units s ++ [mk (length (units s))])).
Proof. done. Qed.

Lemma keeps_shape_Run t name_ f : keeps_shape (Run env fullName t name_ f).
Proof.
  intros s. unfold Run. destruct (units s !! t) as [p|] eqn:Ht.
  - rewrite (bind_modify_Some _ _ _ _ p) by done.
    set (us1 := alter (set_hasSub true) t (units s)).
    assert (shape_le (units s) us1) as H1
      by (apply shape_le_alter; grows_tac).
    eapply shape_le_trans; [exact H1|].
    assert (us1 !! t = Some (set_hasSub true p)) as Ht1
      by (unfold us1; by rewrite list_lookup_alter_eq, Ht).
    rewrite (bind_get_Some _ _ _ (set_hasSub true p)) by done.
    rewrite bind_heap. cbn [units with_units].
    destruct (fullName us1 t name_) as [testName ok].
    destruct ok; cbn [negb]; [|apply shape_le_refl].
    rewrite bind_alloc. cbn [units with_units].
    eapply shape_le_trans.
    { apply (shape_le_snoc us1
               (new_unit t (set_hasSub true p) testName (length us1))).
      simpl. intros ? [= <-]. by eapply lookup_lt_Some. }
    match goal with |- shape_le _ (units (?m ?s0).2) =>
      assert (keeps_shape m) as Hk by shape_tac; apply (Hk s0) end.
  - unfold bind, modify. rewrite Ht. apply shape_le_refl.
Qed.

(** X11.  The shape of the hierarchy is stable.  Let the other tasks, and
    the body that [tRunner] calls, keep the shape.  Then every operation of
    the engine keeps every unit, with its parent, name, suite, level and
    writers unchanged; it clears none of the flags [ran], [skipped],
    [done], [hasSub] and [isParallel]; it only extends the lists of
    parallel subtests; and it leaves every parent older than its
    children, the unit that [Run] constructs included. *)
Theorem operations_keep_the_shape o s :
  body_keeps_shape o ->
  let us' := units (perform env clock fullName o s).2 in
  (wf (units s) -> wf us') /\
  (length (units s) <= length us')%nat /\
  forall i h, units s !! i = Some h ->
    exists h', us' !! i = Some h' /\ grows h h'.
Proof.
  intros Hbody us'.
  assert (keeps_shape (perform env clock fullName o)) as Hop.
  { destruct o; simpl in *;
      auto using keeps_shape_Write, keeps_shape_setRan, keeps_shape_Fail,
        keeps_shape_FailNow, keeps_shape_skip, keeps_shape_SkipNow,
        keeps_shape_flushToParent, keeps_shape_report, keeps_shape_Parallel,
        keeps_shape_tRunner, keeps_shape_Run, keeps_shape_ignore. }
  destruct (Hop s) as [Hwf Hg]. subst us'. split_and!; [done| |done].
  set (us' := units (perform env clock fullName o s).2) in *.
  destruct (decide (length (units s) <= length us')%nat) as [|Hlt]; [done|].
  exfalso.
  assert (length us' < length (units s))%nat as Hl by lia.
  destruct (lookup_lt_is_Some_2 _ _ Hl) as [h Hh].
  destruct (Hg _ _ Hh) as (h' & Hh' & _).
  apply lookup_lt_Some in Hh'. lia.
Qed.

End Shape.

(** ** Reports through two levels *)

Lemma indent_text_empty b : is_empty b = true -> indent_text b = "".
Proof. by destruct b. Qed.

(** X12.  Reports nest.  Let [c] be a subtest of [p], which writes to its
    own buffer through its indenter and has no TAP writer, and let [p] be a
    subtest of [r], which writes to the external writer [k].  When [c] and
    then [p] are flushed to their parents, both calls return, and the
    writer [k] receives the header of [p] and then, in one write, what the
    buffer of [p] held, followed by the header of [c] and by the buffer of
    [c], each indented by four spaces per line; both buffers are empty
    afterwards. *)
Theorem flushes_nest c p r k s hc hp hr header_c header_p :
  wf (units s) ->
  units s !! c = Some hc -> units s !! p = Some hp ->
  units s !! r = Some hr ->
  parent hc = Some p -> parent hp = Some r ->
  w hp = WIndenter p -> tap hp = None ->
  w hr = WExternal k ->
  (forall tw, tap hr = Some tw -> exists k', tw = WExternal k' /\ k' <> k) ->
  let res := (flushToParent c header_c;;; flushToParent p header_p) s in
  let payload :=
    output hp ++ indent_text header_c ++ indent_text (output hc) in
  res.1 = Ret tt /\
  written k (trace res.2) =
    (written k (trace s) ++ [header_p] ++
     if is_empty payload then [] else [payload])%list /\
  output <$> units res.2 !! c = Some "" /\
  output <$> units res.2 !! p = Some "".
Proof.
  intros Hwf Hc Hp Hr Hpc Hpp Hwp Htp Hwr Htr res payload.
  pose proof (Hwf _ _ _ Hc Hpc) as Hlt1.
  pose proof (Hwf _ _ _ Hp Hpp) as Hlt2.
  assert (flushToParent c header_c s = (Ret tt, flushed c hc hp header_c s))
    as H1.
  { apply (flushToParent_spec c p); try done; [lia|by rewrite Hwp|].
    intros tw. by rewrite Htp. }
  set (s1 := flushed c hc hp header_c s) in *.
  assert (units s1 !! p = Some (set_output payload hp) /\
          units s1 !! r = Some hr /\
          output <$> units s1 !! c = Some "" /\
          trace s1 = trace s) as (Hp1 & Hr1 & Hc1 & Htr1).
  { unfold s1, flushed, clear_output, deliver_nonempty. rewrite Hwp, Htp.
    assert (forall a b d : string, ((a ++ b) ++ d = a ++ b ++ d)%string)
      as Hassoc by (intros; by rewrite append_assoc).
    destruct (is_empty (output hc)) eqn:He; simpl;
      rewrite ?list_lookup_alter_eq, ?list_lookup_alter_ne by lia;
      rewrite ?list_lookup_alter_eq, ?list_lookup_alter_ne by lia;
      rewrite ?Hp, ?Hr, ?Hc; simpl; split_and!; try done.
    - unfold payload. rewrite (indent_text_empty (output hc)) by done.
      by rewrite append_nil_r.
    - unfold set_output; simpl. unfold payload. by rewrite Hassoc. }
  assert (flushToParent p header_p s1 =
            (Ret tt, flushed p (set_output payload hp) hr header_p s1)) as H2.
  { apply (flushToParent_spec p r); try done; [lia|by rewrite Hwr|].
    intros tw Htw. by destruct (Htr tw Htw) as (k' & -> & _). }
  assert (res = (Ret tt, flushed p (set_output payload hp) hr header_p s1))
    as ->.
  { unfold res. by rewrite (bind_Ret _ _ _ _ _ _ H1 H2). }
  clear H1 H2. unfold flushed, clear_output, deliver_nonempty. rewrite Hwr.
  cbn [fst snd output set_output]. clearbody s1 payload.
  assert (forall b, written k [EvWrite k b] = [b]) as Hkb
    by (intros; simpl; by rewrite decide_True).
  destruct (tap hr) as [tw|] eqn:Htw.
  - destruct (Htr tw eq_refl) as (k' & -> & Hne).
    assert (forall b, written k [EvWrite k' b] = []) as Hk'
      by (intros; simpl; by rewrite decide_False).
    destruct (is_empty payload); simpl;
      rewrite ?written_app, ?Hkb, ?Hk', ?Htr1, ?app_nil_r;
      rewrite ?list_lookup_alter_eq, ?list_lookup_alter_ne by lia;
      rewrite ?Hp1; by rewrite <- ?app_assoc.
  - destruct (is_empty payload); simpl;
      rewrite ?written_app, ?Hkb, ?Htr1, ?app_nil_r;
      rewrite ?list_lookup_alter_eq, ?list_lookup_alter_ne by lia;
      rewrite ?Hp1; by rewrite <- ?app_assoc.
Qed.

(** ** The further properties at work *)

Lemma demo_env_shape_rely : shape_rely demo_env.
Proof.
  intros e us. destruct e; simpl; try apply shape_le_refl.
  apply shape_le_alter. grows_tac.
Qed.

Lemma setRan_marks_unit_and_ancestors_witness :
  setRan 1 (demo_state quiet) =
    (Ret tt,
     with_units (demo_state quiet)
       [set_ran true (demo_root quiet); set_ran true (demo_child quiet)]).
Proof.
  destruct (setRan_marks_unit_and_ancestors (demo_state quiet) 1
              (demo_child quiet)) as (Hrun & _).
  - by apply wf_two.
  - reflexivity.
  - exact Hrun.
Defined.

Lemma Fail_stops_at_first_done_witness :
  Fail 2 demo_state_done =
    (Panic "Fail in goroutine after tests/a#1 has completed",
     with_units demo_state_done
       (alter (set_failed true) 0%nat (units demo_state_done))).
Proof.
  destruct (Fail_stops_at_first_done demo_state_done 2
              (set_done true (set_finished true
                 (new_unit 1 (demo_child quiet) "tests/a#1/b" 2))))
    as (Hrun & _).
  - by apply wf_three.
  - reflexivity.
  - exact Hrun.
Defined.

Lemma FailNow_exits_after_marking_witness :
  (FailNow 1 (demo_state quiet)).1 = Goexit /\
  finished_at (units (FailNow 1 (demo_state quiet)).2) 1 = true /\
  (FailNow 2 demo_state_done).1 <> Ret tt.
Proof.
  destruct (FailNow_exits_after_marking (demo_state quiet) 1
              (demo_child quiet)) as [Hnever Hcase].
  destruct (Hcase
              (wf_two (demo_root quiet) (demo_child quiet) eq_refl eq_refl)
              eq_refl) as [Hlive _].
  destruct (Hlive eq_refl) as (Hrun & Hfin & _).
  split_and!; [by rewrite Hrun|exact Hfin|apply Hnever].
Defined.

Lemma SkipNow_exits_and_keeps_failed_witness :
  SkipNow 1 demo_state_failed =
    (Goexit,
     with_units demo_state_failed
       [demo_root quiet;
        set_finished true
          (set_skipped true
             (set_duration 12345000000
                (set_failed true (demo_child quiet))))]) /\
  written 1 (trace (report 1 (SkipNow 1 demo_state_failed).2).2) =
    ["not ok - tests/a1" ++ String newline ""] /\
  written 0 (trace (report 1 (SkipNow 1 demo_state_failed).2).2) =
    ["--- FAIL: tests/a#1 (12.35s)" ++ String newline ""; "        log"] /\
  SkipNow 5 (demo_state quiet) = (Panic nil_dereference, demo_state quiet).
Proof.
  destruct (SkipNow_exits_and_keeps_failed demo_state_failed 1)
    as [Hsome _].
  destruct (SkipNow_exits_and_keeps_failed (demo_state quiet) 5)
    as [_ Hnone].
  destruct (Hsome _ eq_refl) as (Hrun & _ & Hreport).
  assert (0%nat <> 1%nat) as Hne by done.
  assert (1%nat <> 0%nat) as Hne' by done.
  destruct (Hreport eq_refl 0%nat (demo_root quiet) 0%nat 1%nat
              eq_refl eq_refl Hne eq_refl eq_refl Hne')
    as (_ & Hout & Htap).
  split_and!; [exact Hrun|exact Htap|exact Hout|exact (Hnone eq_refl)].
Defined.

Lemma logged_text_is_printed_iff_failed_or_verbose_witness :
  let s' :=
    ((log 1 "x_test.go" 12 "hello";;; report 1) (demo_state verbose)).2 in
  written 0 (trace s') =
    [status_line "PASS" (demo_child verbose);
     (output (demo_child verbose) ++
      Output "        " "x_test.go" 12 "hello")%string] /\
  (output <$> units s' !! 1%nat) = Some "".
Proof.
  destruct (logged_text_is_printed_iff_failed_or_verbose 1 0
              (demo_state verbose) (demo_child verbose) (demo_root verbose)
              0 "x_test.go" 12 "hello") as (_ & Hshown & _).
  - reflexivity.
  - reflexivity.
  - reflexivity.
  - done.
  - reflexivity.
  - intros tw [= <-]. split; [exact I|discriminate].
  - exact (Hshown (or_intror eq_refl)).
Defined.

Lemma Error_Fatal_Skip_log_then_mark_witness :
  (Error 1 "x_test.go" 12 "bad" (demo_state quiet)).1 = Ret tt /\
  (Fatal 1 "x_test.go" 12 "bad" (demo_state quiet)).1 = Goexit /\
  (Skip 1 "x_test.go" 12 "bad" (demo_state quiet)).1 = Goexit.
Proof.
  destruct (Error_Fatal_Skip_log_then_mark (demo_state quiet) 1
              (demo_child quiet) "x_test.go" 12 "bad")
    as (HError & HFatal & HSkip).
  - by apply wf_two.
  - reflexivity.
  - by apply all_not_done.
  - by rewrite HError, HFatal, HSkip.
Defined.

Lemma indenter_Write_appends_indented_lines_witness :
  indenter_Write 1 "ab" (demo_state quiet) =
    (Ret tt,
     with_units (demo_state quiet)
       [demo_root quiet; set_output "        log    ab" (demo_child quiet)]).
Proof.
  destruct (indenter_Write_appends_indented_lines 1 "ab" (demo_state quiet))
    as (Hwrite & _).
  exact (Hwrite _ eq_refl).
Defined.

Lemma indenter_writes_compose_at_line_ends_witness :
  (indenter_Write 1 "x";;; indenter_Write 1 "y") (demo_state quiet) <>
  indenter_Write 1 "xy" (demo_state quiet).
Proof.
  intros Heq.
  apply (indenter_writes_compose_at_line_ends 1 "x" "y" (demo_state quiet)
           (demo_child quiet) eq_refl) in Heq.
  by destruct Heq as [?|[?|?]].
Defined.

Lemma fmtDuration_whole_seconds_witness :
  fmtDuration (3 * Second) = "3.00s" /\
  fmtDuration (- (3 * Second)) = "-3.00s".
Proof.
  destruct (fmtDuration_whole_seconds 3) as [Hpos Hneg].
  - by vm_compute.
  - split; [exact Hpos|exact (Hneg eq_refl)].
Defined.

Lemma tRunner_ends_as_its_body_witness :
  let res := tRunner demo_env demo_clock 1 FailNow (demo_state quiet) in
  res.1 = Goexit /\
  exists tr, trace res.2 = (tr ++ [EvSend 1; EvCancel 1])%list.
Proof.
  destruct (tRunner_ends_as_its_body demo_env demo_clock 1 FailNow
              (demo_state quiet) (demo_child quiet))
    as (_ & _ & _ & _ & Htrace).
  - by apply wf_two.
  - reflexivity.
  - split; [by vm_compute|].
    destruct Htrace as (tr & Htr & _); [by vm_compute|].
    eexists. rewrite Htr.
    assert (completed
      (tRunner demo_env demo_clock 1 FailNow (demo_state quiet)).1 = true)
      as -> by (by vm_compute).
    by rewrite (app_assoc _ tr).
Defined.

Lemma operations_keep_the_shape_witness :
  let us' :=
    units (perform demo_env demo_clock demo_fullName
             (op_Run 0 "b" (fun _ => ret tt)) (demo_state quiet)).2 in
  wf us' /\ (2 <= length us')%nat.
Proof.
  destruct (operations_keep_the_shape demo_env demo_clock demo_fullName
              demo_env_shape_rely (op_Run 0 "b" (fun _ => ret tt))
              (demo_state quiet) I) as (Hwf & Hlen & _).
  split; [|exact Hlen]. apply Hwf. by apply wf_two.
Defined.

Lemma flushes_nest_witness :
  let hc := set_done true (set_finished true
              (new_unit 1 (demo_child quiet) "tests/a#1/b" 2)) in
  let hp := set_done true (set_finished true (demo_child quiet)) in
  let res :=
    (flushToParent 2 (status_line "PASS" hc);;;
     flushToParent 1 (status_line "PASS" hp)) demo_state_done in
  res.1 = Ret tt /\
  written 0 (trace res.2) =
    [status_line "PASS" hp;
     "        log" ++ indent_text (status_line "PASS" hc)].
Proof.
  intros hc hp.
  destruct (flushes_nest 2 1 0 0 demo_state_done hc hp (demo_root quiet)
              (status_line "PASS" hc) (status_line "PASS" hp))
    as (Hret & Hwritten & _).
  - by apply wf_three.
  - reflexivity.
  - reflexivity.
  - reflexivity.
  - reflexivity.
  - reflexivity.
  - reflexivity.
  - reflexivity.
  - reflexivity.
  - intros tw [= <-]. by exists 1%nat.
  - split; [exact Hret|]. rewrite Hwritten. by vm_compute.
Defined.

End Harness.
